(** * The embedded-database session core of [src/utils/pgliteConfig.ts]

    A shallow embedding of the query classifier, the affected-table
    heuristic, the change broadcaster, the connection initialiser, the
    retrying [executeQuery] with its transaction queue, and the patient-table
    bootstrap, followed by the properties of the specification that concern
    them.  The rest of the module (the health check, [cleanupDatabase], the
    listeners of [onDatabaseUpdate]) and the components that call it (the
    shell, the registration form, the table and the query box) follow, with
    further properties of the code in Part V.

    Conventions.
    - A JavaScript string is a [string]: a sequence of code units below 256
      (the Latin-1 range, which contains every character of the SQL
      statements the module handles).
    - A JavaScript number that a caller chooses ([retries]) is a [Number]:
      a ratio of integers, an infinity or NaN.  A counter of the program
      ([attempt]) is an integer.
    - Asynchronous code is a coroutine: a record holding the local variables
      of the [async] function and the [await] it is suspended at.  The event
      loop is a step function that takes the next thing that happens (a call,
      a timer that fires, a query that settles) and runs the JavaScript up to
      the next suspension. *)

From Stdlib Require Import ZArith Ascii String Bool Lia.
From stdpp Require Import base tactics list gmap.

Local Open Scope Z_scope.
#[local] Set Warnings "-clear-no-such-hyp".

(* ================================================================== *)
(** * Part I: the program                                              *)
(* ================================================================== *)

(** ** Strings: [toLowerCase], [trim], [startsWith] *)

Definition code (c : ascii) : Z := Z.of_N (N_of_ascii c).

(** [String.prototype.toLowerCase] on one code unit below 256: the ASCII
    capitals and the Latin-1 capitals U+00C0..U+00DE (U+00D7, the
    multiplication sign, is not a letter) move up by 32. *)
Definition lower_char (c : ascii) : ascii :=
  let n := code c in
  if ((65 <=? n) && (n <=? 90)) || ((192 <=? n) && (n <=? 222) && negb (n =? 215))
  then ascii_of_N (Z.to_N (n + 32))
  else c.

Fixpoint toLowerCase (s : string) : string :=
  match s with
  | EmptyString => EmptyString
  | String c r => String (lower_char c) (toLowerCase r)
  end.

(** White space of ECMAScript ([trim] and the regular-expression class
    [\s]) among the code units below 256: TAB, LF, VT, FF, CR, SP, NBSP. *)
Definition is_space (c : ascii) : bool :=
  let n := code c in
  ((9 <=? n) && (n <=? 13)) || (n =? 32) || (n =? 160).

Fixpoint trimStart (s : string) : string :=
  match s with
  | EmptyString => EmptyString
  | String c r => if is_space c then trimStart r else s
  end.

Fixpoint trimEnd (s : string) : string :=
  match s with
  | EmptyString => EmptyString
  | String c r =>
      match trimEnd r with
      | EmptyString => if is_space c then EmptyString else String c EmptyString
      | r' => String c r'
      end
  end.

Definition trim (s : string) : string := trimEnd (trimStart s).

(** [s.startsWith(p)] *)
Definition startsWith (s p : string) : bool := String.prefix p s.

(** ** [isModifyingQuery] and [getQueryAction] *)

Definition isModifyingQuery (query : string) : bool :=
  let lowerQuery := trim (toLowerCase query) in
  startsWith lowerQuery "insert" ||
  startsWith lowerQuery "update" ||
  startsWith lowerQuery "delete" ||
  startsWith lowerQuery "create" ||
  startsWith lowerQuery "alter" ||
  startsWith lowerQuery "drop" ||
  startsWith lowerQuery "truncate".

Definition getQueryAction (query : string) : string :=
  let lowerQuery := trim (toLowerCase query) in
  if startsWith lowerQuery "insert" then "insert"
  else if startsWith lowerQuery "update" then "update"
  else if startsWith lowerQuery "delete" then "delete"
  else if startsWith lowerQuery "create" then "create"
  else if startsWith lowerQuery "alter" then "alter"
  else if startsWith lowerQuery "drop" then "drop"
  else if startsWith lowerQuery "truncate" then "truncate"
  else "other".

(** The prefixes the specification lists for a mutating statement. *)
Definition mutating_prefixes : list string :=
  ["insert"; "update"; "delete"; "create"; "alter"; "drop"; "truncate"]%string.

(** ** Regular expressions, as far as [getAffectedTable] uses them

    The pattern of [getAffectedTable] is built from literals, greedy
    one-or-more repetitions of a character class, capture groups,
    sequencing and alternation.  [rmatch] is a backtracking matcher in
    continuation-passing style, as the ECMAScript semantics defines it:
    alternatives are tried left to right, a repetition takes as much as it
    can and gives back one character at a time when the rest fails. *)

Inductive regex : Type :=
  | RLit (lit : string)
  | RPlus (cls : ascii -> bool)
  | RGroup (n : nat) (r : regex)
  | RSeq (r1 r2 : regex)
  | RAlt (r1 r2 : regex).

Definition captures : Type := list (nat * string).

(** Canonicalisation under the flag [i] (through [toUpperCase]): a letter
    compares equal to its other case; a code unit from 128 on never
    equals one below. *)
Definition canon (c : ascii) : ascii :=
  let n := code c in
  if ((97 <=? n) && (n <=? 122)) || ((224 <=? n) && (n <=? 254) && negb (n =? 247))
  then ascii_of_N (Z.to_N (n - 32))
  else c.

Definition ci_eqb (a b : ascii) : bool := Ascii.eqb (canon a) (canon b).

(** Match the literal [lit] at the head of [s]; the result is what follows. *)
Fixpoint match_lit (lit s : string) : option string :=
  match lit, s with
  | EmptyString, _ => Some s
  | String a lit', String b s' => if ci_eqb a b then match_lit lit' s' else None
  | String _ _, EmptyString => None
  end.

Section Matcher.
Context {R : Type}.

(** [cls+] followed by the continuation [k]: greedy, with backtracking. *)
Fixpoint match_plus (cls : ascii -> bool) (s : string)
    (k : string -> option R) : option R :=
  match s with
  | EmptyString => None
  | String c r =>
      if cls c then
        match match_plus cls r k with
        | Some x => Some x
        | None => k r
        end
      else None
  end.

Fixpoint rmatch (r : regex) (s : string) (caps : captures)
    (k : string -> captures -> option R) : option R :=
  match r with
  | RLit lit =>
      match match_lit lit s with
      | Some rest => k rest caps
      | None => None
      end
  | RPlus cls => match_plus cls s (fun rest => k rest caps)
  | RGroup n r1 =>
      rmatch r1 s caps (fun rest caps' =>
        let matched := substring 0 (String.length s - String.length rest) s in
        k rest ((n, matched) :: caps'))
  | RSeq r1 r2 =>
      rmatch r1 s caps (fun rest caps' => rmatch r2 rest caps' k)
  | RAlt r1 r2 =>
      match rmatch r1 s caps k with
      | Some x => Some x
      | None => rmatch r2 s caps k
      end
  end.
End Matcher.

(** [s.match(r)] without the flag [g]: the match at the leftmost position
    that has one. *)
Fixpoint regex_exec (r : regex) (s : string) : option captures :=
  match rmatch r s [] (fun _ caps => Some caps) with
  | Some caps => Some caps
  | None =>
      match s with
      | EmptyString => None
      | String _ rest => regex_exec r rest
      end
  end.

(** [m[n]]: the text of group [n], [None] for a group that took no part. *)
Fixpoint group (n : nat) (caps : captures) : option string :=
  match caps with
  | [] => None
  | (m, s) :: rest => if Nat.eqb m n then Some s else group n rest
  end.

(** ** [getAffectedTable] *)

(** The class [[^\s,;)]]. *)
Definition is_name_char (c : ascii) : bool :=
  negb (is_space c || Ascii.eqb c "," || Ascii.eqb c ";" || Ascii.eqb c ")").

(** [kw\s+([^\s,;)]+)] with the group numbered [n]. *)
Definition keyword_then_name (kw : string) (n : nat) : regex :=
  RSeq (RLit kw) (RSeq (RPlus is_space) (RGroup n (RPlus is_name_char))).

(** [/from\s+([^\s,;)]+)|into\s+([^\s,;)]+)|update\s+([^\s,;)]+)/i] *)
Definition tableRegex : regex :=
  RAlt (keyword_then_name "from" 1)
       (RAlt (keyword_then_name "into" 2) (keyword_then_name "update" 3)).

(** [a || b] on values that are a string or undefined: the empty string is
    falsy too. *)
Definition js_or (a b : option string) : option string :=
  match a with
  | Some EmptyString | None => b
  | Some _ => a
  end.

Definition getAffectedTable (query : string) : option string :=
  let lowerQuery := toLowerCase query in
  match regex_exec tableRegex lowerQuery with
  | Some tableMatch =>
      js_or (js_or (group 1 tableMatch) (group 2 tableMatch)) (group 3 tableMatch)
  | None => None
  end.

(** ** Values exchanged with the engine *)

(** An [Error] is identified with its message, a result set with its rows. *)
Definition Error : Type := string.
Definition Results : Type := list string.

(** How an awaited promise settles: [inl] fulfilled, [inr] rejected. *)
Definition Settled (A : Type) : Type := (A + Error)%type.

(** ** [broadcastDatabaseChange] *)

Record ChangeInfo : Type := {
  ci_type : string;
  ci_action : string;
  ci_query : string;
  ci_affectedTable : option string;
  ci_timestamp : Z;
  ci_origin : string;
  ci_tabId : string
}.

(** What the browser does when the broadcaster calls into it: the clock,
    the location, the identifier [generateTabId] draws, and, for each of
    the three transports, whether the call throws. *)
Record Platform : Type := {
  now : Z;
  now_marker : Z;
  href : string;
  newTabId : string;
  postMessage_throws : option Error;
  setItem_throws : option Error;
  dispatchEvent_throws : option Error
}.

Inductive Effect : Type :=
  | ConsoleLog (msg : string)
  | ConsoleLogCount (msg : string) (n : nat)
  | ConsoleError (msg : string) (e : Error)
  | ChannelPost (info : ChangeInfo)
  | StorageSet (key : string) (info : ChangeInfo)
  | WindowDispatch (name : string) (info : ChangeInfo).

(** Code that performs effects and either completes or throws. *)
Definition Exec (A : Type) : Type := (list Effect * Settled A)%type.

Definition ret {A} (a : A) : Exec A := ([], inl a).
Definition throw {A} (e : Error) : Exec A := ([], inr e).
Definition perform (f : Effect) : Exec unit := ([f], inl tt).

Definition bind {A B} (m : Exec A) (k : A -> Exec B) : Exec B :=
  match m with
  | (effs, inl a) => let '(effs', r) := k a in (effs ++ effs', r)
  | (effs, inr e) => (effs, inr e)
  end.

(** [try { body } catch (error) { handler(error) }] *)
Definition try_catch {A} (body : Exec A) (handler : Error -> Exec A) : Exec A :=
  match body with
  | (effs, inl a) => (effs, inl a)
  | (effs, inr e) => let '(effs', r) := handler e in (effs ++ effs', r)
  end.

Declare Scope exec_scope.
Delimit Scope exec_scope with exec.
Notation "m ;; k" := (bind m (fun _ => k))
  (at level 100, k at level 200, right associativity, only parsing) : exec_scope.

Definition postMessage (p : Platform) (info : ChangeInfo) : Exec unit :=
  match postMessage_throws p with
  | Some e => throw e
  | None => perform (ChannelPost info)
  end.

Definition setItem (p : Platform) (key : string) (info : ChangeInfo) : Exec unit :=
  match setItem_throws p with
  | Some e => throw e
  | None => perform (StorageSet key info)
  end.

Definition dispatchEvent (p : Platform) (name : string) (info : ChangeInfo) : Exec unit :=
  match dispatchEvent_throws p with
  | Some e => throw e
  | None => perform (WindowDispatch name info)
  end.

(** [dbChannel] is [true] when the module variable holds an open channel,
    [false] when it is [null]. *)
Definition broadcastDatabaseChange (p : Platform) (dbChannel : bool)
    (query : string) (affectedTable : option string) : Exec unit :=
  let changeInfo :=
    {| ci_type := "data_updated";
       ci_action := getQueryAction query;
       ci_query := query;
       ci_affectedTable := js_or affectedTable (getAffectedTable query);
       ci_timestamp := now p;
       ci_origin := href p;
       ci_tabId := newTabId p |} in
  try_catch
    (((if dbChannel
      then (perform (ConsoleLog "Broadcasting update via channel:") ;;
            postMessage p changeInfo)
      else ret tt) ;;
     setItem p "db_change_notification"
       {| ci_type := ci_type changeInfo;
          ci_action := ci_action changeInfo;
          ci_query := ci_query changeInfo;
          ci_affectedTable := ci_affectedTable changeInfo;
          ci_timestamp := now_marker p;
          ci_origin := ci_origin changeInfo;
          ci_tabId := ci_tabId changeInfo |} ;;
     dispatchEvent p "database-changed" changeInfo)%exec)
    (fun error => perform (ConsoleError "Error broadcasting change:" error)).

(** The three deliveries, read off the effects of one call. *)
Definition posted (effs : list Effect) : bool :=
  existsb (fun f => match f with ChannelPost _ => true | _ => false end) effs.
Definition stored (effs : list Effect) : bool :=
  existsb (fun f => match f with StorageSet _ _ => true | _ => false end) effs.
Definition dispatched (effs : list Effect) : bool :=
  existsb (fun f => match f with WindowDispatch _ _ => true | _ => false end) effs.

(** ** Numbers

    [retries] is a JavaScript number, and a caller may pass any: a finite
    one, written here as the ratio of an integer and a positive integer
    (every finite double is such a ratio), an infinity, or NaN.  The loops
    compare it with [attempt], which counts up from 1. *)

Inductive Number : Type :=
  | Ratio (n : Z) (d : positive)
  | PosInfinity
  | NegInfinity
  | NaN.

Definition integer (n : Z) : Number := Ratio n 1.
Coercion integer : Z >-> Number.

Global Instance Number_eq_dec : EqDecision Number.
Proof. solve_decision. Defined.

(** [a <= x], for an integer [a]; false when [x] is NaN. *)
Definition le_num (a : Z) (x : Number) : bool :=
  match x with
  | Ratio n d => a * Z.pos d <=? n
  | PosInfinity => true
  | NegInfinity | NaN => false
  end.

(** [a < x], for an integer [a]; false when [x] is NaN. *)
Definition lt_num (a : Z) (x : Number) : bool :=
  match x with
  | Ratio n d => a * Z.pos d <? n
  | PosInfinity => true
  | NegInfinity | NaN => false
  end.

(** ** [executeQuery]: the two retry loops

    A call of [executeQuery] owns the variables [query], [params],
    [retries], [config] and [lastError]; the loop adds [attempt].  A loop is
    suspended either at [await db.query(query, params)] or at the backoff
    [await new Promise(resolve => setTimeout(resolve, ...))].  The [await
    dbPromise] before [db.query] is no suspension of its own here: the loop
    is only reached once [dbPromise] is fulfilled, so that this [await]
    resumes with the handle in the same turn of the event loop, before any
    timer fires and before the engine answers anything. *)

Record Config : Type := {
  skipQueue : option bool;
  retries : option Number;
  broadcastTable : option string
}.

Record Op : Type := {
  op_id : nat;
  op_query : string;
  op_params : list string;
  op_retries : Number;
  op_broadcastTable : option string
}.

Inductive Phase : Type :=
  | AwaitQuery
  | AwaitBackoff.

Record Loop : Type := {
  attempt : Z;
  phase : Phase;
  lastError : option Error
}.

(** What a call does that can be seen from outside it. *)
Inductive Action : Type :=
  | AQuery (attempt : Z)
  | AWarn (attempt : Z) (retries : Number) (e : Error)
  | ASleep (ms : Z)
  | ABroadcast (effs : list Effect)
  | AResolve (result : Results)
  | AReject (e : Error).

(** [100 * Math.pow(2, attempt - 1)] *)
Definition backoff (attempt : Z) : Z := 100 * 2 ^ (attempt - 1).

(** *** The queued path: the body of the closure pushed on the queue *)

(** The loop test [attempt <= retries]; when it fails the closure returns. *)
Definition thunk_head (op : Op) (attempt : Z) (lastError : option Error)
    : list Action * option Loop :=
  if le_num attempt (op_retries op)
  then ([AQuery attempt],
        Some {| attempt := attempt; phase := AwaitQuery; lastError := lastError |})
  else ([], None).

(** The [catch] block, then [attempt++] and the loop test. *)
Definition thunk_catch (op : Op) (l : Loop) (error : Error)
    : list Action * option Loop :=
  let warn := AWarn (attempt l) (op_retries op) error in
  if lt_num (attempt l) (op_retries op)
  then ([warn; ASleep (backoff (attempt l))],
        Some {| attempt := attempt l; phase := AwaitBackoff; lastError := Some error |})
  else let '(acts, l') := thunk_head op (attempt l + 1) (Some error) in
       (warn :: AReject error :: acts, l').

(** [db.query] has settled. *)
Definition thunk_query_done (p : Platform) (dbChannel : bool) (op : Op) (l : Loop)
    (res : Settled Results) : list Action * option Loop :=
  match res with
  | inl result =>
      if isModifyingQuery (op_query op) then
        match broadcastDatabaseChange p dbChannel (op_query op) (op_broadcastTable op) with
        | (effs, inl _) => ([ABroadcast effs; AResolve result], None)
        | (effs, inr error) =>
            let '(acts, l') := thunk_catch op l error in (ABroadcast effs :: acts, l')
        end
      else ([AResolve result], None)
  | inr error => thunk_catch op l error
  end.

(** The backoff timer has fired: [attempt++] and the loop test. *)
Definition thunk_backoff_done (op : Op) (l : Loop) : list Action * option Loop :=
  thunk_head op (attempt l + 1) (lastError l).

(** *** The fast path: the loop in the body of [executeQuery] itself *)

(** The loop test; when it fails,
    [throw lastError || new Error("Query failed after retries")]. *)
Definition fast_head (op : Op) (attempt : Z) (lastError : option Error)
    : list Action * option Loop :=
  if le_num attempt (op_retries op)
  then ([AQuery attempt],
        Some {| attempt := attempt; phase := AwaitQuery; lastError := lastError |})
  else ([AReject (match lastError with
                  | Some e => e
                  | None => "Query failed after retries"%string
                  end)], None).

Definition fast_query_done (op : Op) (l : Loop) (res : Settled Results)
    : list Action * option Loop :=
  match res with
  | inl result => ([AResolve result], None)
  | inr error =>
      let warn := AWarn (attempt l) (op_retries op) error in
      if lt_num (attempt l) (op_retries op)
      then ([warn; ASleep (backoff (attempt l))],
            Some {| attempt := attempt l; phase := AwaitBackoff; lastError := Some error |})
      else let '(acts, l') := fast_head op (attempt l + 1) (Some error) in
           (warn :: acts, l')
  end.

Definition fast_backoff_done (op : Op) (l : Loop) : list Action * option Loop :=
  fast_head op (attempt l + 1) (lastError l).

(** *** One call on its own

    The engine is given as the way the query of each attempt settles.  A
    loop waits for one thing at a time, so a call on its own is driven by
    handing it that thing; [fuel] bounds the number of resumptions. *)

Inductive Path : Type := Queued | Fast.

Definition head_of (path : Path) :=
  match path with Queued => thunk_head | Fast => fast_head end.

Definition resume (path : Path) (p : Platform) (dbChannel : bool)
    (db : Z -> Settled Results) (op : Op) (l : Loop) : list Action * option Loop :=
  match phase l, path with
  | AwaitQuery, Queued => thunk_query_done p dbChannel op l (db (attempt l))
  | AwaitQuery, Fast => fast_query_done op l (db (attempt l))
  | AwaitBackoff, Queued => thunk_backoff_done op l
  | AwaitBackoff, Fast => fast_backoff_done op l
  end.

Fixpoint drive (fuel : nat) (path : Path) (p : Platform) (dbChannel : bool)
    (db : Z -> Settled Results) (op : Op) (st : list Action * option Loop)
    : option (list Action) :=
  match st with
  | (acts, None) => Some acts
  | (acts, Some l) =>
      match fuel with
      | O => None
      | S fuel' =>
          let '(acts', l') := resume path p dbChannel db op l in
          drive fuel' path p dbChannel db op (acts ++ acts', l')
      end
  end.

(** Everything the call [op] does on [path], from its first loop test until
    its loop is left. *)
Definition run_call (fuel : nat) (path : Path) (p : Platform) (dbChannel : bool)
    (db : Z -> Settled Results) (op : Op) : option (list Action) :=
  drive fuel path p dbChannel db op (head_of path op 1 None).

(** ** The event loop: [executeQuery] and [processPendingTransactions]

    [Task]s are the suspended coroutines.  [Processing op l] is an
    activation of [processPendingTransactions] suspended at [await
    transaction()], where [transaction] is the closure that [executeQuery]
    pushed for the call [op]: [l] is where the closure's loop is suspended,
    [None] once the closure has returned and the continuation of
    [processPendingTransactions] has not run yet.  [Direct op l] is a call
    of [executeQuery] on its fast path. *)

Global Instance Op_eq_dec : EqDecision Op.
Proof. solve_decision. Defined.

Inductive Task : Type :=
  | Processing (op : Op) (l : option Loop)
  | Direct (op : Op) (l : Loop).

(** The log of a run, oldest entry first. *)
Inductive Event : Type :=
  | Pushed (op : Op)                     (* pendingTransactions.push(...) *)
  | Started (op : Op)                    (* pendingTransactions.shift(), transaction() *)
  | Did (path : Path) (op : Op) (a : Action)
      (* the call [op] did [a]: in its closure on the queue ([Queued]), or in
         the body of executeQuery itself ([Fast]) *)
  | Finished (op : Op)                   (* the finally block *)
  | Bypassed (op : Op)                   (* the call took the fast path *)
  | InitFailed (op : Op) (e : Error).    (* the call found no database *)

Record State : Type := {
  dbChannel : bool;
  isTransactionInProgress : bool;
  pendingTransactions : list Op;
  tasks : gmap nat Task;
  timers : nat;     (* setTimeout(processPendingTransactions, 0) not yet fired *)
  next_id : nat;    (* the number of calls of executeQuery so far *)
  trace : list Event
}.

Definition initial (channel : bool) : State :=
  {| dbChannel := channel;
     isTransactionInProgress := false;
     pendingTransactions := [];
     tasks := ∅;
     timers := 0;
     next_id := 0;
     trace := [] |}.

Definition did (path : Path) (op : Op) (acts : list Action) : list Event :=
  map (Did path op) acts.

Definition processPendingTransactions (s : State) : State :=
  match pendingTransactions s with
  | [] => s
  | transaction :: rest =>
      if isTransactionInProgress s then s
      else
        let '(acts, l) := thunk_head transaction 1 None in
        {| dbChannel := dbChannel s;
           isTransactionInProgress := true;
           pendingTransactions := rest;
           tasks := <[op_id transaction := Processing transaction l]> (tasks s);
           timers := timers s;
           next_id := next_id s;
           trace := trace s ++ Started transaction :: did Queued transaction acts |}
  end.

(** What can happen next. *)
Inductive Input : Type :=
  | ICall (query : string) (params : list string) (config : option Config)
          (init : option Error)
      (* a call of executeQuery gets past its initialisation check: at once
         when the database is initialised, when [dbPromise] settles
         otherwise; [init] is [Some e] when [dbPromise] rejects with [e] *)
  | ITimer
      (* a setTimeout(processPendingTransactions, 0) callback runs *)
  | IQuery (id : nat) (res : Settled Results) (p : Platform)
      (* the query that call [id] awaits settles *)
  | IBackoff (id : nat)
      (* the backoff timer of call [id] fires *)
  | IReturned (id : nat)
      (* the closure of call [id] has returned: processPendingTransactions
         resumes after [await transaction()] *)
  | ICleanup.
      (* cleanupDatabase resets the module state *)

(** [config?.skipQueue && !isModifyingQuery(query)] *)
Definition takes_fast_path (query : string) (config : option Config) : bool :=
  match config with
  | Some c =>
      match skipQueue c with
      | Some true => negb (isModifyingQuery query)
      | _ => false
      end
  | None => false
  end.

(** [config?.retries ?? 3] *)
Definition retries_of (config : option Config) : Number :=
  match config with
  | Some c => match retries c with Some r => r | None => 3 end
  | None => 3
  end.

(** [config?.broadcastTable] *)
Definition broadcastTable_of (config : option Config) : option string :=
  match config with
  | Some c => broadcastTable c
  | None => None
  end.

(** Store the coroutine of call [id], or drop it when it has come to its
    end, and log what it did. *)
Definition set_task (s : State) (id : nat) (t : option Task) (evs : list Event) : State :=
  {| dbChannel := dbChannel s;
     isTransactionInProgress := isTransactionInProgress s;
     pendingTransactions := pendingTransactions s;
     tasks := match t with Some t => <[id := t]> (tasks s) | None => delete id (tasks s) end;
     timers := timers s;
     next_id := next_id s;
     trace := trace s ++ evs |}.

(** The call of [executeQuery] with number [next_id s]. *)
Definition new_op (s : State) (query : string) (params : list string)
    (config : option Config) : Op :=
  {| op_id := next_id s; op_query := query; op_params := params;
     op_retries := retries_of config;
     op_broadcastTable := broadcastTable_of config |}.

Definition executeQuery (s : State) (query : string) (params : list string)
    (config : option Config) (init : option Error) : State :=
  let op := new_op s query params config in
  let s := {| dbChannel := dbChannel s;
              isTransactionInProgress := isTransactionInProgress s;
              pendingTransactions := pendingTransactions s;
              tasks := tasks s;
              timers := timers s;
              next_id := S (next_id s);
              trace := trace s |} in
  match init with
  | Some e =>
      set_task s (op_id op) None
        [InitFailed op e;
         Did Fast op (AReject ("Failed to initialize database: " ++ e)%string)]
  | None =>
      if takes_fast_path query config then
        let '(acts, l) := fast_head op 1 None in
        set_task s (op_id op) (Direct op <$> l) (Bypassed op :: did Fast op acts)
      else
        processPendingTransactions
          {| dbChannel := dbChannel s;
             isTransactionInProgress := isTransactionInProgress s;
             pendingTransactions := pendingTransactions s ++ [op];
             tasks := tasks s;
             timers := timers s;
             next_id := next_id s;
             trace := trace s ++ [Pushed op] |}
  end.

(** The finally block of [processPendingTransactions]. *)
Definition finish (s : State) (id : nat) (op : Op) : State :=
  {| dbChannel := dbChannel s;
     isTransactionInProgress := false;
     pendingTransactions := pendingTransactions s;
     tasks := delete id (tasks s);
     timers := S (timers s);
     next_id := next_id s;
     trace := trace s ++ [Finished op] |}.

(** The assignments of [cleanupDatabase] to the state kept here. *)
Definition cleanupDatabase (s : State) : State :=
  {| dbChannel := false;
     isTransactionInProgress := isTransactionInProgress s;
     pendingTransactions := [];
     tasks := tasks s;
     timers := timers s;
     next_id := next_id s;
     trace := trace s |}.

(** One turn; [None] when the input cannot happen in [s]. *)
Definition step (s : State) (i : Input) : option State :=
  match i with
  | ICall query params config init => Some (executeQuery s query params config init)
  | ITimer =>
      match timers s with
      | O => None
      | S n =>
          Some (processPendingTransactions
                  {| dbChannel := dbChannel s;
                     isTransactionInProgress := isTransactionInProgress s;
                     pendingTransactions := pendingTransactions s;
                     tasks := tasks s;
                     timers := n;
                     next_id := next_id s;
                     trace := trace s |})
      end
  | IQuery id res p =>
      match tasks s !! id with
      | Some (Processing op (Some l)) =>
          match phase l with
          | AwaitQuery =>
              let '(acts, l') := thunk_query_done p (dbChannel s) op l res in
              Some (set_task s id (Some (Processing op l')) (did Queued op acts))
          | AwaitBackoff => None
          end
      | Some (Direct op l) =>
          match phase l with
          | AwaitQuery =>
              let '(acts, l') := fast_query_done op l res in
              Some (set_task s id (Direct op <$> l') (did Fast op acts))
          | AwaitBackoff => None
          end
      | _ => None
      end
  | IBackoff id =>
      match tasks s !! id with
      | Some (Processing op (Some l)) =>
          match phase l with
          | AwaitBackoff =>
              let '(acts, l') := thunk_backoff_done op l in
              Some (set_task s id (Some (Processing op l')) (did Queued op acts))
          | AwaitQuery => None
          end
      | Some (Direct op l) =>
          match phase l with
          | AwaitBackoff =>
              let '(acts, l') := fast_backoff_done op l in
              Some (set_task s id (Direct op <$> l') (did Fast op acts))
          | AwaitQuery => None
          end
      | _ => None
      end
  | IReturned id =>
      match tasks s !! id with
      | Some (Processing op None) => Some (finish s id op)
      | _ => None
      end
  | ICleanup => Some (cleanupDatabase s)
  end.

Fixpoint run (s : State) (inputs : list Input) : option State :=
  match inputs with
  | [] => Some s
  | i :: inputs' =>
      match step s i with
      | Some s' => run s' inputs'
      | None => None
      end
  end.

(** *** Reading a trace *)

Definition pushed (tr : list Event) : list Op :=
  omap (fun e => match e with Pushed op => Some op | _ => None end) tr.

Definition started (tr : list Event) : list Op :=
  omap (fun e => match e with Started op => Some op | _ => None end) tr.

Definition finished (tr : list Event) : list Op :=
  omap (fun e => match e with Finished op => Some op | _ => None end) tr.

(** The actions of the call [op], in order. *)
Definition actions_of (op : Op) (tr : list Event) : list Action :=
  omap (fun e => match e with
                 | Did _ op' a => if decide (op' = op) then Some a else None
                 | _ => None
                 end) tr.

Definition is_settling (a : Action) : bool :=
  match a with
  | AResolve _ | AReject _ => true
  | _ => false
  end.

(** The promise that [executeQuery] returned to the caller of [op] is
    settled. *)
Definition settled (op : Op) (tr : list Event) : bool :=
  existsb is_settling (actions_of op tr).

(** *** Serial traces

    [serial] reads a trace and keeps the operation of the queue that is
    open, with whether its promise is settled.  It accepts the trace when
    an operation is started only while none is open, when an operation of
    the queue acts only while it is the open one and settles at most once,
    and when the operation that finishes is the open one and, if its
    [retries] is a count of attempts, has settled. *)

(** [x] is a count of attempts: an integer, at least 1, or Infinity. *)
Definition is_count (x : Number) : bool :=
  match x with
  | Ratio n d => (Z.pos d <=? n) && (n mod Z.pos d =? 0)
  | PosInfinity => true
  | NegInfinity | NaN => false
  end.

Definition scan (o : option (Op * bool)) (e : Event) : option (option (Op * bool)) :=
  match e with
  | Started op =>
      match o with
      | None => Some (Some (op, false))
      | Some _ => None
      end
  | Did Queued op a =>
      match o with
      | Some (op', b) =>
          if decide (op' = op) then
            if b && is_settling a then None else Some (Some (op, b || is_settling a))
          else None
      | None => None
      end
  | Finished op =>
      match o with
      | Some (op', b) =>
          if decide (op' = op) then
            if is_count (op_retries op) && negb b then None else Some None
          else None
      | None => None
      end
  | _ => Some o
  end.

Fixpoint serial (o : option (Op * bool)) (tr : list Event) : option (option (Op * bool)) :=
  match tr with
  | [] => Some o
  | e :: tr' =>
      match scan o e with
      | Some o' => serial o' tr'
      | None => None
      end
  end.

(** ** [initializePatientTable]

    The function awaits three calls of [executeQuery]; [exec] tells how the
    promise of each settles, [None] for a promise that never does. *)

Inductive Completion (A : Type) : Type :=
  | Returns (a : A)
  | Raises (e : Error)
  | Suspended.
Arguments Returns {A} a.
Arguments Raises {A} e.
Arguments Suspended {A}.

Definition Async (A : Type) : Type := (list Effect * Completion A)%type.

Definition aret {A} (a : A) : Async A := ([], Returns a).
Definition aperform (f : Effect) : Async unit := ([f], Returns tt).
Definition await {A} (p : option (Settled A)) : Async A :=
  match p with
  | Some (inl a) => ([], Returns a)
  | Some (inr e) => ([], Raises e)
  | None => ([], Suspended)
  end.

Definition abind {A B} (m : Async A) (k : A -> Async B) : Async B :=
  match m with
  | (effs, Returns a) => let '(effs', r) := k a in (effs ++ effs', r)
  | (effs, Raises e) => (effs, Raises e)
  | (effs, Suspended) => (effs, Suspended)
  end.

Definition atry {A} (body : Async A) (handler : Error -> Async A) : Async A :=
  match body with
  | (effs, Raises e) => let '(effs', r) := handler e in (effs ++ effs', r)
  | other => other
  end.

Declare Scope async_scope.
Delimit Scope async_scope with async.
Notation "x <- m ;; k" := (abind m (fun x => k))
  (at level 100, m at next level, k at level 200, right associativity, only parsing)
  : async_scope.
Notation "m ;; k" := (abind m (fun _ => k))
  (at level 100, k at level 200, right associativity, only parsing) : async_scope.

(** The three statements, as the template literals of the source have
    them: each begins and ends with a line break and its indentation. *)
Definition create_table_sql : string :=
  "
      CREATE TABLE IF NOT EXISTS patients (
        id SERIAL PRIMARY KEY,
        full_name TEXT NOT NULL,
        age INTEGER NOT NULL,
        gender TEXT NOT NULL,
        contact_info TEXT,
        address TEXT,
        email TEXT,
        blood_type TEXT,
        allergies TEXT,
        medical_history TEXT,
        insurance_provider TEXT,
        insurance_id TEXT,
        emergency_contact TEXT,
        created_at TIMESTAMP DEFAULT CURRENT_TIMESTAMP
      )
    ".

Definition table_check_sql : string :=
  "
      SELECT column_name FROM information_schema.columns 
      WHERE table_name = 'patients'
    ".

Definition create_index_sql : string :=
  "
      CREATE INDEX IF NOT EXISTS idx_patients_created_at ON patients(created_at DESC)
    ".

Definition initializePatientTable (exec : string -> option (Settled Results))
    : Async bool :=
  atry
    (aperform (ConsoleLog "Creating patients table if not exists...") ;;
     await (exec create_table_sql) ;;
     tableCheck <- await (exec table_check_sql) ;;
     aperform (ConsoleLogCount "Patients table verified with columns:"
                 (length tableCheck)) ;;
     await (exec create_index_sql) ;;
     aret true)%async
    (fun error =>
       (aperform (ConsoleError "Error initializing patients table:" error) ;;
        aret false)%async).

(** ** [initializeDatabase] and [dbPromise] *)

Module Session.

Record DatabaseConfig : Type := {
  wasmPath : string;
  fsBundlePath : string;
  maxQueueSize : Z;
  databaseName : string;
  channelName : string
}.

Definition DEFAULT_CONFIG : DatabaseConfig :=
  {| wasmPath := "/pglite.wasm";
     fsBundlePath := "/pglite.data";
     maxQueueSize := 100;
     databaseName := "idb://patient_db";
     channelName := "patient_data_channel" |}.

(** [Partial<DatabaseConfig>] *)
Record PartialConfig : Type := {
  p_wasmPath : option string;
  p_fsBundlePath : option string;
  p_maxQueueSize : option Z;
  p_databaseName : option string;
  p_channelName : option string
}.

Definition no_config : PartialConfig :=
  {| p_wasmPath := None; p_fsBundlePath := None; p_maxQueueSize := None;
     p_databaseName := None; p_channelName := None |}.

(** [{ ...DEFAULT_CONFIG, ...config }] *)
Definition merge (config : PartialConfig) : DatabaseConfig :=
  {| wasmPath := default (wasmPath DEFAULT_CONFIG) (p_wasmPath config);
     fsBundlePath := default (fsBundlePath DEFAULT_CONFIG) (p_fsBundlePath config);
     maxQueueSize := default (maxQueueSize DEFAULT_CONFIG) (p_maxQueueSize config);
     databaseName := default (databaseName DEFAULT_CONFIG) (p_databaseName config);
     channelName := default (channelName DEFAULT_CONFIG) (p_channelName config) |}.

(** A connection handle is the number of the [PGlite.create] call that
    made it. *)
Definition Handle : Type := nat.

(** Where a call of [initializeDatabase] is suspended. *)
Inductive Phase : Type :=
  | AwaitFetch      (* await Promise.all([fetch(wasmPath), fetch(fsBundlePath)]) *)
  | AwaitCompile    (* await Promise.all([compileStreaming(...), blob()]) *)
  | AwaitCreate     (* await PGlite.create(...) *)
  | AwaitVerify     (* await dbInstance.query("SELECT 1") *)
  | AwaitClose (error : Error).
                    (* in the catch block, inside cleanupDatabase:
                       await dbInstance.close() *)

Inductive Event : Type :=
  | Fetch (call : nat) (path : string)
  | Create (call : nat) (h : Handle)
  | Return (call : nat) (h : option Handle)
  | Throw (call : nat) (e : Error).

Record State : Type := {
  isInitialized : bool;
  dbInstance : option Handle;
  dbChannel : bool;
  calls : gmap nat (DatabaseConfig * Phase);   (* the suspended calls *)
  next_call : nat;
  next_handle : nat;
  log : list Event
}.

(** The module has just been loaded; nothing has run. *)
Definition fresh : State :=
  {| isInitialized := false; dbInstance := None; dbChannel := false;
     calls := ∅; next_call := 0; next_handle := 0; log := [] |}.

Definition suspend (s : State) (call : nat) (t : option (DatabaseConfig * Phase))
    (evs : list Event) : State :=
  {| isInitialized := isInitialized s;
     dbInstance := dbInstance s;
     dbChannel := dbChannel s;
     calls := match t with Some t => <[call := t]> (calls s) | None => delete call (calls s) end;
     next_call := next_call s;
     next_handle := next_handle s;
     log := log s ++ evs |}.

(** The catch block: [await cleanupDatabase(); throw error].  With a
    connection at hand [cleanupDatabase] first awaits its [close]; without
    one it runs to its end at once. *)
Definition fail (s : State) (call : nat) (cfg : DatabaseConfig) (error : Error) : State :=
  match dbInstance s with
  | Some _ => suspend s call (Some (cfg, AwaitClose error)) []
  | None =>
      {| isInitialized := false;
         dbInstance := None;
         dbChannel := false;
         calls := delete call (calls s);
         next_call := next_call s;
         next_handle := next_handle s;
         log := log s ++ [Throw call error] |}
  end.

(** A call of [initializeDatabase(config)], up to its first [await]. *)
Definition initializeDatabase (s : State) (config : PartialConfig)
    (getItem_throws : option Error) : State :=
  let call := next_call s in
  let s := {| isInitialized := isInitialized s; dbInstance := dbInstance s;
              dbChannel := dbChannel s; calls := calls s;
              next_call := S call; next_handle := next_handle s; log := log s |} in
  match isInitialized s, dbInstance s with
  | true, Some h => suspend s call None [Return call (Some h)]
  | _, _ =>
      let fullConfig := merge config in
      match getItem_throws with
      | Some error => fail s call fullConfig error
      | None =>
          suspend s call (Some (fullConfig, AwaitFetch))
            [Fetch call (wasmPath fullConfig); Fetch call (fsBundlePath fullConfig)]
      end
  end.

(** What can happen next.  The messages of the two fetch errors stand for
    the template strings of the source, which add the response status. *)
Inductive Input : Type :=
  | ICall (config : PartialConfig) (getItem_throws : option Error)
  | IFetched (call : nat) (res : Settled (bool * bool))
      (* both fetches settled; the booleans are the [ok] of the responses *)
  | ICompiled (call : nat) (res : Settled unit)
  | ICreated (call : nat) (res : Settled unit)
  | IVerified (call : nat) (res : Settled unit) (setItem_throws : option Error)
              (channel_opens : bool)
  | IClosed (call : nat)
  | ICleanup.
      (* cleanupDatabase, called by the health check, has run *)

Definition step (s : State) (i : Input) : option State :=
  match i with
  | ICall config getItem_throws => Some (initializeDatabase s config getItem_throws)
  | IFetched call res =>
      match calls s !! call with
      | Some (cfg, AwaitFetch) =>
          match res with
          | inl (true, true) => Some (suspend s call (Some (cfg, AwaitCompile)) [])
          | inl (false, _) => Some (fail s call cfg "Failed to fetch WASM"%string)
          | inl (true, false) => Some (fail s call cfg "Failed to fetch FS bundle"%string)
          | inr e => Some (fail s call cfg e)
          end
      | _ => None
      end
  | ICompiled call res =>
      match calls s !! call with
      | Some (cfg, AwaitCompile) =>
          match res with
          | inl _ => Some (suspend s call (Some (cfg, AwaitCreate)) [])
          | inr e => Some (fail s call cfg e)
          end
      | _ => None
      end
  | ICreated call res =>
      match calls s !! call with
      | Some (cfg, AwaitCreate) =>
          match res with
          | inl _ =>
              let h := next_handle s in
              Some {| isInitialized := isInitialized s;
                      dbInstance := Some h;
                      dbChannel := dbChannel s;
                      calls := <[call := (cfg, AwaitVerify)]> (calls s);
                      next_call := next_call s;
                      next_handle := S h;
                      log := log s ++ [Create call h] |}
          | inr e => Some (fail s call cfg e)
          end
      | _ => None
      end
  | IVerified call res setItem_throws channel_opens =>
      match calls s !! call with
      | Some (cfg, AwaitVerify) =>
          match res, setItem_throws with
          | inl _, None =>
              Some {| isInitialized := true;
                      dbInstance := dbInstance s;
                      dbChannel := if channel_opens then true else dbChannel s;
                      calls := delete call (calls s);
                      next_call := next_call s;
                      next_handle := next_handle s;
                      log := log s ++ [Return call (dbInstance s)] |}
          | inl _, Some e => Some (fail s call cfg e)
          | inr e, _ => Some (fail s call cfg e)
          end
      | _ => None
      end
  | IClosed call =>
      match calls s !! call with
      | Some (cfg, AwaitClose error) =>
          Some {| isInitialized := false;
                  dbInstance := None;
                  dbChannel := false;
                  calls := delete call (calls s);
                  next_call := next_call s;
                  next_handle := next_handle s;
                  log := log s ++ [Throw call error] |}
      | _ => None
      end
  | ICleanup =>
      Some {| isInitialized := false;
              dbInstance := None;
              dbChannel := false;
              calls := calls s;
              next_call := next_call s;
              next_handle := next_handle s;
              log := log s |}
  end.

Fixpoint run (s : State) (inputs : list Input) : option State :=
  match inputs with
  | [] => Some s
  | i :: inputs' =>
      match step s i with
      | Some s' => run s' inputs'
      | None => None
      end
  end.

(** The paths fetched so far, in order. *)
Definition fetched (evs : list Event) : list string :=
  omap (fun e => match e with Fetch _ path => Some path | _ => None end) evs.

(** How the promise of call [call] has settled, if it has. *)
Fixpoint outcome (call : nat) (evs : list Event) : option (Settled (option Handle)) :=
  match evs with
  | [] => None
  | Return c h :: evs' => if decide (c = call) then Some (inl h) else outcome call evs'
  | Throw c e :: evs' => if decide (c = call) then Some (inr e) else outcome call evs'
  | _ :: evs' => outcome call evs'
  end.

(** [export const dbPromise = initializeDatabase()]: the promise of the
    call made when the module is loaded, which is call 0. *)
Definition dbPromise (s : State) : option (Settled (option Handle)) :=
  outcome 0 (log s).

End Session.

(** ** [checkConnection] and [cleanupDatabase], in full

    [cleanupDatabase] is a coroutine with one [await], at
    [dbInstance.close()]; what it resets after the [await] it resets in the
    module as it is then.  [Resources] holds the module variables it
    touches, and what it has registered with the browser. *)

Record Resources : Type := {
  r_dbInstance : option Session.Handle;
  r_dbChannel : bool;
  r_isInitialized : bool;
  r_pendingTransactions : list Op;
  r_healthCheck : bool;      (* the interval held in connectionCheckInterval runs *)
  r_storageHandler : bool    (* handleStorageEvent listens to 'storage' on window *)
}.

(** From [if (dbChannel)] to the end; [channel_close_throws] tells
    whether [dbChannel.close()] throws. *)
Definition cleanup_tail (r : Resources) (channel_close_throws : option Error)
    : Exec Resources :=
  ((if r_dbChannel r
    then try_catch
           (match channel_close_throws with Some err => throw err | None => ret tt end)
           (fun err => perform (ConsoleError "Error closing broadcast channel:" err))
    else ret tt) ;;
   perform (ConsoleLog "Database resources cleaned up") ;;
   ret {| r_dbInstance := r_dbInstance r;
          r_dbChannel := false;
          r_isInitialized := false;
          r_pendingTransactions := [];
          r_healthCheck := r_healthCheck r;
          r_storageHandler := r_storageHandler r |})%exec.

(** The call: [inl] the module as it is left at [await dbInstance.close()],
    [inr] the run to the end when there is no connection to close. *)
Definition cleanupDatabase_call (r : Resources) (channel_close_throws : option Error)
    : Resources + Exec Resources :=
  let r := {| r_dbInstance := r_dbInstance r;
              r_dbChannel := r_dbChannel r;
              r_isInitialized := r_isInitialized r;
              r_pendingTransactions := r_pendingTransactions r;
              r_healthCheck := false;
              r_storageHandler := false |} in
  match r_dbInstance r with
  | Some _ => inl r
  | None => inr (cleanup_tail r channel_close_throws)
  end.

(** The resumption, when [close()] has settled as [closed]; [r] is the
    module as it is then. *)
Definition cleanupDatabase_resume (r : Resources) (closed : Settled unit)
    (channel_close_throws : option Error) : Exec Resources :=
  (try_catch
     (match closed with inl _ => ret tt | inr err => throw err end)
     (fun err => perform (ConsoleError "Error closing database:" err)) ;;
   cleanup_tail {| r_dbInstance := None;
                   r_dbChannel := r_dbChannel r;
                   r_isInitialized := r_isInitialized r;
                   r_pendingTransactions := r_pendingTransactions r;
                   r_healthCheck := r_healthCheck r;
                   r_storageHandler := r_storageHandler r |}
                channel_close_throws)%exec.

(** [probe] tells how [dbInstance.query("SELECT 1")] settles. *)
Definition checkConnection (dbInstance : option Session.Handle)
    (probe : option (Settled Results)) : Async bool :=
  match dbInstance with
  | None => aret false
  | Some _ =>
      atry (await probe ;; aret true)%async (fun _ => aret false)
  end.

(** The callback of the health check that [initializeDatabase(config)]
    sets up, once its probe has settled: the calls it makes.  Nothing when
    the connection answers, else [cleanupDatabase()] and
    [initializeDatabase(config)]. *)
Definition health_check_inputs (dbInstance : option Session.Handle)
    (probe : option (Settled Results)) (config : Session.PartialConfig)
    : list Session.Input :=
  match snd (checkConnection dbInstance probe) with
  | Returns false => [Session.ICleanup; Session.ICall config None]
  | _ => []
  end.

(** ** The receiving side: [onDatabaseUpdate] and [handleStorageEvent] *)

(** What a listener is handed as [event.data], as [event.detail] or as the
    parsed [event.newValue]: one of the objects this module makes, or a
    value without properties. *)
Inductive Data : Type :=
  | Null                                   (* null or undefined *)
  | Scalar (truthy : bool)                 (* a number, a string or a boolean *)
  | Notice (info : ChangeInfo)             (* the changeInfo of broadcastDatabaseChange *)
  | Ping (timestamp : Z) (tabId : string)  (* { type: "tab_online", timestamp, tabId } *)
  | Refresh (timestamp : Z).
      (* { type: "data_updated", action: "refresh", query: '', timestamp } *)

(** [data.type] *)
Definition data_type (d : Data) : option string :=
  match d with
  | Notice info => Some (ci_type info)
  | Ping _ _ => Some "tab_online"%string
  | Refresh _ => Some "data_updated"%string
  | Null | Scalar _ => None
  end.

Definition truthy (d : Data) : bool :=
  match d with
  | Null => false
  | Scalar b => b
  | _ => true
  end.

(** [event.newValue] of a storage event: null or the empty string, or a
    string that [JSON.parse] reads as [d], or one it throws [e] on. *)
Inductive NewValue : Type :=
  | Absent
  | Parses (d : Data)
  | Unparsable (e : Error).

(** What a listener does. *)
Inductive Reaction : Type :=
  | Logged (msg : string)
  | LoggedData (msg : string) (d : Data)
  | LoggedError (msg : string) (e : Error)
  | Called (d : Data)          (* callback(d) *)
  | Fired (name : string).     (* window.dispatchEvent(new CustomEvent(name)) *)

(** The subscriber's callback is known by whether it throws. *)
Definition Callback : Type := Data -> option Error.

(** A listener's reactions, and the error it throws, if it does. *)
Definition Heard : Type := (list Reaction * option Error)%type.

Definition channelListener (callback : Callback) (data : Data) : Heard :=
  if truthy data &&
     (bool_decide (data_type data = Some "data_updated"%string) ||
      bool_decide (data_type data = Some "tab_online"%string))
  then ([LoggedData "Received broadcast channel message:" data; Called data],
        callback data)
  else ([], None).

Definition storageListener (callback : Callback) (key : option string)
    (newValue : NewValue) : Heard :=
  if bool_decide (key = Some "db_change_notification"%string) then
    match newValue with
    | Absent => ([], None)
    | Parses data =>
        ([LoggedData "Received localStorage change notification:" data; Called data] ++
         match callback data with
         | Some error => [LoggedError "Error parsing storage event data:" error]
         | None => []
         end, None)
    | Unparsable error => ([LoggedError "Error parsing storage event data:" error], None)
    end
  else ([], None).

Definition customEventListener (callback : Callback) (detail : Data) : Heard :=
  if truthy detail
  then ([LoggedData "Received custom event:" detail; Called detail], callback detail)
  else ([], None).

(** [now] is [Date.now()]. *)
Definition refreshListener (callback : Callback) (now : Z) : Heard :=
  ([Logged "Forced data refresh requested"; Called (Refresh now)],
   callback (Refresh now)).

Definition handleStorageEvent (key : option string) : list Reaction :=
  if bool_decide (key = Some "db_change_notification"%string)
  then [Logged "Received database change via localStorage"; Fired "force-data-refresh"]
  else [].

(** *** The listeners the browser holds *)

(** The closures of the subscription numbered [sub], and the one function
    of the module. *)
Inductive Listener : Type :=
  | ChannelListener (sub : nat)
  | StorageListener (sub : nat)
  | CustomEventListener (sub : nat)
  | RefreshListener (sub : nat)
  | HandleStorageEvent.

(** [window], or the BroadcastChannel object numbered [c]. *)
Inductive Target : Type :=
  | Window
  | Channel (c : nat).

Global Instance Listener_eq_dec : EqDecision Listener.
Proof. solve_decision. Defined.
Global Instance Target_eq_dec : EqDecision Target.
Proof. solve_decision. Defined.

Definition Registration : Type := (Target * string * Listener)%type.

(** [target.addEventListener(type, listener)]: a listener that is
    registered already is not registered again. *)
Definition addEventListener (regs : list Registration) (r : Registration)
    : list Registration :=
  if decide (r ∈ regs) then regs else regs ++ [r].

Definition removeEventListener (regs : list Registration) (r : Registration)
    : list Registration :=
  filter (fun r' => r' <> r) regs.

(** The functions pushed on [listeners]. *)
Inductive Cleanup : Type :=
  | RemoveFromChannel (l : Listener)
      (* () => dbChannel?.removeEventListener("message", l) *)
  | RemoveFromWindow (type : string) (l : Listener).
      (* () => window.removeEventListener(type, l) *)

Record Subscriptions : Type := {
  regs : list Registration;
  next_sub : nat      (* the number of calls of onDatabaseUpdate so far *)
}.

(** [dbChannel] is the module variable as the call finds it: the number of
    the open channel, or [None] for null.  The result is the browser's
    list of listeners and the cleanup function returned. *)
Definition onDatabaseUpdate (dbChannel : option nat) (w : Subscriptions)
    : Subscriptions * list Cleanup :=
  let sub := next_sub w in
  let '(regs1, listeners1) :=
    match dbChannel with
    | Some c =>
        (addEventListener (regs w) (Channel c, "message"%string, ChannelListener sub),
         [RemoveFromChannel (ChannelListener sub)])
    | None => (regs w, [])
    end in
  let regs2 := addEventListener regs1 (Window, "storage"%string, StorageListener sub) in
  let regs3 :=
    addEventListener regs2 (Window, "database-changed"%string, CustomEventListener sub) in
  let regs4 :=
    addEventListener regs3 (Window, "force-data-refresh"%string, RefreshListener sub) in
  ({| regs := regs4; next_sub := S sub |},
   listeners1 ++
   [RemoveFromWindow "storage" (StorageListener sub);
    RemoveFromWindow "database-changed" (CustomEventListener sub);
    RemoveFromWindow "force-data-refresh" (RefreshListener sub)]).

(** One of the cleanups; [dbChannel] is the module variable as the cleanup
    finds it. *)
Definition run_cleanup (dbChannel : option nat) (regs : list Registration)
    (c : Cleanup) : list Registration :=
  match c with
  | RemoveFromChannel l =>
      match dbChannel with
      | Some ch => removeEventListener regs (Channel ch, "message"%string, l)
      | None => regs
      end
  | RemoveFromWindow type l => removeEventListener regs (Window, type, l)
  end.

(** The function [onDatabaseUpdate] returns:
    [listeners.forEach(cleanup => cleanup())]. *)
Definition unsubscribe (dbChannel : option nat) (listeners : list Cleanup)
    (regs : list Registration) : list Registration :=
  fold_left (run_cleanup dbChannel) listeners regs.

(** ** The application shell

    [initialize] of [App]: the state it sets, the counter [initAttempts]
    and the retries it schedules with [setTimeout(initialize, 1000)]. *)

Module App.

Record AppState : Type := {
  refreshTrigger : nat;
  isDbInitialized : bool;
  initAttempts : nat;
  retryTimers : nat
}.

Definition maxInitAttempts : nat := 3.

Definition initialize (exec : string -> option (Settled Results)) (a : AppState)
    : list Effect * (AppState * Completion unit) :=
  let '(effs, r) :=
    (aperform (ConsoleLog "Starting database initialization...") ;;
     aperform (ConsoleLog "Database instance ready") ;;
     initializePatientTable exec)%async in
  match r with
  | Returns _ =>
      (effs ++ [ConsoleLog "Patient table initialized";
                ConsoleLog "Database fully initialized and ready"],
       ({| refreshTrigger := S (refreshTrigger a);
           isDbInitialized := true;
           initAttempts := initAttempts a;
           retryTimers := retryTimers a |}, Returns tt))
  | Raises error =>
      let attempts := S (initAttempts a) in
      if (attempts <? maxInitAttempts)%nat
      then (effs ++ [ConsoleError "Initialization failed:" error;
                     ConsoleLogCount "Retrying initialization (attempt" (S attempts)],
            ({| refreshTrigger := refreshTrigger a;
                isDbInitialized := isDbInitialized a;
                initAttempts := attempts;
                retryTimers := S (retryTimers a) |}, Returns tt))
      else (effs ++ [ConsoleError "Initialization failed:" error],
            ({| refreshTrigger := refreshTrigger a;
                isDbInitialized := false;
                initAttempts := attempts;
                retryTimers := retryTimers a |}, Returns tt))
  | Suspended => (effs, (a, Suspended))
  end.

End App.

(** ** The registration form: [validateForm] and [handleSubmit] *)

Module Form.

(** The value of a character as a digit: 0 to 9, then the letters, in
    either case, from 10 on. *)
Definition digit_value (c : ascii) : option Z :=
  let n := code c in
  if (48 <=? n) && (n <=? 57) then Some (n - 48)
  else if (97 <=? n) && (n <=? 122) then Some (n - 87)
  else if (65 <=? n) && (n <=? 90) then Some (n - 55)
  else None.

(** The value of the longest prefix of [s] made of digits of [radix],
    on top of [acc]; [None] while no digit has been read. *)
Fixpoint leading_digits (radix : Z) (s : string) (acc : option Z) : option Z :=
  match s with
  | EmptyString => acc
  | String c r =>
      match digit_value c with
      | Some d =>
          if d <? radix
          then leading_digits radix r (Some (radix * default 0 acc + d))
          else acc
      | None => acc
      end
  end.

Definition strip_sign (s : string) : Z * string :=
  match s with
  | String c r =>
      if Ascii.eqb c "-" then (-1, r)
      else if Ascii.eqb c "+" then (1, r)
      else (1, s)
  | EmptyString => (1, s)
  end.

(** A leading [0x] or [0X] makes the radix 16. *)
Definition strip_prefix (s : string) : Z * string :=
  match s with
  | String c0 (String c1 r) =>
      if Ascii.eqb c0 "0" && (Ascii.eqb c1 "x" || Ascii.eqb c1 "X")
      then (16, r)
      else (10, s)
  | _ => (10, s)
  end.

(** [parseInt(s)], with no radix given.  [None] is NaN; [Some n] stands for
    the Number nearest to the integer [n], which has the sign of [n]. *)
Definition parseInt (s : string) : option Z :=
  let '(sign, s1) := strip_sign (trimStart s) in
  let '(radix, s2) := strip_prefix s1 in
  (fun v => sign * v) <$> leading_digits radix s2 None.

Record PatientFormData : Type := {
  fullName : string;
  age : string;
  gender : string;
  contactInfo : string;
  address : string;
  email : string;
  bloodType : string;
  allergies : string;
  medicalHistory : string;
  insuranceProvider : string;
  insuranceId : string;
  emergencyContact : string
}.

Definition initialFormData : PatientFormData :=
  {| fullName := EmptyString; age := EmptyString; gender := EmptyString;
     contactInfo := EmptyString; address := EmptyString; email := EmptyString;
     bloodType := EmptyString; allergies := EmptyString;
     medicalHistory := EmptyString; insuranceProvider := EmptyString;
     insuranceId := EmptyString; emergencyContact := EmptyString |}.

(** The object [newErrors]: its keys, in the order in which they were set,
    with their messages. *)
Definition validateForm (formData : PatientFormData) : list (string * string) :=
  (if bool_decide (trim (fullName formData) = EmptyString)
   then [("fullName"%string, "Full Name is required"%string)] else []) ++
  (if bool_decide (age formData = EmptyString) ||
      match parseInt (age formData) with
      | None => true
      | Some n => n <=? 0
      end
   then [("age"%string, "Valid age is required"%string)] else []) ++
  (if bool_decide (gender formData = EmptyString)
   then [("gender"%string, "Gender is required"%string)] else []).

Record FormState : Type := {
  formData : PatientFormData;
  errors : list (string * string);
  isSubmitting : bool;
  successMessage : string
}.

(** A parameter of the statement: a string, or the Number [parseInt]
    gave. *)
Inductive Param : Type :=
  | PText (s : string)
  | PNumber (n : option Z).

Definition insert_sql : string :=
  "INSERT INTO patients (
          full_name, age, gender, contact_info, address, email,
          blood_type, allergies, medical_history, insurance_provider,
          insurance_id, emergency_contact
        ) VALUES ($1, $2, $3, $4, $5, $6, $7, $8, $9, $10, $11, $12)".

(** [handleSubmit], up to [await executeQuery(...)]: the state it leaves,
    and the call it makes, if it makes one. *)
Definition handleSubmit (st : FormState) : FormState * option (string * list Param) :=
  let validationErrors := validateForm (formData st) in
  if (0 <? length validationErrors)%nat then
    ({| formData := formData st; errors := validationErrors;
        isSubmitting := isSubmitting st; successMessage := successMessage st |}, None)
  else
    ({| formData := formData st; errors := errors st;
        isSubmitting := true; successMessage := EmptyString |},
     Some (insert_sql,
           [PText (fullName (formData st));
            PNumber (parseInt (age (formData st)));
            PText (gender (formData st));
            PText (contactInfo (formData st));
            PText (address (formData st));
            PText (email (formData st));
            PText (bloodType (formData st));
            PText (allergies (formData st));
            PText (medicalHistory (formData st));
            PText (insuranceProvider (formData st));
            PText (insuranceId (formData st));
            PText (emergencyContact (formData st))])).

(** The rest of [handleSubmit], when the promise of [executeQuery] has
    settled: the state it leaves, and whether [onPatientAdded] was
    called.  [onPatientAdded] is a state setter of [App]; it does not
    throw. *)
Definition handleSubmit_settled (st : FormState) (res : Settled Results)
    : FormState * bool :=
  match res with
  | inl _ =>
      ({| formData := initialFormData; errors := [];
          isSubmitting := false;
          successMessage := "Patient registered successfully!" |}, true)
  | inr _ =>
      ({| formData := formData st;
          errors := [("submit"%string,
                      "Failed to register patient. Please try again."%string)];
          isSubmitting := false;
          successMessage := successMessage st |}, false)
  end.

End Form.

(** ** The table of patients *)

Module PatientTable.

(** A row as the engine returns it: its own keys in the order of
    [Object.keys], each with the text [toString()] gives for its value,
    [None] for a value that is null or undefined. *)
Definition Row : Type := list (string * option string).

Definition keys (row : Row) : list string := map fst row.

(** The own property [key] of the row: [None] when the row has no such
    key. *)
Fixpoint own (row : Row) (key : string) : option (option string) :=
  match row with
  | [] => None
  | (k, v) :: rest => if String.eqb k key then Some v else own rest key
  end.

(** What the rows inherit: the property [key] of their prototype chain,
    with the text [toString()] gives for its value; [None] when there is
    none.  For plain objects these are the properties of
    [Object.prototype], such as "constructor", "toString" and
    "valueOf". *)
Definition Inherited : Type := string -> option (option string).

(** [row[key]]: the own property, else the inherited one. *)
Definition get (inherited : Inherited) (row : Row) (key : string)
    : option (option string) :=
  match own row key with
  | Some v => Some v
  | None => inherited key
  end.

(** [Array.from(new Set(l))]: what occurs in [l], once each, in the order
    of the first occurrences. *)
Fixpoint unique (l : list string) : list string :=
  match l with
  | [] => []
  | x :: rest => x :: filter (fun y => y <> x) (unique rest)
  end.

Definition allKeys (localData : list Row) : list string :=
  filter (fun key => key <> "id"%string) (unique (flat_map keys localData)).

(** [key.replace(/_/g, " ")] *)
Fixpoint header (key : string) : string :=
  match key with
  | EmptyString => EmptyString
  | String c r => String (if Ascii.eqb c "_" then " "%char else c) (header r)
  end.

Definition cell (inherited : Inherited) (row : Row) (key : string) : string :=
  match get inherited row key with
  | Some (Some text) => text
  | _ => "-"%string
  end.

(** What is rendered: [None] for the notice that no record was found,
    else the row of headers and the rows of cells. *)
Definition render (inherited : Inherited) (localData : list Row)
    : option (list string * list (list string)) :=
  match localData with
  | [] => None
  | _ => Some (map header (allKeys localData),
               map (fun row => map (cell inherited row) (allKeys localData)) localData)
  end.

End PatientTable.

(** ** The query box: [fetchPatients] and the listener of [QueryExecutor] *)

Module QueryExecutor.

(** [{ skipQueue: true, retries: 2 }] *)
Definition fetch_config : option Config :=
  Some {| skipQueue := Some true; retries := Some (integer 2); broadcastTable := None |}.

Record View : Type := {
  results : list PatientTable.Row;
  error : option string;
  isLoading : bool
}.

(** What the promise of [executeQuery] is fulfilled with: a result whose
    [rows] is an array, or one whose [rows] is not. *)
Inductive Answer : Type :=
  | Rows (rows : list PatientTable.Row)
  | NoRows.

(** [fetchPatients], from the [await] on: the [try], the [catch] and the
    [finally]. *)
Definition fetchPatients_settled (res : Settled Answer) : View :=
  match res with
  | inl (Rows rows) => {| results := rows; error := None; isLoading := false |}
  | inl NoRows => {| results := []; error := None; isLoading := false |}
  | inr err =>
      {| results := [];
         error := Some ("Error executing query: " ++ err)%string;
         isLoading := false |}
  end.

(** The callback given to [onDatabaseUpdate]: [inl true] when it asks for
    fresh data with [setLastUpdateId], [inr] when it throws, which it does
    on [event.type] when the event is null or undefined. *)
Definition on_update (event : Data) : Settled bool :=
  match event with
  | Null => inr "Cannot read properties of null (reading 'type')"%string
  | Scalar _ => inl false
  | Ping _ _ => inl false
  | Refresh _ => inl true
  | Notice info =>
      if bool_decide (ci_type info = "data_updated"%string) then
        match ci_affectedTable info with
        | None | Some EmptyString => inl true
        | Some table => inl (bool_decide (toLowerCase table = "patients"%string))
        end
      else inl false
  end.

End QueryExecutor.

(* ================================================================== *)
(** * Part II: what the specification speaks of                        *)
(* ================================================================== *)

(** ** The affected entity, in the words of the specification

    "The entity name following [from], [into] or [update]": at a given
    position, a keyword, then white space, then the name, which runs up to
    the next white space, comma, semicolon or closing parenthesis. *)

Fixpoint skip_while (cls : ascii -> bool) (s : string) : string :=
  match s with
  | EmptyString => EmptyString
  | String c r => if cls c then skip_while cls r else s
  end.

Fixpoint take_while (cls : ascii -> bool) (s : string) : string :=
  match s with
  | EmptyString => EmptyString
  | String c r => if cls c then String c (take_while cls r) else EmptyString
  end.

Fixpoint drop_chars (n : nat) (s : string) : string :=
  match n, s with
  | O, _ => s
  | S n', String _ r => drop_chars n' r
  | S _, EmptyString => EmptyString
  end.

Definition name_after (kw s : string) : option string :=
  if String.prefix kw s then
    match drop_chars (String.length kw) s with
    | String c r =>
        if is_space c then
          match take_while is_name_char (skip_while is_space r) with
          | EmptyString => None
          | name => Some name
          end
        else None
    | EmptyString => None
    end
  else None.

Definition entity_at (s : string) : option string :=
  match name_after "from" s with
  | Some name => Some name
  | None =>
      match name_after "into" s with
      | Some name => Some name
      | None => name_after "update" s
      end
  end.

(** First match wins: the leftmost position that has an entity. *)
Fixpoint first_entity (s : string) : option string :=
  match entity_at s with
  | Some name => Some name
  | None =>
      match s with
      | EmptyString => None
      | String _ r => first_entity r
      end
  end.

(** ** Classes of characters *)

(** All 256 code units. *)
Definition all_ascii : list ascii := map ascii_of_nat (seq 0 256).

Definition is_lower_letter (c : ascii) : bool := (97 <=? code c) && (code c <=? 122).
Definition is_capital (c : ascii) : bool := (65 <=? code c) && (code c <=? 90).

Fixpoint string_forall (P : ascii -> bool) (s : string) : bool :=
  match s with
  | EmptyString => true
  | String c r => P c && string_forall P r
  end.

(** [w] is the word [kw], written in small letters, in any mix of
    capitals and small letters: each character of [w] is the letter of
    [kw] at its place, or the character 32 code units below it. *)
Fixpoint same_word (w kw : string) : bool :=
  match w, kw with
  | EmptyString, EmptyString => true
  | String c w', String k kw' =>
      (Ascii.eqb c k || (code c + 32 =? code k)) && same_word w' kw'
  | _, _ => false
  end.

(** ** Two browsers *)

(** A browser whose shared storage is full, and one whose open channel
    refuses the message; everything else works. *)
Definition storage_full : Platform :=
  {| now := 0; now_marker := 0; href := "http://localhost/"; newTabId := "tab_0_a";
     postMessage_throws := None;
     setItem_throws := Some "QuotaExceededError"%string;
     dispatchEvent_throws := None |}.

Definition channel_broken : Platform :=
  {| now := 0; now_marker := 0; href := "http://localhost/"; newTabId := "tab_0_a";
     postMessage_throws := Some "InvalidStateError"%string;
     setItem_throws := None;
     dispatchEvent_throws := None |}.

(** ** Runs of the initialiser *)

Definition is_fetch (e : Session.Event) : bool :=
  match e with Session.Fetch _ _ => true | _ => false end.

Definition is_call (i : Session.Input) : bool :=
  match i with Session.ICall _ _ => true | _ => false end.

(** A Ready session: the module-load call has gone through. *)
Definition ready_inputs : list Session.Input :=
  [Session.ICall Session.no_config None;
   Session.IFetched 0 (inl (true, true));
   Session.ICompiled 0 (inl tt);
   Session.ICreated 0 (inl tt);
   Session.IVerified 0 (inl tt) None true].

Definition ready_session : Session.State :=
  default Session.fresh (Session.run Session.fresh ready_inputs).

(** Two calls of [initializeDatabase] that overlap, as the program makes
    them.  The connection of a Ready session is lost while the probes of
    two health checks are with the engine (a probe that takes longer than
    the 5 s between two checks).  Both probes are rejected; each health
    check cleans up and calls [initializeDatabase]; the second call is
    made while the first awaits its fetches. *)
Definition lost_probe : option (Settled Results) :=
  Some (inr "connection lost"%string).

Definition overlapping_health_checks : list Session.Input :=
  health_check_inputs (Some 0%nat) lost_probe Session.no_config ++
  health_check_inputs (Some 0%nat) lost_probe Session.no_config ++
  [Session.IFetched 1 (inl (true, true));
   Session.IFetched 2 (inl (true, true));
   Session.ICompiled 1 (inl tt);
   Session.ICreated 1 (inl tt);
   Session.IVerified 1 (inl tt) None true;
   Session.ICompiled 2 (inl tt);
   Session.ICreated 2 (inl tt);
   Session.IVerified 2 (inl tt) None true].

(** ** A call whose query always fails *)

(** What the specification expects of a call whose query fails every
    time, where [err k] is the error of attempt [k]: [r - 1] rounds of an
    attempt, its warning and a wait of [100 * 2 ^ (k - 1)] ms, then the
    last attempt, its warning and the rejection with its error. *)
Definition failed_round (r : Number) (err : Z -> Error) (k : Z) : list Action :=
  [AQuery k; AWarn k r (err k); ASleep (100 * 2 ^ (k - 1))].

Definition all_attempts_fail (r : Z) (err : Z -> Error) : list Action :=
  concat (map (failed_round r err) (seqZ 1 (r - 1))) ++
  [AQuery r; AWarn r r (err r); AReject (err r)].

(** The attempts, the waits and the settlements among the actions of a
    call. *)
Definition attempts (acts : list Action) : list Z :=
  omap (fun a => match a with AQuery k => Some k | _ => None end) acts.

Definition waits (acts : list Action) : list Z :=
  omap (fun a => match a with ASleep ms => Some ms | _ => None end) acts.

Definition settlements (acts : list Action) : list Action :=
  filter (fun a => is_settling a = true) acts.

(** ** Invariants of the event loop *)

(** The loop of a queued call is inside its bounds, and waits only when
    another attempt is left. *)
Definition loop_ok (op : Op) (l : Loop) : Prop :=
  1 <= attempt l /\ le_num (attempt l) (op_retries op) = true /\
  (phase l = AwaitBackoff -> lt_num (attempt l) (op_retries op) = true).

(** Reading the actions of the open operation: [b] tells whether its
    promise is settled; a second settlement is refused. *)
Fixpoint settle_fold (b : bool) (acts : list Action) : option bool :=
  match acts with
  | [] => Some b
  | a :: acts' =>
      if b && is_settling a then None else settle_fold (b || is_settling a) acts'
  end.

(** What a resumption of the closure of [op] leaves behind: the actions
    [acts] settle the promise at most once, and not while the closure goes
    on; when the closure returns the promise is settled, if [retries] is a
    count of attempts. *)
Definition thunk_result (op : Op) (acts : list Action) (l' : option Loop) (b' : bool) : Prop :=
  settle_fold false acts = Some b' /\
  match l' with
  | Some l => loop_ok op l /\ b' = false
  | None => is_count (op_retries op) = true -> b' = true
  end.

(** The operation in flight, [o], as the state has it: the flag is up
    exactly when there is one, and its activation of
    [processPendingTransactions] is the only one. *)
Definition in_flight (s : State) (o : option (Op * bool)) : Prop :=
  match o with
  | None =>
      isTransactionInProgress s = false /\
      forall id op l, tasks s !! id <> Some (Processing op l)
  | Some (op, b) =>
      isTransactionInProgress s = true /\
      (op_id op < next_id s)%nat /\
      (forall id op' l', tasks s !! id = Some (Processing op' l') -> id = op_id op) /\
      exists l, tasks s !! op_id op = Some (Processing op l) /\
                match l with
                | Some l => loop_ok op l /\ b = false
                | None => is_count (op_retries op) = true -> b = true
                end
  end.

Definition exclusive (s : State) : Prop :=
  (exists o, serial None (trace s) = Some o /\ in_flight s o) /\
  Forall (fun op => (op_id op < next_id s)%nat) (pendingTransactions s).

(** *** First in, first out *)

(** What a turn does to the queue: [new] is pushed and [starts] is taken
    off its head. *)
Definition queue_moves (s s' : State) (new starts : list Op) : Prop :=
  pushed (trace s') = pushed (trace s) ++ new /\
  started (trace s') = started (trace s) ++ starts /\
  pendingTransactions s ++ new = starts ++ pendingTransactions s' /\
  (next_id s <= next_id s')%nat /\
  Forall (fun op => (next_id s <= op_id op < next_id s')%nat) new /\
  NoDup (op_id <$> new).

(** The operations started so far, followed by those waiting, are among
    the operations pushed, in the order in which they were pushed; and no
    two calls share a number. *)
Definition fifo (s : State) : Prop :=
  started (trace s) ++ pendingTransactions s `sublist_of` pushed (trace s) /\
  Forall (fun op => (op_id op < next_id s)%nat) (pushed (trace s)) /\
  NoDup (op_id <$> pushed (trace s)).

(** Nothing was dropped: started and waiting together are all that was
    pushed. *)
Definition fifo_exact (s : State) : Prop :=
  started (trace s) ++ pendingTransactions s = pushed (trace s).

(** *** The queue does not stall *)

(** While operations wait, either one is in flight, whose finally block
    will schedule the next turn, or a turn is scheduled already. *)
Definition keeps_going (s : State) : Prop :=
  pendingTransactions s <> [] ->
  isTransactionInProgress s = true \/ (0 < timers s)%nat.

(** ** Schedules that drain the queue *)

(** The inputs under which the closure of [op], suspended at [l], runs
    to its end when nothing else happens: each thing it waits for, then
    the continuation of [processPendingTransactions]. *)
Fixpoint drive_inputs (fuel : nat) (p : Platform) (channel : bool)
    (db : Z -> Settled Results) (op : Op) (l : option Loop) : list Input :=
  match l with
  | None => [IReturned (op_id op)]
  | Some l =>
      match fuel with
      | O => []
      | S fuel' =>
          match phase l with
          | AwaitQuery => IQuery (op_id op) (db (attempt l)) p
          | AwaitBackoff => IBackoff (op_id op)
          end :: drive_inputs fuel' p channel db op
                   (snd (resume Queued p channel db op l))
      end
  end.

(** The whole part of a finite number. *)
Definition floor (x : Number) : Z :=
  match x with
  | Ratio n d => n / Z.pos d
  | _ => 0
  end.

Definition finite (x : Number) : bool :=
  match x with
  | Ratio _ _ => true
  | _ => false
  end.

(** [x] allows no attempt: it is below 1, as 0 and the negative numbers
    are, or it is NaN. *)
Definition allows_none (x : Number) : bool :=
  match x with
  | Ratio n d => n <? Z.pos d
  | PosInfinity => false
  | NegInfinity | NaN => true
  end.

(** Enough resumptions for any closure whose [retries] is finite: two for
    each attempt. *)
Definition fuel_of (op : Op) : nat := Z.to_nat (2 * floor (op_retries op)).

(** The turn that starts [op], then the inputs that run it to its end. *)
Definition turn_inputs (p : Platform) (channel : bool)
    (db : Op -> Z -> Settled Results) (op : Op) : list Input :=
  drive_inputs (fuel_of op) p channel (db op) op (snd (thunk_head op 1 None)).

Definition drain_inputs (p : Platform) (channel : bool)
    (db : Op -> Z -> Settled Results) (ops : list Op) : list Input :=
  concat (map (fun op => ITimer :: turn_inputs p channel db op) ops).

(** What the closure of [op] does from start to end. *)
Definition solo (p : Platform) (channel : bool)
    (db : Op -> Z -> Settled Results) (op : Op) : list Action :=
  default [] (run_call (fuel_of op) Queued p channel (db op) op).

(** The resumptions still ahead of a loop, at most. *)
Definition ahead (op : Op) (l : Loop) : Z :=
  2 * (floor (op_retries op) - attempt l) +
  match phase l with AwaitQuery => 2 | AwaitBackoff => 1 end.

(** What the trace gains from one operation of the queue. *)
Definition block (p : Platform) (channel : bool) (db : Op -> Z -> Settled Results)
    (op : Op) : list Event :=
  Started op :: did Queued op (solo p channel db op) ++ [Finished op].

(** The inputs under which a call on the fast path, suspended at [l], runs
    to its end when nothing else happens. *)
Fixpoint direct_inputs (fuel : nat) (p : Platform) (channel : bool)
    (db : Z -> Settled Results) (op : Op) (l : option Loop) : list Input :=
  match l with
  | None => []
  | Some l =>
      match fuel with
      | O => []
      | S fuel' =>
          match phase l with
          | AwaitQuery => IQuery (op_id op) (db (attempt l)) p
          | AwaitBackoff => IBackoff (op_id op)
          end :: direct_inputs fuel' p channel db op
                   (snd (resume Fast p channel db op l))
      end
  end.

(** ** Calls are told apart: numbers and paths *)

Definition event_op (e : Event) : Op :=
  match e with
  | Pushed op | Started op | Did _ op _ | Finished op | Bypassed op | InitFailed op _ => op
  end.

Definition task_op (t : Task) : Op :=
  match t with
  | Processing op _ | Direct op _ => op
  end.

(** Every call the state knows of has a number below the counter; the
    closure of a call acts only if the call allows an attempt; and what
    happens on the fast path concerns calls that were never pushed. *)
Definition registered (s : State) : Prop :=
  Forall (fun e => (op_id (event_op e) < next_id s)%nat) (trace s) /\
  (forall id t, tasks s !! id = Some t -> (op_id (task_op t) < next_id s)%nat) /\
  (forall op a, Did Queued op a ∈ trace s -> le_num 1 (op_retries op) = true) /\
  (forall op a, Did Fast op a ∈ trace s -> Pushed op ∉ trace s) /\
  (forall id op l, tasks s !! id = Some (Direct op l) -> Pushed op ∉ trace s).

(** Both invariants together, along a run. *)
Definition sound (s : State) : Prop := exclusive s /\ registered s.

(** ** Sample runs of the event loop *)

(** A call that allows no attempt, then an ordinary one; the closure of
    the first returns and the next turn starts the second. *)
Definition zero_retries_config : option Config :=
  Some {| skipQueue := None; retries := Some (integer 0); broadcastTable := None |}.

Definition unsettled_schedule : list Input :=
  [ICall "INSERT INTO patients (full_name) VALUES ('a')" [] zero_retries_config None;
   ICall "UPDATE patients SET age = 1" [] None None;
   IReturned 0;
   ITimer].

Definition unsettled_first : Op :=
  {| op_id := 0; op_query := "INSERT INTO patients (full_name) VALUES ('a')";
     op_params := []; op_retries := 0; op_broadcastTable := None |}.

Definition unsettled_second : Op :=
  {| op_id := 1; op_query := "UPDATE patients SET age = 1";
     op_params := []; op_retries := 3; op_broadcastTable := None |}.

(** A call whose [retries] is 1.5, and whose query fails, then an ordinary
    one: the closure of the first waits after its one attempt, leaves its
    loop and returns, and the next turn starts the second. *)
Definition fractional_config : option Config :=
  Some {| skipQueue := None; retries := Some (Ratio 3 2); broadcastTable := None |}.

Definition fractional_schedule : list Input :=
  [ICall "INSERT INTO patients (full_name) VALUES ('a')" [] fractional_config None;
   ICall "UPDATE patients SET age = 1" [] None None;
   IQuery 0 (inr "connection lost"%string) storage_full;
   IBackoff 0;
   IReturned 0;
   ITimer].

Definition fractional_first : Op :=
  {| op_id := 0; op_query := "INSERT INTO patients (full_name) VALUES ('a')";
     op_params := []; op_retries := Ratio 3 2; op_broadcastTable := None |}.

(** Two calls; the first is answered, the second is then started. *)
Definition two_calls_served : list Input :=
  [ICall "INSERT INTO patients (full_name) VALUES ('a')" [] None None;
   ICall "UPDATE patients SET age = 1" [] None None;
   IQuery 0 (inl []) storage_full;
   IReturned 0;
   ITimer].

Definition two_calls_served_state : State :=
  default (initial true) (run (initial true) two_calls_served).

Definition served_first : Op :=
  {| op_id := 0; op_query := "INSERT INTO patients (full_name) VALUES ('a')";
     op_params := []; op_retries := 3; op_broadcastTable := None |}.

Definition skip_queue_config : option Config :=
  Some {| skipQueue := Some true; retries := None; broadcastTable := None |}.

(** Three operations wait; the query of the second fails whenever it is
    tried. *)
Definition backlog_inputs : list Input :=
  [ICall "INSERT INTO patients (full_name) VALUES ('a')" [] None None;
   ICall "UPDATE patients SET age = 1" [] None None;
   ICall "DELETE FROM patients" [] None None;
   ICall "DROP TABLE patients" [] None None;
   IQuery 0 (inl []) storage_full;
   IReturned 0].

Definition backlog_state : State :=
  default (initial false) (run (initial false) backlog_inputs).

Definition second_fails (op : Op) (k : Z) : Settled Results :=
  if Nat.eqb (op_id op) 2 then inr "syntax error"%string else inl [].

(** The same, the second of the three having [retries = 1.5]. *)
Definition fractional_backlog_inputs : list Input :=
  [ICall "INSERT INTO patients (full_name) VALUES ('a')" [] None None;
   ICall "UPDATE patients SET age = 1" [] None None;
   ICall "DELETE FROM patients" [] fractional_config None;
   ICall "DROP TABLE patients" [] None None;
   IQuery 0 (inl []) storage_full;
   IReturned 0].

Definition fractional_backlog_state : State :=
  default (initial false) (run (initial false) fractional_backlog_inputs).

Definition fractional_second : Op :=
  {| op_id := 2; op_query := "DELETE FROM patients";
     op_params := []; op_retries := Ratio 3 2; op_broadcastTable := None |}.

Definition backlog_third : Op :=
  {| op_id := 3; op_query := "DROP TABLE patients";
     op_params := []; op_retries := 3; op_broadcastTable := None |}.

(** ** Further readings of a run *)

(** What a queued call does between the answer of the engine and its
    [resolve]: it tells the other tabs, when its statement is a mutating one. *)
Definition announce (p : Platform) (channel : bool) (op : Op) : list Action :=
  if isModifyingQuery (op_query op)
  then [ABroadcast (fst (broadcastDatabaseChange p channel (op_query op)
                           (op_broadcastTable op)))]
  else [].

(** A call whose query fails [k - 1] times and is then answered. *)
Definition answered_at (r : Number) (k : Z) (err : Z -> Error) (tail : list Action)
    : list Action :=
  concat (map (failed_round r err) (seqZ 1 (k - 1))) ++ AQuery k :: tail.

(** A call the module has let go of: it is known, it does not wait on
    the queue, and no coroutine runs it. *)
Definition dormant (s : State) (op : Op) : Prop :=
  (op_id op < next_id s)%nat /\
  (op ∉ pendingTransactions s) /\
  forall id t, tasks s !! id = Some t -> task_op t <> op.

(** Nothing in [evs] concerns [op]. *)
Definition silent (op : Op) (evs : list Event) : Prop :=
  Forall (fun e => event_op e <> op) evs.

(** A coroutine is kept under the number of its call. *)
Definition keyed (s : State) : Prop :=
  forall id t, tasks s !! id = Some t -> op_id (task_op t) = id.

(** The settlement of a promise, if there is one, is the last thing its
    call does. *)
Fixpoint settles_last (acts : list Action) : bool :=
  match acts with
  | [] => true
  | a :: rest =>
      if is_settling a then match rest with [] => true | _ :: _ => false end
      else settles_last rest
  end.

(** What a resumption may do: settle last, and only when the loop is left. *)
Definition closing (r : list Action * option Loop) : Prop :=
  settles_last (fst r) = true /\
  (is_Some (snd r) -> existsb is_settling (fst r) = false).

(** The states of the runs. *)
Definition reachable (s : State) : Prop :=
  exists channel inputs, run (initial channel) inputs = Some s.

(** No call goes on after its settlement; the calls whose coroutine is
    still in a loop have not settled. *)
Definition once (s : State) : Prop :=
  (forall op, settles_last (actions_of op (trace s)) = true) /\
  (forall id t, tasks s !! id = Some t ->
     t = Processing (task_op t) None \/ settled (task_op t) (trace s) = false).

Definition is_telling (a : Action) : bool :=
  match a with ABroadcast _ => true | _ => false end.

(** Whoever tells the other tabs is a call on the queue with a mutating
    statement, and the next thing that happens is that it resolves its
    promise. *)
Fixpoint tells_then_resolves (tr : list Event) : bool :=
  match tr with
  | [] => true
  | Did path op (ABroadcast _) :: rest =>
      match path, rest with
      | Queued, Did Queued op' (AResolve _) :: _ =>
          bool_decide (op' = op) && isModifyingQuery (op_query op) &&
          tells_then_resolves rest
      | _, _ => false
      end
  | _ :: rest => tells_then_resolves rest
  end.

(** What is told is what [broadcastDatabaseChange] does for the statement
    and the hint of the call. *)
Definition told_by_broadcaster (e : Event) : Prop :=
  match e with
  | Did _ op (ABroadcast effs) =>
      exists p channel,
        effs = fst (broadcastDatabaseChange p channel (op_query op) (op_broadcastTable op))
  | _ => True
  end.

Definition tells (s : State) : Prop :=
  tells_then_resolves (trace s) = true /\ Forall told_by_broadcaster (trace s).

(** One call on the queue: its query is with the engine, and is then
    answered. *)
Definition one_call : list Input :=
  [ICall "DELETE FROM patients" [] None None; IQuery 0 (inl []) storage_full].

Definition one_call_state : State :=
  default (initial true) (run (initial true) one_call).

Definition the_call : Op :=
  {| op_id := 0; op_query := "DELETE FROM patients";
     op_params := []; op_retries := 3; op_broadcastTable := None |}.

(** Two calls: the second waits for the first. *)
Definition two_calls : list Input :=
  [ICall "INSERT INTO patients (full_name) VALUES ('a')" [] None None;
   ICall "UPDATE patients SET age = 1" [] None None].

Definition two_calls_state : State :=
  default (initial false) (run (initial false) two_calls).

(** ** The connection at hand and the handles handed out *)

(** The handles the module holds or has handed out were all made by
    [PGlite.create] calls that are over. *)
Definition handles_made (s : Session.State) : Prop :=
  (forall h, Session.dbInstance s = Some h -> (h < Session.next_handle s)%nat) /\
  (forall call h, Session.Return call (Some h) ∈ Session.log s ->
                  (h < Session.next_handle s)%nat).

(** The connection at hand, if there is one, was made after the [n]
    first. *)
Definition made_after (n : nat) (s : Session.State) : Prop :=
  (n <= Session.next_handle s)%nat /\
  forall h, Session.dbInstance s = Some h -> (n <= h)%nat.

(** The module-load call, a cleanup by the health check, and the call the
    health check makes then. *)
Definition reinitialised_inputs : list Session.Input :=
  [Session.ICall Session.no_config None;
   Session.IFetched 1 (inl (true, true));
   Session.ICompiled 1 (inl tt);
   Session.ICreated 1 (inl tt);
   Session.IVerified 1 (inl tt) None true].

(** ** Notices and their listeners *)

(** The change notice, as [broadcastDatabaseChange] builds it. *)
Definition notice (p : Platform) (query : string) (affectedTable : option string)
    (timestamp : Z) : ChangeInfo :=
  {| ci_type := "data_updated";
     ci_action := getQueryAction query;
     ci_query := query;
     ci_affectedTable := js_or affectedTable (getAffectedTable query);
     ci_timestamp := timestamp;
     ci_origin := href p;
     ci_tabId := newTabId p |}.

(** The subscription a listener belongs to. *)
Definition listener_sub (l : Listener) : option nat :=
  match l with
  | ChannelListener sub | StorageListener sub | CustomEventListener sub
  | RefreshListener sub => Some sub
  | HandleStorageEvent => None
  end.

(** The listeners registered belong to subscriptions made so far. *)
Definition subscriptions_ok (w : Subscriptions) : Prop :=
  forall t type l sub,
    (t, type, l) ∈ regs w -> listener_sub l = Some sub -> (sub < next_sub w)%nat.

Definition no_subscriptions : Subscriptions := {| regs := []; next_sub := 0 |}.

(** A callback, as the listeners see it. *)
Definition callback_of (f : Data -> Settled bool) : Callback :=
  fun d => match f d with inr e => Some e | inl _ => None end.

(** No transport of the browser throws. *)
Definition transports_work (p : Platform) : Prop :=
  postMessage_throws p = None /\ setItem_throws p = None /\ dispatchEvent_throws p = None.

(** ** Letters in lower case *)

(** [toLowerCase] leaves the character as it is. *)
Definition lowered (c : ascii) : bool := Ascii.eqb (lower_char c) c.

(** ** The form *)

(** The age field passes the validation. *)
Definition age_accepted (a : string) : Prop :=
  exists n, Form.parseInt a = Some n /\ 0 < n.

(** The form, with another text in the age field. *)
Definition with_age (fd : Form.PatientFormData) (a : string) : Form.PatientFormData :=
  {| Form.fullName := Form.fullName fd; Form.age := a; Form.gender := Form.gender fd;
     Form.contactInfo := Form.contactInfo fd; Form.address := Form.address fd;
     Form.email := Form.email fd; Form.bloodType := Form.bloodType fd;
     Form.allergies := Form.allergies fd; Form.medicalHistory := Form.medicalHistory fd;
     Form.insuranceProvider := Form.insuranceProvider fd;
     Form.insuranceId := Form.insuranceId fd;
     Form.emergencyContact := Form.emergencyContact fd |}.

Definition sample_form : Form.PatientFormData :=
  {| Form.fullName := "Ann Lee"; Form.age := "42"; Form.gender := "Female";
     Form.contactInfo := EmptyString; Form.address := EmptyString;
     Form.email := EmptyString; Form.bloodType := EmptyString;
     Form.allergies := EmptyString; Form.medicalHistory := EmptyString;
     Form.insuranceProvider := EmptyString; Form.insuranceId := EmptyString;
     Form.emergencyContact := EmptyString |}.

(* ================================================================== *)
(** * Part III: lemmas                                                 *)
(* ================================================================== *)

(** ** Strings *)

Lemma is_space_lower_char (c : ascii) : is_space (lower_char c) = is_space c.
Proof. destruct c as [[] [] [] [] [] [] [] []]; reflexivity. Qed.

Lemma trimStart_toLowerCase (s : string) :
  trimStart (toLowerCase s) = toLowerCase (trimStart s).
Proof.
  induction s as [|c r IH]; simpl; [reflexivity|].
  rewrite is_space_lower_char. destruct (is_space c); [exact IH | reflexivity].
Qed.

Lemma trimEnd_toLowerCase (s : string) :
  trimEnd (toLowerCase s) = toLowerCase (trimEnd s).
Proof.
  induction s as [|c r IH]; simpl; [reflexivity|].
  rewrite IH, is_space_lower_char.
  destruct (trimEnd r); simpl; [destruct (is_space c)|]; reflexivity.
Qed.

(** Lowercasing and trimming commute, so "after trimming and lowercasing"
    names one string whichever comes first. *)
Lemma trim_toLowerCase (s : string) :
  trim (toLowerCase s) = toLowerCase (trim s).
Proof. unfold trim. now rewrite trimStart_toLowerCase, trimEnd_toLowerCase. Qed.

Lemma append_String (c : ascii) (s r : string) :
  (String c s ++ r)%string = String c (s ++ r)%string.
Proof. reflexivity. Qed.

Lemma prefix_app (p s : string) :
  String.prefix p s = true <-> exists rest, s = (p ++ rest)%string.
Proof.
  revert s; induction p as [|a p IH]; intros s; simpl.
  - split; [intros _; now exists s | now destruct s].
  - destruct s as [|b s]; simpl;
      [split; [discriminate | intros [r Hr]; discriminate]|].
    destruct (ascii_dec a b) as [->|Hne].
    + rewrite IH. split; intros [r Hr]; exists r;
        rewrite ?append_String in *; congruence.
    + split; [discriminate | intros [r Hr]; rewrite append_String in Hr; congruence].
Qed.

Lemma startsWith_app (s p : string) :
  startsWith s p = true <-> exists rest, s = (p ++ rest)%string.
Proof. apply prefix_app. Qed.

(** ** The affected-entity heuristic *)

(** A greedy repetition never has to give a character back when the
    continuation [k] fails on every string on which it also fails after
    the whole run of [cls] is consumed. *)
Lemma match_plus_greedy {R : Type} (cls : ascii -> bool) (k : string -> option R) :
  (forall r, k (skip_while cls r) = None -> k r = None) ->
  forall s,
    match_plus cls s k =
    match s with
    | String c r => if cls c then k (skip_while cls r) else None
    | EmptyString => None
    end.
Proof.
  intros Hk. induction s as [|c r IH]; simpl; [reflexivity|].
  destruct (cls c); [|reflexivity]. rewrite IH.
  destruct r as [|c' r']; simpl; [reflexivity|].
  destruct (cls c') eqn:Hc'; [|reflexivity].
  destruct (k (skip_while cls r')) eqn:Hskip; [reflexivity|].
  apply Hk. simpl. now rewrite Hc'.
Qed.

Lemma length_skip_while (cls : ascii -> bool) (s : string) :
  (String.length (skip_while cls s) <= String.length s)%nat.
Proof.
  induction s as [|c r IH]; simpl; [lia|]. destruct (cls c); simpl; lia.
Qed.

(** The text a group captures is what lies between where it starts and
    where the repetition stops. *)
Lemma substring_take_while (cls : ascii -> bool) (s : string) :
  substring 0 (String.length s - String.length (skip_while cls s)) s = take_while cls s.
Proof.
  induction s as [|c r IH]; simpl; [reflexivity|].
  destruct (cls c) eqn:Hc; simpl.
  - pose proof (length_skip_while cls r).
    replace (S (String.length r) - String.length (skip_while cls r))%nat
      with (S (String.length r - String.length (skip_while cls r))) by lia.
    simpl. now rewrite IH.
  - now rewrite Nat.sub_diag.
Qed.

Lemma is_name_char_space (c : ascii) : is_space c = true -> is_name_char c = false.
Proof. unfold is_name_char. now intros ->. Qed.

Lemma in_all_ascii (c : ascii) : In c all_ascii.
Proof.
  unfold all_ascii. rewrite <- (ascii_nat_embedding c).
  apply in_map, in_seq. pose proof (nat_ascii_bounded c). lia.
Qed.

(** Against a lowercase letter of the pattern, and on a text without
    capitals, the flag [i] changes nothing. *)
Lemma ci_eqb_lower (a b : ascii) :
  is_lower_letter a = true -> is_capital b = false ->
  ci_eqb a b = if ascii_dec a b then true else false.
Proof.
  assert (Hall : forallb (fun a => forallb (fun b =>
            implb (is_lower_letter a && negb (is_capital b))
                  (Bool.eqb (ci_eqb a b) (if ascii_dec a b then true else false)))
            all_ascii) all_ascii = true) by (vm_compute; reflexivity).
  intros Ha Hb. rewrite forallb_forall in Hall.
  specialize (Hall a (in_all_ascii a)). rewrite forallb_forall in Hall.
  specialize (Hall b (in_all_ascii b)). rewrite Ha, Hb in Hall. simpl in Hall.
  now apply eqb_prop in Hall.
Qed.

Lemma lower_char_not_capital (c : ascii) : is_capital (lower_char c) = false.
Proof. destruct c as [[] [] [] [] [] [] [] []]; reflexivity. Qed.

Lemma toLowerCase_no_capitals (s : string) :
  string_forall (fun c => negb (is_capital c)) (toLowerCase s) = true.
Proof.
  induction s as [|c r IH]; simpl; [reflexivity|].
  now rewrite lower_char_not_capital, IH.
Qed.

Lemma match_lit_prefix (kw s : string) :
  string_forall is_lower_letter kw = true ->
  string_forall (fun c => negb (is_capital c)) s = true ->
  match_lit kw s =
  if String.prefix kw s then Some (drop_chars (String.length kw) s) else None.
Proof.
  revert s. induction kw as [|a kw IH]; intros s Hkw Hs; simpl.
  - now destruct s.
  - destruct s as [|b s]; simpl; [reflexivity|].
    simpl in Hkw, Hs. apply andb_true_iff in Hkw as [Ha Hkw].
    apply andb_true_iff in Hs as [Hb Hs]. apply negb_true_iff in Hb.
    rewrite (ci_eqb_lower a b Ha Hb).
    destruct (ascii_dec a b); [now apply IH | reflexivity].
Qed.

(** One alternative of the pattern, tried at the head of [s]. *)
Lemma rmatch_keyword_then_name (kw : string) (n : nat) (s : string) :
  string_forall is_lower_letter kw = true ->
  string_forall (fun c => negb (is_capital c)) s = true ->
  rmatch (keyword_then_name kw n) s [] (fun _ caps => Some caps) =
  (fun name => [(n, name)]) <$> name_after kw s.
Proof.
  intros Hkw Hs. unfold keyword_then_name, name_after. simpl.
  rewrite (match_lit_prefix kw s Hkw Hs).
  destruct (String.prefix kw s); [|reflexivity].
  set (k := fun rest : string => match_plus is_name_char rest _).
  assert (Hname : forall t, k t =
            match take_while is_name_char t with
            | EmptyString => None
            | name => Some [(n, name)]
            end).
  { intros t. unfold k. rewrite match_plus_greedy by discriminate.
    destruct t as [|c r]; simpl; [reflexivity|].
    destruct (is_name_char c) eqn:Hc; [|reflexivity].
    pose proof (substring_take_while is_name_char (String c r)) as Hsub.
    simpl in Hsub. rewrite Hc in Hsub. now rewrite Hsub. }
  rewrite match_plus_greedy.
  - destruct (drop_chars (String.length kw) s) as [|c r]; [reflexivity|].
    destruct (is_space c); [|reflexivity]. rewrite Hname.
    now destruct (take_while is_name_char (skip_while is_space r)).
  - intros r Hr. destruct r as [|c r]; [exact Hr|]. simpl in Hr.
    destruct (is_space c) eqn:Hc; [|exact Hr].
    rewrite Hname. simpl. now rewrite (is_name_char_space c Hc).
Qed.

Lemma name_after_nonempty (kw s name : string) :
  name_after kw s = Some name -> name <> EmptyString.
Proof.
  unfold name_after. destruct (String.prefix kw s); [|discriminate].
  destruct (drop_chars _ s) as [|c r]; [discriminate|].
  destruct (is_space c); [|discriminate].
  destruct (take_while _ _); [discriminate|]. now intros [= <-].
Qed.

Lemma regex_exec_first_entity (s : string) :
  string_forall (fun c => negb (is_capital c)) s = true ->
  match regex_exec tableRegex s with
  | Some tableMatch =>
      js_or (js_or (group 1 tableMatch) (group 2 tableMatch)) (group 3 tableMatch)
  | None => None
  end = first_entity s.
Proof.
  assert (Hat : forall t, string_forall (fun c => negb (is_capital c)) t = true ->
            match rmatch tableRegex t [] (fun _ caps => Some caps) with
            | Some tableMatch =>
                js_or (js_or (group 1 tableMatch) (group 2 tableMatch))
                      (group 3 tableMatch)
            | None => None
            end = entity_at t /\
            (rmatch tableRegex t [] (fun _ caps => Some caps) = None <->
             entity_at t = None)).
  { intros t Ht. unfold tableRegex, entity_at.
    cbn [rmatch].
    change (rmatch (keyword_then_name ?kw ?n) t [] ?k) with
      (rmatch (keyword_then_name kw n) t [] (fun _ caps => Some caps)).
    rewrite !rmatch_keyword_then_name by (reflexivity || exact Ht).
    destruct (name_after "from" t) as [n1|] eqn:H1; simpl.
    { pose proof (name_after_nonempty _ _ _ H1). destruct n1; [done|]. now split. }
    destruct (name_after "into" t) as [n2|] eqn:H2; simpl.
    { pose proof (name_after_nonempty _ _ _ H2). destruct n2; [done|]. now split. }
    destruct (name_after "update" t) as [n3|] eqn:H3; simpl.
    { pose proof (name_after_nonempty _ _ _ H3). destruct n3; [done|]. now split. }
    now split. }
  induction s as [|c r IH]; intros Hs.
  - destruct (Hat EmptyString Hs) as [Heq Hnone].
    cbn [regex_exec first_entity].
    destruct (rmatch tableRegex EmptyString [] _) eqn:Hm.
    + rewrite <- Heq. now destruct (js_or _ _).
    + destruct Hnone as [Hnone _]. now rewrite (Hnone eq_refl).
  - destruct (Hat (String c r) Hs) as [Heq Hnone].
    cbn [regex_exec first_entity].
    destruct (rmatch tableRegex (String c r) [] _) eqn:Hm.
    + destruct (entity_at (String c r)) eqn:He; [exact Heq|].
      exfalso. destruct Hnone as [_ Hnone]. now specialize (Hnone eq_refl).
    + destruct Hnone as [Hnone _]. rewrite (Hnone eq_refl). apply IH.
      simpl in Hs. now apply andb_true_iff in Hs as [_ Hs].
Qed.

(** ** The change broadcaster *)

(** Whatever the transports do, the broadcaster completes: what they
    throw ends in the catch block, which logs it. *)
Lemma broadcastDatabaseChange_never_raises (p : Platform) (channel : bool)
    (query : string) (affectedTable : option string) :
  snd (broadcastDatabaseChange p channel query affectedTable) = inl tt.
Proof.
  unfold broadcastDatabaseChange, try_catch, bind, postMessage, setItem,
    dispatchEvent, perform, throw, ret.
  destruct channel, (postMessage_throws p), (setItem_throws p),
    (dispatchEvent_throws p); reflexivity.
Qed.

(** Without a channel ([dbChannel] is [null]) the marker is written to the
    shared storage and the local event is dispatched, as far as these two
    transports work. *)
Lemma broadcast_without_channel (p : Platform) (query : string)
    (affectedTable : option string) :
  let effs := fst (broadcastDatabaseChange p false query affectedTable) in
  posted effs = false /\
  (setItem_throws p = None -> stored effs = true) /\
  (setItem_throws p = None -> dispatchEvent_throws p = None -> dispatched effs = true).
Proof.
  unfold broadcastDatabaseChange, try_catch, bind, postMessage, setItem,
    dispatchEvent, perform, throw, ret.
  destruct (setItem_throws p), (dispatchEvent_throws p); simpl; repeat split; congruence.
Qed.

(** The three deliveries are one sequence inside one [try]: the first
    transport that throws ends it, and the later transports are not
    reached. *)
Lemma broadcast_stops_at_first_throw (p : Platform) (channel : bool)
    (query : string) (affectedTable : option string) (e : Error) :
  let effs := fst (broadcastDatabaseChange p channel query affectedTable) in
  (channel = true -> postMessage_throws p = Some e ->
   stored effs = false /\ dispatched effs = false) /\
  (setItem_throws p = Some e -> dispatched effs = false).
Proof.
  unfold broadcastDatabaseChange, try_catch, bind, postMessage, setItem,
    dispatchEvent, perform, throw, ret.
  split.
  - intros -> ->. simpl. now split.
  - intros ->. destruct channel, (postMessage_throws p); reflexivity.
Qed.

(** ** Initialisation *)

(** A step only adds to the log, and only a call of [initializeDatabase]
    adds fetches. *)
Lemma session_step_log (s s' : Session.State) (i : Session.Input) :
  Session.step s i = Some s' ->
  exists evs, Session.log s' = Session.log s ++ evs /\
              (is_call i = false -> forallb (fun e => negb (is_fetch e)) evs = true).
Proof.
  unfold Session.step, Session.initializeDatabase, Session.fail, Session.suspend.
  intros H.
  destruct i; simpl in *;
    repeat (match type of H with
            | context [match ?x with _ => _ end] => destruct x eqn:?
            end; simpl in *);
    simplify_eq; simpl;
    try (eexists; split; [reflexivity | intros; (reflexivity || discriminate)]);
    try (exists []; split; [symmetry; apply app_nil_r | reflexivity]).
Qed.

Lemma fetched_app (l1 l2 : list Session.Event) :
  Session.fetched (l1 ++ l2) = Session.fetched l1 ++ Session.fetched l2.
Proof. apply omap_app. Qed.

Lemma fetched_none (evs : list Session.Event) :
  forallb (fun e => negb (is_fetch e)) evs = true -> Session.fetched evs = [].
Proof.
  induction evs as [|e evs IH]; simpl; [reflexivity|].
  intros H. apply andb_true_iff in H as [He H].
  destruct e; simpl in *; try discriminate; now apply IH.
Qed.

Lemma session_run_no_call_fetched (inputs : list Session.Input) (s s' : Session.State) :
  forallb (fun i => negb (is_call i)) inputs = true ->
  Session.run s inputs = Some s' ->
  Session.fetched (Session.log s') = Session.fetched (Session.log s).
Proof.
  revert s. induction inputs as [|i inputs IH]; simpl; intros s Hno Hrun.
  - now simplify_eq.
  - apply andb_true_iff in Hno as [Hi Hno]. apply negb_true_iff in Hi.
    destruct (Session.step s i) as [s1|] eqn:Hstep; [|discriminate].
    rewrite (IH s1 Hno Hrun).
    destruct (session_step_log _ _ _ Hstep) as (evs & -> & Hevs).
    now rewrite fetched_app, (fetched_none evs (Hevs Hi)), app_nil_r.
Qed.

Lemma outcome_app (call : nat) (l1 l2 : list Session.Event) v :
  Session.outcome call l1 = Some v -> Session.outcome call (l1 ++ l2) = Some v.
Proof.
  induction l1 as [|e l1 IH]; simpl; [discriminate|].
  destruct e; try exact IH; case_decide; auto.
Qed.

(** A promise settles once: what [dbPromise] has given it gives for good. *)
Lemma dbPromise_stable (inputs : list Session.Input) (s s' : Session.State) v :
  Session.dbPromise s = Some v ->
  Session.run s inputs = Some s' ->
  Session.dbPromise s' = Some v.
Proof.
  revert s. induction inputs as [|i inputs IH]; simpl; intros s Hv Hrun.
  - now simplify_eq.
  - destruct (Session.step s i) as [s1|] eqn:Hstep; [|discriminate].
    apply (IH s1); [|exact Hrun].
    destruct (session_step_log _ _ _ Hstep) as (evs & Hlog & _).
    unfold Session.dbPromise in *. rewrite Hlog. now apply outcome_app.
Qed.

(** ** Numbers *)

Lemma le_num_integer (a n : Z) : le_num a (integer n) = (a <=? n).
Proof. unfold le_num, integer. now rewrite Z.mul_1_r. Qed.

Lemma lt_num_integer (a n : Z) : lt_num a (integer n) = (a <? n).
Proof. unfold lt_num, integer. now rewrite Z.mul_1_r. Qed.

Lemma le_num_succ_lt (a : Z) (x : Number) :
  le_num (a + 1) x = true -> lt_num a x = true.
Proof. destruct x; simpl; try done. rewrite Z.ltb_lt, Z.leb_le. lia. Qed.

Lemma lt_num_false_succ (a : Z) (x : Number) :
  lt_num a x = false -> le_num (a + 1) x = false.
Proof.
  intros H. destruct (le_num (a + 1) x) eqn:Hle; [|reflexivity].
  apply le_num_succ_lt in Hle. congruence.
Qed.

Lemma le_num_mono (a b : Z) (x : Number) :
  a <= b -> le_num b x = true -> le_num a x = true.
Proof.
  intros Hab. destruct x as [n d| | |]; simpl; try done.
  pose proof (Pos2Z.is_pos d). rewrite !Z.leb_le. nia.
Qed.

(** When [retries] is a count of attempts, a wait is followed by an
    attempt. *)
Lemma is_count_next (a : Z) (x : Number) :
  is_count x = true -> lt_num a x = true -> le_num (a + 1) x = true.
Proof.
  destruct x as [n d| | |]; simpl; try done.
  rewrite andb_true_iff, Z.leb_le, Z.eqb_eq, Z.ltb_lt, Z.leb_le. intros [_ Hmod] Hlt.
  apply Z.mod_divide in Hmod as [q ->]; [|lia].
  pose proof (Pos2Z.is_pos d) as Hd. assert (a < q) by nia. nia.
Qed.

Lemma is_count_first (x : Number) : is_count x = true -> le_num 1 x = true.
Proof.
  destruct x as [n d| | |]; simpl; try done.
  rewrite andb_true_iff, !Z.leb_le. lia.
Qed.

Lemma is_count_integer (n : Z) : is_count (integer n) = (1 <=? n).
Proof. unfold is_count, integer. now rewrite Z.mod_1_r, andb_true_r. Qed.

Lemma le_num_floor (a : Z) (x : Number) :
  finite x = true -> le_num a x = (a <=? floor x).
Proof.
  destruct x as [n d| | |]; simpl; try done. intros _.
  pose proof (Z.div_mod n (Z.pos d) ltac:(lia)) as Hdm.
  pose proof (Z.mod_pos_bound n (Z.pos d) ltac:(lia)) as Hb.
  apply eq_true_iff_eq. rewrite !Z.leb_le. split; intros H; nia.
Qed.

Lemma floor_integer (n : Z) : floor (integer n) = n.
Proof. unfold floor, integer. apply Z.div_1_r. Qed.

Lemma allows_none_first (x : Number) : allows_none x = true -> le_num 1 x = false.
Proof.
  destruct x as [n d| | |]; simpl; try done.
  rewrite Z.ltb_lt, Z.leb_gt. lia.
Qed.

Lemma allows_none_integer (n : Z) : allows_none (integer n) = (n <=? 0).
Proof.
  unfold allows_none, integer. apply eq_true_iff_eq. rewrite Z.ltb_lt, Z.leb_le. lia.
Qed.

(** ** The retry ceiling *)

Lemma drive_done (fuel : nat) (path : Path) (p : Platform) (channel : bool)
    (db : Z -> Settled Results) (op : Op) (acts : list Action) :
  drive fuel path p channel db op (acts, None) = Some acts.
Proof. now destruct fuel. Qed.

Lemma drive_failing (path : Path) (p : Platform) (channel : bool)
    (db : Z -> Settled Results) (op : Op) (err : Z -> Error) (r : Z) (n : nat) :
  op_retries op = integer r ->
  forall (fuel : nat) (k : Z) (pre : list Action) (le : option Error),
    (forall j, 1 <= j <= r -> db j = inr (err j)) ->
    1 <= k -> k + Z.of_nat n = r -> (2 * n + 1 <= fuel)%nat ->
    drive fuel path p channel db op
      (pre ++ [AQuery k],
       Some {| attempt := k; phase := AwaitQuery; lastError := le |}) =
    Some (pre ++ concat (map (failed_round r err) (seqZ k (Z.of_nat n))) ++
          [AQuery r; AWarn r r (err r); AReject (err r)]).
Proof.
  intros Hop. induction n as [|n IH]; intros fuel k pre le Hdb Hk Hn Hfuel.
  - assert (Hrk : r = k) by lia. clear Hn. subst r.
    destruct fuel as [|fuel]; [lia|]. simpl.
    assert (Hres : resume path p channel db op
                     {| attempt := k; phase := AwaitQuery; lastError := le |} =
                   ([AWarn k k (err k); AReject (err k)], None)).
    { unfold resume, thunk_query_done, fast_query_done, thunk_catch, thunk_head, fast_head.
      simpl. rewrite (Hdb k) by lia. rewrite !Hop, lt_num_integer, le_num_integer.
      replace (k <? k) with false by (symmetry; apply Z.ltb_ge; lia).
      replace (k + 1 <=? k) with false by (symmetry; apply Z.leb_gt; lia).
      now destruct path. }
    rewrite Hres, drive_done. now rewrite <- app_assoc.
  - destruct fuel as [|[|fuel]]; [lia | lia |].
    assert (Hlt : lt_num k (op_retries op) = true)
      by (rewrite Hop, lt_num_integer; apply Z.ltb_lt; lia).
    assert (Hle : le_num (k + 1) (op_retries op) = true)
      by (rewrite Hop, le_num_integer; apply Z.leb_le; lia).
    assert (Hres1 : resume path p channel db op
                      {| attempt := k; phase := AwaitQuery; lastError := le |} =
                    ([AWarn k r (err k); ASleep (backoff k)],
                     Some {| attempt := k; phase := AwaitBackoff;
                             lastError := Some (err k) |})).
    { unfold resume, thunk_query_done, fast_query_done, thunk_catch. simpl.
      rewrite (Hdb k) by lia. rewrite Hlt, Hop. now destruct path. }
    assert (Hres2 : resume path p channel db op
                      {| attempt := k; phase := AwaitBackoff;
                         lastError := Some (err k) |} =
                    ([AQuery (k + 1)],
                     Some {| attempt := k + 1; phase := AwaitQuery;
                             lastError := Some (err k) |})).
    { unfold resume, thunk_backoff_done, fast_backoff_done, thunk_head, fast_head.
      simpl. rewrite Hle. now destruct path. }
    cbn [drive]. rewrite Hres1. cbn [drive]. rewrite Hres2.
    replace ((pre ++ [AQuery k]) ++ [AWarn k r (err k); ASleep (backoff k)])
      with (pre ++ failed_round r err k)
      by (unfold failed_round, backoff; now rewrite <- app_assoc).
    rewrite (IH fuel (k + 1) _ (Some (err k)) Hdb) by lia.
    replace (Z.of_nat (S n)) with (Z.succ (Z.of_nat n)) by lia.
    rewrite (seqZ_cons k) by lia. simpl.
    replace (Z.pred (Z.succ (Z.of_nat n))) with (Z.of_nat n) by lia.
    replace (Z.succ k) with (k + 1) by lia.
    now rewrite <- !app_assoc.
Qed.

(** The whole of a call whose query fails every time, when [retries] is
    the integer [r], at least 1. *)
Lemma run_call_all_attempts_fail (path : Path) (p : Platform) (channel : bool)
    (db : Z -> Settled Results) (op : Op) (err : Z -> Error) (r : Z) (fuel : nat) :
  op_retries op = integer r ->
  1 <= r ->
  (forall k, 1 <= k <= r -> db k = inr (err k)) ->
  (2 * Z.to_nat r <= fuel)%nat ->
  run_call fuel path p channel db op = Some (all_attempts_fail r err).
Proof.
  intros Hop Hr Hdb Hfuel. unfold run_call, all_attempts_fail.
  assert (Hhead : head_of path op 1 None =
                  ([] ++ [AQuery 1],
                   Some {| attempt := 1; phase := AwaitQuery; lastError := None |})).
  { assert (Hle : le_num 1 (op_retries op) = true)
      by (rewrite Hop, le_num_integer; apply Z.leb_le; lia).
    destruct path; unfold head_of, thunk_head, fast_head; now rewrite Hle. }
  rewrite Hhead.
  rewrite (drive_failing path p channel db op err r (Z.to_nat (r - 1)) Hop)
    by (try assumption; lia).
  simpl. now replace (Z.of_nat (Z.to_nat (r - 1))) with (r - 1) by lia.
Qed.

Lemma failed_rounds_read (r : Number) (err : Z -> Error) (ks : list Z) :
  let acts := concat (map (failed_round r err) ks) in
  attempts acts = ks /\
  waits acts = (fun k => 100 * 2 ^ (k - 1)) <$> ks /\
  settlements acts = [].
Proof.
  induction ks as [|k ks (IH1 & IH2 & IH3)]; simpl; [done|].
  unfold attempts, waits, settlements in *. simpl.
  rewrite IH1, IH2. repeat split.
  rewrite !filter_cons_False by (simpl; discriminate). exact IH3.
Qed.

(** ** The queue: invariants of the event loop *)

Lemma serial_app (o : option (Op * bool)) (t1 t2 : list Event) :
  serial o (t1 ++ t2) = serial o t1 ≫= fun o' => serial o' t2.
Proof.
  revert o. induction t1 as [|e t1 IH]; intros o; simpl; [reflexivity|].
  destruct (scan o e); simpl; [apply IH | reflexivity].
Qed.

Lemma serial_did_queued (op : Op) (b : bool) (acts : list Action) :
  serial (Some (op, b)) (did Queued op acts) =
  (fun b' => Some (op, b')) <$> settle_fold b acts.
Proof.
  revert b. induction acts as [|a acts IH]; intros b; simpl; [reflexivity|].
  rewrite decide_True by reflexivity.
  destruct (b && is_settling a); [reflexivity | apply IH].
Qed.

Lemma serial_did_fast (o : option (Op * bool)) (op : Op) (acts : list Action) :
  serial o (did Fast op acts) = Some o.
Proof. induction acts as [|a acts IH]; simpl; [reflexivity | exact IH]. Qed.

Lemma thunk_head_result (op : Op) (acts : list Action) (l' : option Loop) :
  thunk_head op 1 None = (acts, l') -> thunk_result op acts l' false.
Proof.
  unfold thunk_head, thunk_result, loop_ok. intros H.
  destruct (le_num 1 (op_retries op)) eqn:Hle; simplify_eq; simpl.
  - repeat split; (lia || discriminate || assumption).
  - split; [reflexivity|]. intros Hc. apply is_count_first in Hc. congruence.
Qed.

Lemma thunk_catch_result (op : Op) (l : Loop) (error : Error)
    (acts : list Action) (l' : option Loop) :
  loop_ok op l -> phase l = AwaitQuery ->
  thunk_catch op l error = (acts, l') ->
  exists b', thunk_result op acts l' b'.
Proof.
  unfold thunk_catch, thunk_head, thunk_result, loop_ok. intros (Hl & Hle & _) Hph H.
  destruct (lt_num (attempt l) (op_retries op)) eqn:Hlt.
  - simplify_eq. exists false. simpl. repeat split; auto.
  - rewrite (lt_num_false_succ _ _ Hlt) in H.
    simplify_eq. exists true. simpl. now split.
Qed.

Lemma thunk_query_done_result (p : Platform) (channel : bool) (op : Op) (l : Loop)
    (res : Settled Results) (acts : list Action) (l' : option Loop) :
  loop_ok op l -> phase l = AwaitQuery ->
  thunk_query_done p channel op l res = (acts, l') ->
  exists b', thunk_result op acts l' b'.
Proof.
  intros Hl Hph H. unfold thunk_query_done in H.
  destruct res as [result|error]; [|now apply (thunk_catch_result op l error)].
  destruct (isModifyingQuery (op_query op)).
  - pose proof (broadcastDatabaseChange_never_raises p channel (op_query op)
                  (op_broadcastTable op)) as Hnr.
    destruct (broadcastDatabaseChange p channel (op_query op) (op_broadcastTable op))
      as [effs [[]|e]]; [|discriminate].
    simplify_eq. exists true. split; [reflexivity | done].
  - simplify_eq. exists true. split; [reflexivity | done].
Qed.

Lemma thunk_backoff_done_result (op : Op) (l : Loop)
    (acts : list Action) (l' : option Loop) :
  loop_ok op l -> phase l = AwaitBackoff ->
  thunk_backoff_done op l = (acts, l') ->
  thunk_result op acts l' false.
Proof.
  unfold thunk_backoff_done, thunk_head, thunk_result, loop_ok.
  intros (Hl & _ & Hb) Hph H. specialize (Hb Hph).
  destruct (le_num (attempt l + 1) (op_retries op)) eqn:Hle; simplify_eq; simpl.
  - repeat split; (lia || discriminate || assumption).
  - split; [reflexivity|]. intros Hc.
    rewrite (is_count_next _ _ Hc Hb) in Hle. discriminate.
Qed.

Lemma exclusive_initial (channel : bool) : exclusive (initial channel).
Proof.
  split; [|constructor]. exists None. split; [reflexivity|].
  split; [reflexivity|]. intros id op l. simpl. now rewrite lookup_empty.
Qed.

(** [in_flight] looks at the flag, the tasks and the call counter only. *)
Lemma in_flight_frame (s s' : State) (o : option (Op * bool)) :
  isTransactionInProgress s' = isTransactionInProgress s ->
  tasks s' = tasks s ->
  (next_id s <= next_id s')%nat ->
  in_flight s o -> in_flight s' o.
Proof.
  intros Hf Ht Hn. unfold in_flight. rewrite Hf, Ht.
  destruct o as [[op b]|]; [|done].
  intros (? & ? & ? & ?). repeat split; try done. lia.
Qed.

(** Storing or dropping a coroutine of the fast path leaves the operation
    in flight alone. *)
Lemma in_flight_set_direct (s : State) (o : option (Op * bool)) (id : nat)
    (t : option Task) (evs : list Event) :
  (forall op l, t <> Some (Processing op l)) ->
  (forall op l, tasks s !! id <> Some (Processing op l)) ->
  in_flight s o -> in_flight (set_task s id t evs) o.
Proof.
  intros Ht Hid. unfold in_flight, set_task. simpl.
  assert (Hlook : forall id' op l,
            match t with
            | Some t => <[id := t]> (tasks s)
            | None => delete id (tasks s)
            end !! id' = Some (Processing op l) ->
            id' <> id /\ tasks s !! id' = Some (Processing op l)).
  { intros id' op l. destruct (decide (id' = id)) as [->|Hne].
    - destruct t; [rewrite lookup_insert_eq | rewrite lookup_delete_eq];
        [|discriminate]. intros [= ->]. now destruct (Ht op l).
    - destruct t; [rewrite lookup_insert_ne | rewrite lookup_delete_ne]; auto. }
  destruct o as [[op b]|].
  - intros (Hf & Hlt & Huniq & l & Hl & Hcond). repeat split; try done.
    + intros id' op' l' H. apply Hlook in H as [_ H]. eauto.
    + exists l. split; [|done].
      assert (op_id op <> id) by (intros <-; now destruct (Hid op l)).
      destruct t; [rewrite lookup_insert_ne | rewrite lookup_delete_ne]; auto.
  - intros [Hf Hnone]. split; [done|]. intros id' op l H.
    apply Hlook in H as [_ H]. now destruct (Hnone id' op l).
Qed.

Lemma in_flight_fresh (s : State) (o : option (Op * bool)) (op : Op) (l : option Loop) :
  in_flight s o -> tasks s !! next_id s <> Some (Processing op l).
Proof.
  destruct o as [[op' b]|]; simpl.
  - intros (_ & Hlt & Huniq & _) H. apply Huniq in H. lia.
  - intros [_ Hnone]. apply Hnone.
Qed.

Lemma exclusive_processPendingTransactions (s : State) :
  exclusive s -> exclusive (processPendingTransactions s).
Proof.
  intros Hex. unfold processPendingTransactions.
  destruct (pendingTransactions s) as [|op rest] eqn:Hq; [exact Hex|].
  destruct (isTransactionInProgress s) eqn:Hflag; [exact Hex|].
  destruct Hex as [(o & Hser & Hfl) Hpend]. rewrite Hq in Hpend.
  destruct (thunk_head op 1 None) as [acts l] eqn:Hhead.
  destruct o as [[op' b]|]; [destruct Hfl as [Hfl _]; congruence|].
  destruct Hfl as [_ Hnone].
  destruct (thunk_head_result _ _ _ Hhead) as [Hfold Hcond].
  apply Forall_cons in Hpend as [Hop Hrest].
  split; [|exact Hrest]. exists (Some (op, false)). simpl. split.
  - rewrite serial_app, Hser. simpl. now rewrite serial_did_queued, Hfold.
  - repeat split; try done.
    + intros id op' l'. destruct (decide (id = op_id op)) as [->|Hne]; [done|].
      rewrite lookup_insert_ne by done. intros H. now destruct (Hnone id op' l').
    + exists l. now rewrite lookup_insert_eq.
Qed.

Lemma exclusive_executeQuery (s : State) (query : string) (params : list string)
    (config : option Config) (init : option Error) :
  exclusive s -> exclusive (executeQuery s query params config init).
Proof.
  intros [(o & Hser & Hfl) Hpend]. unfold executeQuery.
  assert (Hpend' : Forall (fun op => (op_id op < S (next_id s))%nat)
                     (pendingTransactions s))
    by (eapply Forall_impl; [exact Hpend | simpl; lia]).
  pose proof (fun op l => in_flight_fresh s o op l Hfl) as Hfresh.
  destruct init as [e|].
  - split; [|exact Hpend']. exists o. split.
    + simpl. rewrite serial_app, Hser. reflexivity.
    + apply in_flight_set_direct; [discriminate | exact Hfresh |].
      revert Hfl. apply in_flight_frame; simpl; (reflexivity || lia).
  - destruct (takes_fast_path query config).
    + destruct (fast_head (new_op s query params config) 1 None) as [acts l].
      split; [|exact Hpend']. exists o. split.
      * simpl. rewrite serial_app, Hser. simpl. apply serial_did_fast.
      * apply in_flight_set_direct; [now destruct l | exact Hfresh |].
        revert Hfl. apply in_flight_frame; simpl; (reflexivity || lia).
    + apply exclusive_processPendingTransactions. split.
      * exists o. split.
        -- simpl. rewrite serial_app, Hser. reflexivity.
        -- revert Hfl. apply in_flight_frame; simpl; (reflexivity || lia).
      * simpl. apply Forall_app. split; [exact Hpend'|].
        constructor; [simpl; lia | constructor].
Qed.

(** A resumption of the closure in flight. *)
Lemma exclusive_resume_processing (s : State) (id : nat) (op : Op) (l : Loop)
    (acts : list Action) (l' : option Loop) :
  exclusive s ->
  tasks s !! id = Some (Processing op (Some l)) ->
  (loop_ok op l -> exists b', thunk_result op acts l' b') ->
  exclusive (set_task s id (Some (Processing op l')) (did Queued op acts)).
Proof.
  intros [(o & Hser & Hfl) Hpend] Htask Hres. split; [|exact Hpend].
  destruct o as [[op0 b]|]; [|destruct Hfl as [_ Hnone]; now destruct (Hnone _ _ _ Htask)].
  destruct Hfl as (Hflag & Hlt & Huniq & l0 & Hl0 & Hcond).
  pose proof (Huniq _ _ _ Htask) as ->.
  rewrite Hl0 in Htask. injection Htask as <- ->.
  destruct Hcond as [Hok ->].
  destruct (Hres Hok) as (b' & Hfold & Hcond').
  exists (Some (op0, b')). split.
  - simpl. rewrite serial_app, Hser. simpl. now rewrite serial_did_queued, Hfold.
  - simpl. repeat split; try done.
    + intros id op' l''. destruct (decide (id = op_id op0)) as [->|Hne]; [done|].
      rewrite lookup_insert_ne by done. apply Huniq.
    + exists l'. now rewrite lookup_insert_eq.
Qed.

(** A resumption of a call on the fast path. *)
Lemma exclusive_resume_direct (s : State) (id : nat) (op : Op) (l : Loop)
    (acts : list Action) (l' : option Loop) :
  exclusive s ->
  tasks s !! id = Some (Direct op l) ->
  exclusive (set_task s id (Direct op <$> l') (did Fast op acts)).
Proof.
  intros [(o & Hser & Hfl) Hpend] Htask. split; [|exact Hpend].
  exists o. split.
  - simpl. rewrite serial_app, Hser. simpl. apply serial_did_fast.
  - apply in_flight_set_direct; [now destruct l' | congruence | exact Hfl].
Qed.

Lemma exclusive_finish (s : State) (id : nat) (op : Op) :
  exclusive s ->
  tasks s !! id = Some (Processing op None) ->
  exclusive (finish s id op).
Proof.
  intros [(o & Hser & Hfl) Hpend] Htask. split; [|exact Hpend].
  destruct o as [[op0 b]|]; [|destruct Hfl as [_ Hnone]; now destruct (Hnone _ _ _ Htask)].
  destruct Hfl as (Hflag & Hlt & Huniq & l0 & Hl0 & Hcond).
  pose proof (Huniq _ _ _ Htask) as ->.
  rewrite Hl0 in Htask. injection Htask as <- ->.
  exists None. split.
  - simpl. rewrite serial_app, Hser. simpl. rewrite decide_True by reflexivity.
    destruct (is_count (op_retries op0)) eqn:Hle; [|reflexivity].
    now rewrite (Hcond eq_refl).
  - split; [reflexivity|]. simpl. intros id op' l'.
    destruct (decide (id = op_id op0)) as [->|Hne].
    + now rewrite lookup_delete_eq.
    + rewrite lookup_delete_ne by done. intros H. apply Huniq in H. done.
Qed.

Lemma exclusive_step (s s' : State) (i : Input) :
  exclusive s -> step s i = Some s' -> exclusive s'.
Proof.
  intros Hex Hstep. destruct i as [query params config init| |id res p|id|id|];
    simpl in Hstep.
  - simplify_eq. now apply exclusive_executeQuery.
  - destruct (timers s) eqn:Ht; [discriminate|]. simplify_eq.
    apply exclusive_processPendingTransactions.
    destruct Hex as [(o & Hser & Hfl) Hpend]. split; [|exact Hpend].
    exists o. split; [exact Hser|]. revert Hfl. now apply in_flight_frame.
  - destruct (tasks s !! id) as [[op [l|]|op l]|] eqn:Htask; try discriminate;
      destruct (phase l) eqn:Hph; try discriminate.
    + destruct (thunk_query_done p (dbChannel s) op l res) as [acts l'] eqn:Hdone.
      simplify_eq. eapply exclusive_resume_processing; eauto.
      intros Hok. eapply thunk_query_done_result; eauto.
    + destruct (fast_query_done op l res) as [acts l'] eqn:Hdone.
      simplify_eq. eapply exclusive_resume_direct; eauto.
  - destruct (tasks s !! id) as [[op [l|]|op l]|] eqn:Htask; try discriminate;
      destruct (phase l) eqn:Hph; try discriminate.
    + destruct (thunk_backoff_done op l) as [acts l'] eqn:Hdone.
      simplify_eq. eapply exclusive_resume_processing; eauto.
      intros Hok. exists false. eapply thunk_backoff_done_result; eauto.
    + destruct (fast_backoff_done op l) as [acts l'] eqn:Hdone.
      simplify_eq. eapply exclusive_resume_direct; eauto.
  - destruct (tasks s !! id) as [[op [l|]|op l]|] eqn:Htask; try discriminate.
    simplify_eq. now apply exclusive_finish.
  - simplify_eq. destruct Hex as [(o & Hser & Hfl) Hpend]. split; [|constructor].
    exists o. split; [exact Hser|]. revert Hfl. now apply in_flight_frame.
Qed.

Lemma run_invariant (P : State -> Prop) :
  (forall s s' i, P s -> step s i = Some s' -> P s') ->
  forall inputs s s', P s -> run s inputs = Some s' -> P s'.
Proof.
  intros Hstep. induction inputs as [|i inputs IH]; simpl; intros s s' HP Hrun.
  - now simplify_eq.
  - destruct (step s i) as [s1|] eqn:Hs; [|discriminate]. eauto.
Qed.

Lemma exclusive_run (channel : bool) (inputs : list Input) (s : State) :
  run (initial channel) inputs = Some s -> exclusive s.
Proof. apply (run_invariant exclusive exclusive_step), exclusive_initial. Qed.

(** *** What a serial trace tells *)

Lemma settled_app (op : Op) (t1 t2 : list Event) :
  settled op (t1 ++ t2) = settled op t1 || settled op t2.
Proof. unfold settled, actions_of. now rewrite omap_app, existsb_app. Qed.

Lemma serial_snoc (o o2 : option (Op * bool)) (t : list Event) (e : Event) :
  serial o (t ++ [e]) = Some o2 ->
  exists o1, serial o t = Some o1 /\ scan o1 e = Some o2.
Proof.
  rewrite serial_app. destruct (serial o t) as [o1|]; simpl; [|discriminate].
  destruct (scan o1 e) as [o'|] eqn:Hscan; [|discriminate].
  intros [= <-]. eauto.
Qed.

(** In a serial trace, an operation that was started has finished, and has
    settled if its [retries] is a count of attempts, unless it is the open
    one. *)
Lemma serial_started (t : list Event) :
  forall o1, serial None t = Some o1 ->
  forall a, Started a ∈ t ->
    (Finished a ∈ t /\ (is_count (op_retries a) = true -> settled a t = true)) \/
    (exists b, o1 = Some (a, b) /\ (b = true -> settled a t = true)).
Proof.
  induction t as [|e t IH] using rev_ind; intros o1 Hser a Hin.
  - by apply elem_of_nil in Hin.
  - apply serial_snoc in Hser as (o' & Hser & Hscan).
    specialize (IH o' Hser a).
    assert (Hmono : forall x, x ∈ t -> x ∈ t ++ [e]) by (intros; set_solver).
    assert (Hset : settled a t = true -> settled a (t ++ [e]) = true)
      by (intros H; rewrite settled_app, H; reflexivity).
    apply elem_of_app in Hin as [Hin|Hin].
    + destruct (IH Hin) as [[Hfin Hs]|(b & -> & Hb)]; [left; split; auto|].
      destruct e as [op|op|[] op act|op|op|op err]; simpl in Hscan; simplify_eq;
        try (right; eexists; split; [reflexivity | auto]; fail).
      * destruct (decide (a = op)) as [->|]; [|discriminate].
        destruct (b && is_settling act) eqn:Hboth; [discriminate|]. simplify_eq.
        right. eexists. split; [reflexivity|]. intros Hor.
        rewrite settled_app. destruct b; [rewrite Hb by done; reflexivity|].
        simpl in Hor. unfold settled at 2. simpl.
        rewrite decide_True by reflexivity. simpl. rewrite Hor. apply orb_true_r.
      * destruct (decide (a = op)) as [->|]; [|discriminate].
        destruct (is_count (op_retries op) && negb b) eqn:Hchk; [discriminate|].
        left. split; [set_solver|]. intros Hr. apply Hset, Hb.
        rewrite Hr in Hchk. now destruct b.
    + apply list_elem_of_singleton in Hin as <-. simpl in Hscan.
      destruct o'; simplify_eq. right. eexists. split; [reflexivity | discriminate].
Qed.

(** No overlap: when an operation is started, every operation started
    before it has finished, and has settled if its [retries] is a count of
    attempts. *)
Lemma serial_no_overlap (tr t1 t2 : list Event) (b : Op) (o : option (Op * bool)) :
  serial None tr = Some o ->
  tr = t1 ++ Started b :: t2 ->
  forall a, Started a ∈ t1 ->
    Finished a ∈ t1 /\ (is_count (op_retries a) = true -> settled a t1 = true).
Proof.
  intros Hser -> a Hin. rewrite serial_app in Hser.
  destruct (serial None t1) as [o1|] eqn:H1; [|discriminate]. simpl in Hser.
  destruct o1; [discriminate|].
  destruct (serial_started t1 None H1 a Hin) as [H|(? & ? & _)]; [exact H | discriminate].
Qed.

(** The open operation has been started. *)
Lemma serial_open_started (t : list Event) :
  forall op b, serial None t = Some (Some (op, b)) -> Started op ∈ t.
Proof.
  induction t as [|e t IH] using rev_ind; intros op b Hser; [discriminate|].
  apply serial_snoc in Hser as (o' & Hser & Hscan).
  apply elem_of_app.
  destruct e as [op'|op'|[] op' act|op'|op'|op' err]; simpl in Hscan;
    try (simplify_eq; left; eapply IH; eauto; fail).
  - destruct o'; simplify_eq. right. apply list_elem_of_singleton. reflexivity.
  - destruct o' as [[op0 b0]|]; [|discriminate].
    destruct (decide (op0 = op')) as [->|]; [|discriminate].
    destruct (b0 && is_settling act); simplify_eq. left. eapply IH; eauto.
  - destruct o' as [[op0 b0]|]; [|discriminate].
    destruct (decide (op0 = op')) as [->|]; [|discriminate].
    destruct (is_count (op_retries op') && negb b0); discriminate.
Qed.

(** While an operation of the queue acts (issues a query, waits, settles)
    it is the open one: it has been started, and every other operation
    started before has finished. *)
Lemma serial_acts_alone (tr t1 t2 : list Event) (b : Op) (act : Action)
    (o : option (Op * bool)) :
  serial None tr = Some o ->
  tr = t1 ++ Did Queued b act :: t2 ->
  Started b ∈ t1 /\
  forall a, Started a ∈ t1 -> a <> b -> Finished a ∈ t1.
Proof.
  intros Hser ->. rewrite serial_app in Hser.
  destruct (serial None t1) as [o1|] eqn:H1; [|discriminate]. simpl in Hser.
  destruct o1 as [[op bb]|]; [|discriminate].
  destruct (decide (op = b)) as [->|]; [|discriminate].
  split; [eapply serial_open_started; eauto|].
  intros a Hin Hne.
  destruct (serial_started t1 _ H1 a Hin) as [[H _]|(? & ? & _)]; [exact H | congruence].
Qed.

(** *** First in, first out *)

Lemma pushed_app (t1 t2 : list Event) : pushed (t1 ++ t2) = pushed t1 ++ pushed t2.
Proof. apply omap_app. Qed.

Lemma started_app (t1 t2 : list Event) : started (t1 ++ t2) = started t1 ++ started t2.
Proof. apply omap_app. Qed.

Lemma pushed_did (path : Path) (op : Op) (acts : list Action) :
  pushed (did path op acts) = [].
Proof. induction acts; simpl; auto. Qed.

Lemma started_did (path : Path) (op : Op) (acts : list Action) :
  started (did path op acts) = [].
Proof. induction acts; simpl; auto. Qed.

Lemma processPendingTransactions_moves (s : State) :
  exists starts, queue_moves s (processPendingTransactions s) [] starts.
Proof.
  unfold processPendingTransactions, queue_moves.
  destruct (pendingTransactions s) as [|op rest] eqn:Hq.
  { exists []. rewrite Hq, ?app_nil_r. repeat split; auto; constructor. }
  destruct (isTransactionInProgress s).
  { exists []. rewrite Hq, ?app_nil_r. repeat split; auto; constructor. }
  destruct (thunk_head op 1 None) as [acts l]. exists [op]. simpl.
  rewrite pushed_app, started_app. simpl. rewrite pushed_did, started_did.
  rewrite ?app_nil_r. repeat split; auto; constructor.
Qed.

Lemma step_moves (s s' : State) (i : Input) :
  step s i = Some s' -> i <> ICleanup ->
  exists new starts, queue_moves s s' new starts.
Proof.
  intros Hstep Hi.
  assert (Hsame : forall evs id t,
            pushed evs = [] -> started evs = [] ->
            queue_moves s (set_task s id t evs) [] []).
  { intros evs id t Hp Hs. unfold queue_moves. simpl.
    rewrite pushed_app, started_app, Hp, Hs, ?app_nil_r. repeat split; auto; constructor. }
  destruct i as [query params config init| |id res p|id|id|]; simpl in Hstep;
    [| | | | |done].
  - simplify_eq. unfold executeQuery. destruct init as [e|].
    { exists [], []. unfold queue_moves. simpl.
      rewrite pushed_app, started_app, ?app_nil_r. simpl. rewrite ?app_nil_r.
      repeat split; auto; constructor. }
    destruct (takes_fast_path query config).
    { destruct (fast_head _ 1 None) as [acts l]. exists [], []. unfold queue_moves. simpl.
      rewrite pushed_app, started_app. simpl. rewrite pushed_did, started_did, ?app_nil_r.
      repeat split; auto; constructor. }
    match goal with |- context [processPendingTransactions ?s0] =>
      destruct (processPendingTransactions_moves s0) as (starts & Hp & Hs & Hq & Hn & _ & _)
    end.
    simpl in *. rewrite pushed_app, app_nil_r in Hp. rewrite started_app in Hs.
    simpl in *. rewrite app_nil_r in Hs, Hq.
    exists [new_op s query params config], starts. unfold queue_moves.
    repeat split; auto; try lia.
    simpl. apply NoDup_singleton.
  - destruct (timers s); [discriminate|]. simplify_eq.
    match goal with |- context [processPendingTransactions ?s0] =>
      destruct (processPendingTransactions_moves s0) as (starts & Hm)
    end.
    exists [], starts. exact Hm.
  - destruct (tasks s !! id) as [[op [l|]|op l]|]; try discriminate;
      destruct (phase l); try discriminate.
    + destruct (thunk_query_done _ _ _ _ _) as [acts l']. simplify_eq.
      exists [], []. apply Hsame; [apply pushed_did | apply started_did].
    + destruct (fast_query_done _ _ _) as [acts l']. simplify_eq.
      exists [], []. apply Hsame; [apply pushed_did | apply started_did].
  - destruct (tasks s !! id) as [[op [l|]|op l]|]; try discriminate;
      destruct (phase l); try discriminate.
    + destruct (thunk_backoff_done _ _) as [acts l']. simplify_eq.
      exists [], []. apply Hsame; [apply pushed_did | apply started_did].
    + destruct (fast_backoff_done _ _) as [acts l']. simplify_eq.
      exists [], []. apply Hsame; [apply pushed_did | apply started_did].
  - destruct (tasks s !! id) as [[op [l|]|op l]|]; try discriminate.
    simplify_eq. exists [], []. unfold queue_moves. simpl.
    rewrite pushed_app, started_app, ?app_nil_r. simpl. rewrite ?app_nil_r.
    repeat split; auto; constructor.
Qed.

Lemma fifo_step (s s' : State) (i : Input) :
  fifo s -> step s i = Some s' -> fifo s'.
Proof.
  intros (Hsub & Hfresh & Hnd) Hstep.
  assert (i = ICleanup \/ i <> ICleanup) as [->|Hi]
    by (destruct i; (by left) || (by right)).
  { simpl in Hstep. simplify_eq. unfold fifo. simpl. split; [|by split].
    rewrite app_nil_r. etrans; [|exact Hsub]. by apply sublist_inserts_r. }
  destruct (step_moves s s' i Hstep Hi)
    as (new & starts & Hp & Hs & Hq & Hn & Hnew & Hndnew).
  unfold fifo. rewrite Hp, Hs. repeat split.
  - rewrite <- app_assoc, <- Hq, app_assoc. now apply sublist_app.
  - apply Forall_app. split.
    + eapply Forall_impl; [exact Hfresh | simpl; lia].
    + eapply Forall_impl; [exact Hnew | simpl; lia].
  - rewrite fmap_app. apply NoDup_app. repeat split; [exact Hnd | |].
    + intros x Hx1 Hx2.
      apply list_elem_of_fmap in Hx1 as (op1 & -> & Hop1).
      apply list_elem_of_fmap in Hx2 as (op2 & Heq & Hop2).
      rewrite Forall_forall in Hfresh, Hnew.
      specialize (Hfresh op1 Hop1). specialize (Hnew op2 Hop2). simpl in *. lia.
    + exact Hndnew.
Qed.

Lemma fifo_exact_step (s s' : State) (i : Input) :
  i <> ICleanup -> fifo_exact s -> step s i = Some s' -> fifo_exact s'.
Proof.
  intros Hi Hex Hstep.
  destruct (step_moves s s' i Hstep Hi) as (new & starts & Hp & Hs & Hq & _).
  unfold fifo_exact in *. now rewrite Hp, Hs, <- Hex, <- !app_assoc, Hq.
Qed.

Lemma fifo_run (channel : bool) (inputs : list Input) (s : State) :
  run (initial channel) inputs = Some s -> fifo s.
Proof.
  apply (run_invariant fifo fifo_step). repeat split; simpl; constructor.
Qed.

Lemma fifo_exact_run (inputs : list Input) :
  forall s s', Forall (fun i => i <> ICleanup) inputs ->
    fifo_exact s -> run s inputs = Some s' -> fifo_exact s'.
Proof.
  induction inputs as [|i inputs IH]; simpl; intros s s' Hno Hex Hrun.
  - now simplify_eq.
  - apply Forall_cons in Hno as [Hi Hno].
    destruct (step s i) as [s1|] eqn:Hs; [|discriminate].
    apply (IH s1 s' Hno); [|exact Hrun]. exact (fifo_exact_step s s1 i Hi Hex Hs).
Qed.

(** *** The queue does not stall *)

Lemma processPendingTransactions_keeps_going (s : State) :
  let s' := processPendingTransactions s in
  pendingTransactions s' <> [] -> isTransactionInProgress s' = true.
Proof.
  unfold processPendingTransactions.
  destruct (pendingTransactions s) as [|op rest] eqn:Hq; simpl; [congruence|].
  destruct (isTransactionInProgress s) eqn:Hf; [auto|].
  now destruct (thunk_head op 1 None).
Qed.

Lemma keeps_going_step (s s' : State) (i : Input) :
  keeps_going s -> step s i = Some s' -> keeps_going s'.
Proof.
  intros Hk Hstep.
  destruct i as [query params config init| |id res p|id|id|]; simpl in Hstep.
  - simplify_eq. unfold executeQuery. destruct init as [e|]; [exact Hk|].
    destruct (takes_fast_path query config).
    + destruct (fast_head _ 1 None). exact Hk.
    + intros H. left. now apply processPendingTransactions_keeps_going.
  - destruct (timers s); [discriminate|]. simplify_eq.
    intros H. left. now apply processPendingTransactions_keeps_going.
  - destruct (tasks s !! id) as [[op [l|]|op l]|]; try discriminate;
      destruct (phase l); try discriminate.
    + destruct (thunk_query_done _ _ _ _ _). simplify_eq. exact Hk.
    + destruct (fast_query_done _ _ _). simplify_eq. exact Hk.
  - destruct (tasks s !! id) as [[op [l|]|op l]|]; try discriminate;
      destruct (phase l); try discriminate.
    + destruct (thunk_backoff_done _ _). simplify_eq. exact Hk.
    + destruct (fast_backoff_done _ _). simplify_eq. exact Hk.
  - destruct (tasks s !! id) as [[op [l|]|op l]|]; try discriminate.
    simplify_eq. intros _. right. simpl. lia.
  - simplify_eq. intros H. now simpl in H.
Qed.

Lemma keeps_going_run (channel : bool) (inputs : list Input) (s : State) :
  run (initial channel) inputs = Some s -> keeps_going s.
Proof. apply (run_invariant keeps_going keeps_going_step). now intros H. Qed.

(** ** Draining the queue *)

Lemma drive_acc (fuel : nat) (path : Path) (p : Platform) (channel : bool)
    (db : Z -> Settled Results) (op : Op) :
  forall acts0 l,
    drive fuel path p channel db op (acts0, l) =
    (fun acts => acts0 ++ acts) <$> drive fuel path p channel db op ([], l).
Proof.
  induction fuel as [|fuel IH]; intros acts0 [l|]; simpl;
    try reflexivity; try (now rewrite app_nil_r).
  destruct (resume path p channel db op l) as [acts' l'].
  rewrite (IH (acts0 ++ acts')), (IH acts').
  destruct (drive fuel path p channel db op ([], l')); simpl; [|reflexivity].
  now rewrite app_assoc.
Qed.

Lemma loop_ok_floor (op : Op) (l : Loop) :
  finite (op_retries op) = true -> loop_ok op l -> attempt l <= floor (op_retries op).
Proof.
  intros Hfin (_ & Hle & _). rewrite (le_num_floor _ _ Hfin) in Hle.
  now apply Z.leb_le.
Qed.

Lemma resume_progress (p : Platform) (channel : bool) (db : Z -> Settled Results)
    (op : Op) (l : Loop) (acts : list Action) (l' : option Loop) :
  finite (op_retries op) = true ->
  loop_ok op l ->
  resume Queued p channel db op l = (acts, l') ->
  match l' with
  | None => True
  | Some l'' => loop_ok op l'' /\ ahead op l'' < ahead op l
  end.
Proof.
  intros Hfin Hok H. pose proof (loop_ok_floor _ _ Hfin Hok) as Hfl.
  destruct Hok as (Hl & Hle & Hb). unfold resume in H. destruct (phase l) eqn:Hph.
  - assert (Hcatch : forall e acts l', thunk_catch op l e = (acts, l') ->
              match l' with
              | None => True
              | Some l'' => loop_ok op l'' /\ ahead op l'' < ahead op l
              end).
    { clear H acts l'. intros e acts l' H. unfold thunk_catch, thunk_head in H.
      destruct (lt_num (attempt l) (op_retries op)) eqn:Hlt.
      - simplify_eq. unfold loop_ok, ahead. simpl.
        rewrite Hph. repeat split; auto; lia.
      - rewrite (lt_num_false_succ _ _ Hlt) in H. now simplify_eq. }
    unfold thunk_query_done in H. destruct (db (attempt l)) as [result|error];
      [|exact (Hcatch _ _ _ H)].
    destruct (isModifyingQuery (op_query op)); [|now simplify_eq].
    destruct (broadcastDatabaseChange _ _ _ _) as [effs [[]|e]]; [now simplify_eq|].
    destruct (thunk_catch op l e) as [acts' l''] eqn:Hc. simplify_eq.
    exact (Hcatch _ _ _ Hc).
  - specialize (Hb eq_refl). unfold thunk_backoff_done, thunk_head in H.
    destruct (le_num (attempt l + 1) (op_retries op)) eqn:Hle1; simplify_eq; [|exact I].
    unfold loop_ok, ahead. simpl. rewrite Hph.
    split; [|lia]. split; [lia|]. split; [exact Hle1 | discriminate].
Qed.

(** A closure on its own always comes to its end, when its [retries] is
    finite. *)
Lemma drive_terminates (p : Platform) (channel : bool) (db : Z -> Settled Results)
    (op : Op) (fuel : nat) :
  finite (op_retries op) = true ->
  forall l, loop_ok op l -> ahead op l <= Z.of_nat fuel ->
    is_Some (drive fuel Queued p channel db op ([], Some l)).
Proof.
  intros Hfin. induction fuel as [|fuel IH]; intros l Hok Hfuel.
  - pose proof (loop_ok_floor _ _ Hfin Hok) as Hfl. unfold ahead in Hfuel.
    destruct (phase l); lia.
  - simpl. destruct (resume Queued p channel db op l) as [acts l'] eqn:Hres.
    pose proof (resume_progress _ _ _ _ _ _ _ Hfin Hok Hres) as Hprog.
    rewrite drive_acc. destruct l' as [l'|].
    + destruct Hprog as [Hok' Hlt].
      destruct (IH l' Hok') as [acts' ->]; [lia | by eexists].
    + rewrite drive_done. by eexists.
Qed.

Lemma run_call_terminates (p : Platform) (channel : bool) (db : Z -> Settled Results)
    (op : Op) :
  finite (op_retries op) = true ->
  is_Some (run_call (fuel_of op) Queued p channel db op).
Proof.
  intros Hfin.
  unfold run_call. simpl. destruct (thunk_head op 1 None) as [acts l] eqn:Hhead.
  rewrite drive_acc. destruct l as [l|]; [|rewrite drive_done; by eexists].
  destruct (thunk_head_result _ _ _ Hhead) as [_ [Hok _]].
  destruct (drive_terminates p channel db op (fuel_of op) Hfin l Hok) as [acts' ->];
    [|by eexists].
  pose proof (loop_ok_floor _ _ Hfin Hok) as Hfl.
  unfold thunk_head in Hhead. destruct (le_num 1 (op_retries op)); simplify_eq.
  unfold ahead, fuel_of. simpl in *. lia.
Qed.

(** Running the closure in flight to its end: the trace gains what the
    closure does and the end of the operation, the flag is cleared and one
    turn is scheduled. *)
Lemma drive_inputs_run (p : Platform) (db : Z -> Settled Results) (op : Op)
    (fuel : nat) :
  forall (s : State) (l : option Loop) (acts : list Action),
    tasks s !! op_id op = Some (Processing op l) ->
    drive fuel Queued p (dbChannel s) db op ([], l) = Some acts ->
    run s (drive_inputs fuel p (dbChannel s) db op l) =
    Some {| dbChannel := dbChannel s;
            isTransactionInProgress := false;
            pendingTransactions := pendingTransactions s;
            tasks := delete (op_id op) (tasks s);
            timers := S (timers s);
            next_id := next_id s;
            trace := trace s ++ did Queued op acts ++ [Finished op] |}.
Proof.
  induction fuel as [|fuel IH]; intros s l acts Htask Hdrive.
  - destruct l as [l|]; [discriminate|]. simpl in *. simplify_eq.
    now rewrite Htask.
  - destruct l as [l|]; [|simpl in *; simplify_eq; now rewrite Htask].
    simpl in Hdrive.
    destruct (resume Queued p (dbChannel s) db op l) as [acts' l'] eqn:Hres.
    rewrite drive_acc in Hdrive.
    destruct (drive fuel Queued p (dbChannel s) db op ([], l')) as [acts''|] eqn:Hd;
      [|discriminate].
    simpl in Hdrive. simplify_eq.
    cbn [drive_inputs]. rewrite Hres. cbn [snd run].
    assert (Hstep : step s match phase l with
                           | AwaitQuery => IQuery (op_id op) (db (attempt l)) p
                           | AwaitBackoff => IBackoff (op_id op)
                           end =
                    Some (set_task s (op_id op) (Some (Processing op l'))
                            (did Queued op acts'))).
    { unfold resume in Hres. destruct (phase l) eqn:Hph; simpl;
        rewrite Htask, Hph, Hres; reflexivity. }
    rewrite Hstep.
    pose proof (IH (set_task s (op_id op) (Some (Processing op l')) (did Queued op acts'))
                  l' acts'') as HIH.
    cbn [set_task dbChannel tasks pendingTransactions timers next_id trace] in HIH.
    rewrite HIH; [|apply lookup_insert_eq | exact Hd].
    rewrite delete_insert_eq. unfold did. rewrite map_app, <- !app_assoc.
    reflexivity.
Qed.

Lemma run_app (s : State) (i1 i2 : list Input) :
  run s (i1 ++ i2) = run s i1 ≫= fun s' => run s' i2.
Proof.
  revert s. induction i1 as [|i i1 IH]; intros s; simpl; [reflexivity|].
  destruct (step s i); simpl; [apply IH | reflexivity].
Qed.

(** One turn of the queue: the timer fires, the head of the queue is
    started and runs to its end, doing what it does on its own. *)
Lemma turn_run_fuel (p : Platform) (db : Z -> Settled Results) (s : State)
    (op : Op) (rest : list Op) (t fuel : nat) (all : list Action) :
  isTransactionInProgress s = false ->
  pendingTransactions s = op :: rest ->
  timers s = S t ->
  run_call fuel Queued p (dbChannel s) db op = Some all ->
  run s (ITimer :: drive_inputs fuel p (dbChannel s) db op (snd (thunk_head op 1 None))) =
  Some {| dbChannel := dbChannel s;
          isTransactionInProgress := false;
          pendingTransactions := rest;
          tasks := delete (op_id op) (tasks s);
          timers := S t;
          next_id := next_id s;
          trace := trace s ++ Started op :: did Queued op all ++ [Finished op] |}.
Proof.
  intros Hflag Hq Ht Hall. cbn [run step]. rewrite Ht.
  unfold processPendingTransactions. cbn [pendingTransactions isTransactionInProgress].
  rewrite Hq, Hflag. unfold run_call in Hall. cbn [head_of] in Hall.
  destruct (thunk_head op 1 None) as [acts0 l0] eqn:Hhead.
  rewrite drive_acc in Hall.
  destruct (drive fuel Queued p (dbChannel s) db op ([], l0)) as [acts|] eqn:Hd;
    [|discriminate].
  simpl in Hall. simplify_eq.
  cbn [snd dbChannel tasks pendingTransactions timers next_id trace
       isTransactionInProgress].
  match goal with |- run ?s1 _ = _ =>
    pose proof (drive_inputs_run p db op fuel s1 l0 acts) as Hrun
  end.
  cbn [dbChannel tasks pendingTransactions timers next_id trace] in Hrun.
  rewrite Hrun; [|apply lookup_insert_eq | exact Hd].
  rewrite delete_insert_eq. unfold did. rewrite map_app, <- !app_assoc. reflexivity.
Qed.

Lemma turn_run (p : Platform) (db : Op -> Z -> Settled Results) (s : State)
    (op : Op) (rest : list Op) (t : nat) :
  finite (op_retries op) = true ->
  isTransactionInProgress s = false ->
  pendingTransactions s = op :: rest ->
  timers s = S t ->
  run s (ITimer :: turn_inputs p (dbChannel s) db op) =
  Some {| dbChannel := dbChannel s;
          isTransactionInProgress := false;
          pendingTransactions := rest;
          tasks := delete (op_id op) (tasks s);
          timers := S t;
          next_id := next_id s;
          trace := trace s ++ block p (dbChannel s) db op |}.
Proof.
  intros Hfin Hflag Hq Ht. unfold turn_inputs, block, solo.
  destruct (run_call_terminates p (dbChannel s) (db op) op Hfin) as [all Hall].
  rewrite Hall. now apply turn_run_fuel.
Qed.

Lemma direct_inputs_run (p : Platform) (channel : bool) (db : Z -> Settled Results)
    (op : Op) (fuel : nat) :
  forall (s : State) (l : option Loop) (acts : list Action),
    tasks s !! op_id op = Direct op <$> l ->
    drive fuel Fast p channel db op ([], l) = Some acts ->
    run s (direct_inputs fuel p channel db op l) =
    Some {| dbChannel := dbChannel s;
            isTransactionInProgress := isTransactionInProgress s;
            pendingTransactions := pendingTransactions s;
            tasks := delete (op_id op) (tasks s);
            timers := timers s;
            next_id := next_id s;
            trace := trace s ++ did Fast op acts |}.
Proof.
  assert (Hdone : forall s, tasks s !! op_id op = None ->
            Some s = Some {| dbChannel := dbChannel s;
                             isTransactionInProgress := isTransactionInProgress s;
                             pendingTransactions := pendingTransactions s;
                             tasks := delete (op_id op) (tasks s);
                             timers := timers s;
                             next_id := next_id s;
                             trace := trace s ++ did Fast op [] |}).
  { intros s Hnone. rewrite (delete_id _ _ Hnone). simpl. rewrite app_nil_r.
    now destruct s. }
  induction fuel as [|fuel IH]; intros s l acts Htask Hdrive.
  - destruct l as [l|]; [discriminate|]. simpl in *. simplify_eq. now apply Hdone.
  - destruct l as [l|]; [|simpl in *; simplify_eq; now apply Hdone].
    simpl in Hdrive, Htask.
    destruct (resume Fast p channel db op l) as [acts' l'] eqn:Hres.
    rewrite drive_acc in Hdrive.
    destruct (drive fuel Fast p channel db op ([], l')) as [acts''|] eqn:Hd;
      [|discriminate].
    simpl in Hdrive. simplify_eq.
    cbn [direct_inputs]. rewrite Hres. cbn [snd run].
    assert (Hstep : step s match phase l with
                           | AwaitQuery => IQuery (op_id op) (db (attempt l)) p
                           | AwaitBackoff => IBackoff (op_id op)
                           end =
                    Some (set_task s (op_id op) (Direct op <$> l') (did Fast op acts'))).
    { unfold resume in Hres. destruct (phase l) eqn:Hph; simpl;
        rewrite Htask, Hph, Hres; reflexivity. }
    rewrite Hstep.
    pose proof (IH (set_task s (op_id op) (Direct op <$> l') (did Fast op acts'))
                  l' acts'') as HIH.
    cbn [set_task dbChannel tasks pendingTransactions timers next_id trace
         isTransactionInProgress] in HIH.
    rewrite HIH; [| |exact Hd].
    + unfold did. rewrite map_app, <- !app_assoc.
      destruct l'; simpl; [rewrite delete_insert_eq | rewrite delete_delete_eq];
        reflexivity.
    + destruct l'; simpl; [apply lookup_insert_eq | apply lookup_delete_eq].
Qed.

(** A call on the fast path, from [executeQuery] to its end. *)
Lemma fast_call_run (p : Platform) (db : Z -> Settled Results) (s : State)
    (query : string) (params : list string) (config : option Config)
    (fuel : nat) (all : list Action) :
  takes_fast_path query config = true ->
  let op := new_op s query params config in
  run_call fuel Fast p (dbChannel s) db op = Some all ->
  run s (ICall query params config None ::
         direct_inputs fuel p (dbChannel s) db op (snd (fast_head op 1 None))) =
  Some {| dbChannel := dbChannel s;
          isTransactionInProgress := isTransactionInProgress s;
          pendingTransactions := pendingTransactions s;
          tasks := delete (next_id s) (tasks s);
          timers := timers s;
          next_id := S (next_id s);
          trace := trace s ++ Bypassed op :: did Fast op all |}.
Proof.
  intros Hfast op Hall. cbn [run step]. unfold executeQuery. rewrite Hfast.
  fold op. unfold run_call in Hall. cbn [head_of] in Hall.
  destruct (fast_head op 1 None) as [acts0 l0] eqn:Hhead.
  rewrite drive_acc in Hall.
  destruct (drive fuel Fast p (dbChannel s) db op ([], l0)) as [acts|] eqn:Hd;
    [|discriminate].
  simpl in Hall. simplify_eq. cbn [snd].
  match goal with |- run ?s1 _ = _ =>
    pose proof (direct_inputs_run p (dbChannel s) db op fuel s1 l0 acts) as Hrun
  end.
  cbn [set_task dbChannel tasks pendingTransactions timers next_id trace
       isTransactionInProgress] in Hrun.
  cbn [set_task dbChannel tasks pendingTransactions timers next_id trace
       isTransactionInProgress].
  rewrite Hrun; [| |exact Hd].
  - unfold did. rewrite map_app, <- !app_assoc. simpl.
    destruct l0; simpl; [rewrite delete_insert_eq | rewrite delete_delete_eq];
      reflexivity.
  - destruct l0; simpl; [apply lookup_insert_eq | apply lookup_delete_eq].
Qed.

(** The whole backlog, turn after turn. *)
Lemma drain_run (p : Platform) (db : Op -> Z -> Settled Results) (t : nat)
    (ops : list Op) :
  Forall (fun op => finite (op_retries op) = true) ops ->
  forall s : State,
    isTransactionInProgress s = false ->
    pendingTransactions s = ops ->
    timers s = S t ->
    tasks s = ∅ ->
    run s (drain_inputs p (dbChannel s) db ops) =
    Some {| dbChannel := dbChannel s;
            isTransactionInProgress := false;
            pendingTransactions := [];
            tasks := ∅;
            timers := S t;
            next_id := next_id s;
            trace := trace s ++ concat (map (block p (dbChannel s) db) ops) |}.
Proof.
  induction ops as [|op rest IH]; intros Hfin s Hflag Hq Ht Htasks.
  - simpl. rewrite app_nil_r. destruct s; simpl in *. now subst.
  - apply Forall_cons in Hfin as [Hop Hfin].
    unfold drain_inputs. cbn [map concat]. rewrite run_app.
    rewrite (turn_run p db s op rest t Hop Hflag Hq Ht). cbn [mbind option_bind].
    match goal with |- run ?s1 _ = _ => pose proof (IH Hfin s1) as HIH end.
    cbn [dbChannel tasks pendingTransactions timers next_id trace
         isTransactionInProgress] in HIH.
    unfold drain_inputs in HIH. rewrite HIH; try reflexivity.
    + now rewrite <- app_assoc.
    + rewrite Htasks. apply delete_empty.
Qed.

(** ** Calls are told apart: numbers and paths *)

Lemma elem_of_did (path : Path) (op : Op) (acts : list Action) (e : Event) :
  e ∈ did path op acts <-> exists a, e = Did path op a /\ a ∈ acts.
Proof.
  unfold did. rewrite list_elem_of_fmap. split; intros (a & H1 & H2); eauto.
Qed.

Lemma registered_extend (s s' : State) (evs : list Event) :
  registered s ->
  trace s' = trace s ++ evs ->
  (next_id s <= next_id s')%nat ->
  Forall (fun e => (op_id (event_op e) < next_id s')%nat) evs ->
  (forall op a, Did Queued op a ∈ evs -> le_num 1 (op_retries op) = true) ->
  (forall op a, Did Fast op a ∈ evs -> Pushed op ∉ trace s ++ evs) ->
  (forall op, Pushed op ∈ evs -> (next_id s <= op_id op)%nat) ->
  (forall id t, tasks s' !! id = Some t -> (op_id (task_op t) < next_id s')%nat) ->
  (forall id op l, tasks s' !! id = Some (Direct op l) -> Pushed op ∉ trace s ++ evs) ->
  registered s'.
Proof.
  intros (G1 & G2 & Z1 & Z2 & D) Htr Hn E1 E2 E3 E4 T1 T2.
  unfold registered. rewrite Htr. repeat split; auto.
  - apply Forall_app. split; [|exact E1].
    eapply Forall_impl; [exact G1 | simpl; lia].
  - intros op a Hin. apply elem_of_app in Hin as [Hin|Hin]; eauto.
  - intros op a Hin. apply elem_of_app in Hin as [Hin|Hin]; [|eauto].
    intros Hp. apply elem_of_app in Hp as [Hp|Hp]; [exact (Z2 _ _ Hin Hp)|].
    apply E4 in Hp. rewrite Forall_forall in G1. specialize (G1 _ Hin). simpl in G1. lia.
Qed.

Lemma thunk_head_acts (op : Op) (acts : list Action) (l : option Loop) (a : Action) :
  thunk_head op 1 None = (acts, l) -> a ∈ acts -> le_num 1 (op_retries op) = true.
Proof.
  unfold thunk_head. destruct (le_num 1 (op_retries op)) eqn:Hle; intros; simplify_eq.
  - reflexivity.
  - by apply elem_of_nil in H0.
Qed.

Lemma registered_processPendingTransactions (s : State) :
  Forall (fun op => (op_id op < next_id s)%nat) (pendingTransactions s) ->
  registered s -> registered (processPendingTransactions s).
Proof.
  intros Hpend Hreg. unfold processPendingTransactions.
  destruct (pendingTransactions s) as [|op rest] eqn:Hq; [exact Hreg|].
  destruct (isTransactionInProgress s); [exact Hreg|].
  destruct (thunk_head op 1 None) as [acts l] eqn:Hhead.
  apply Forall_cons in Hpend as [Hop _].
  pose proof Hreg as (G1 & G2 & Z1 & Z2 & D).
  eapply (registered_extend s _ (Started op :: did Queued op acts));
    [exact Hreg | reflexivity | simpl; lia | | | | | |]; simpl.
  - constructor; [exact Hop|]. apply Forall_forall. intros e He.
    apply elem_of_did in He as (a & -> & _). exact Hop.
  - intros op' a Hin. apply elem_of_cons in Hin as [Hin|Hin]; [discriminate|].
    apply elem_of_did in Hin as (a' & Heq & Ha'). simplify_eq.
    eapply thunk_head_acts; eauto.
  - intros op' a Hin. apply elem_of_cons in Hin as [Hin|Hin]; [discriminate|].
    apply elem_of_did in Hin as (a' & Heq & _). discriminate.
  - intros op' Hin. apply elem_of_cons in Hin as [Hin|Hin]; [discriminate|].
    apply elem_of_did in Hin as (a' & Heq & _). discriminate.
  - intros id t. destruct (decide (id = op_id op)) as [->|Hne].
    + rewrite lookup_insert_eq. intros [= <-]. exact Hop.
    + rewrite lookup_insert_ne by done. apply G2.
  - intros id op' l'. destruct (decide (id = op_id op)) as [->|Hne].
    + rewrite lookup_insert_eq. discriminate.
    + rewrite lookup_insert_ne by done. intros Ht Hp.
      apply elem_of_app in Hp as [Hp|Hp]; [exact (D _ _ _ Ht Hp)|].
      apply elem_of_cons in Hp as [Hp|Hp]; [discriminate|].
      apply elem_of_did in Hp as (a' & Heq & _). discriminate.
Qed.

(** The trace does not yet speak of the call that is about to be made. *)
Lemma registered_fresh (s : State) (op : Op) (e : Event) :
  registered s -> (next_id s <= op_id op)%nat -> e ∈ trace s -> event_op e <> op.
Proof.
  intros (G1 & _) Hid Hin Heq. rewrite Forall_forall in G1.
  specialize (G1 _ Hin). simpl in G1. rewrite Heq in G1. lia.
Qed.

Lemma registered_executeQuery (s : State) (query : string) (params : list string)
    (config : option Config) (init : option Error) :
  exclusive s -> registered s -> registered (executeQuery s query params config init).
Proof.
  intros [_ Hpend] Hreg. pose proof Hreg as (G1 & G2 & Z1 & Z2 & D).
  unfold executeQuery. set (op := new_op s query params config).
  assert (Hop : op_id op = next_id s) by reflexivity.
  assert (Hnew : Pushed op ∉ trace s).
  { intros Hin. now apply (registered_fresh s op _ Hreg) in Hin; [|lia]. }
  assert (Hold : forall id t, tasks s !! id = Some t -> task_op t <> op).
  { intros id t Ht Heq. apply G2 in Ht. rewrite Heq in Ht. lia. }
  assert (Hdel : forall id t, delete (next_id s) (tasks s) !! id = Some t ->
                              tasks s !! id = Some t).
  { intros id t. destruct (decide (id = next_id s)) as [->|Hne].
    - now rewrite lookup_delete_eq.
    - now rewrite lookup_delete_ne. }
  destruct init as [e|]; [|destruct (takes_fast_path query config)].
  - eapply (registered_extend s _ [InitFailed op e; Did Fast op _]);
      [exact Hreg | reflexivity | simpl; lia | | | | | |]; simpl.
    + constructor; [simpl; lia|]. constructor; [simpl; lia | constructor].
    + intros op' a Hin. set_solver.
    + intros op' a Hin Hp. assert (op' = op) as -> by set_solver.
      apply elem_of_app in Hp as [Hp|Hp]; [done | set_solver].
    + intros op' Hin. set_solver.
    + intros id t Ht. apply Hdel, G2 in Ht. lia.
    + intros id op' l Ht Hp. apply Hdel in Ht.
      apply elem_of_app in Hp as [Hp|Hp]; [exact (D _ _ _ Ht Hp) | set_solver].
  - destruct (fast_head op 1 None) as [acts l].
    eapply (registered_extend s _ (Bypassed op :: did Fast op acts));
      [exact Hreg | reflexivity | simpl; lia | | | | | |]; simpl.
    + constructor; [simpl; lia|]. apply Forall_forall. intros x Hx.
      apply elem_of_did in Hx as (a & -> & _). simpl. lia.
    + intros op' a Hin. apply elem_of_cons in Hin as [Hin|Hin]; [discriminate|].
      apply elem_of_did in Hin as (a' & Heq & _). discriminate.
    + intros op' a Hin Hp. apply elem_of_cons in Hin as [Hin|Hin]; [discriminate|].
      apply elem_of_did in Hin as (a' & Heq & _). simplify_eq.
      apply elem_of_app in Hp as [Hp|Hp]; [done|].
      apply elem_of_cons in Hp as [Hp|Hp]; [discriminate|].
      apply elem_of_did in Hp as (a'' & Heq & _). discriminate.
    + intros op' Hin. apply elem_of_cons in Hin as [Hin|Hin]; [discriminate|].
      apply elem_of_did in Hin as (a' & Heq & _). discriminate.
    + intros id t Ht. destruct l as [l|]; simpl in Ht.
      * destruct (decide (id = next_id s)) as [->|Hne].
        -- rewrite lookup_insert_eq in Ht. simplify_eq. simpl. lia.
        -- rewrite lookup_insert_ne in Ht by done. apply G2 in Ht. lia.
      * apply Hdel, G2 in Ht. lia.
    + intros id op' l' Ht Hp.
      assert (Hnp : forall x, x ∈ Bypassed op :: did Fast op acts -> x <> Pushed op').
      { intros x Hx ->. apply elem_of_cons in Hx as [Hx|Hx]; [discriminate|].
        apply elem_of_did in Hx as (a' & Heq & _). discriminate. }
      apply elem_of_app in Hp as [Hp|Hp]; [|now apply Hnp in Hp].
      destruct l as [l|]; simpl in Ht.
      * destruct (decide (id = next_id s)) as [->|Hne].
        -- rewrite lookup_insert_eq in Ht. simplify_eq. done.
        -- rewrite lookup_insert_ne in Ht by done. exact (D _ _ _ Ht Hp).
      * apply Hdel in Ht. exact (D _ _ _ Ht Hp).
  - apply registered_processPendingTransactions.
    + simpl. apply Forall_app. split.
      * eapply Forall_impl; [exact Hpend | simpl; lia].
      * constructor; [simpl; lia | constructor].
    + eapply (registered_extend s _ [Pushed op]);
        [exact Hreg | reflexivity | simpl; lia | | | | | |]; simpl.
      * constructor; [simpl; lia | constructor].
      * intros op' a Hin. set_solver.
      * intros op' a Hin. set_solver.
      * intros op' Hin. assert (op' = op) as -> by set_solver. simpl. lia.
      * intros id t Ht. apply G2 in Ht. lia.
      * intros id op' l Ht Hp.
        apply elem_of_app in Hp as [Hp|Hp]; [exact (D _ _ _ Ht Hp)|].
        assert (op' = op) as -> by set_solver. exact (Hold _ _ Ht eq_refl).
Qed.

Lemma exclusive_loop_ok (s : State) (id : nat) (op : Op) (l : Loop) :
  exclusive s -> tasks s !! id = Some (Processing op (Some l)) -> loop_ok op l.
Proof.
  intros [(o & _ & Hfl) _] Htask.
  destruct o as [[op0 b]|]; [|destruct Hfl as [_ Hnone]; now destruct (Hnone _ _ _ Htask)].
  destruct Hfl as (_ & _ & Huniq & l0 & Hl0 & Hcond).
  pose proof (Huniq _ _ _ Htask) as ->. rewrite Hl0 in Htask. simplify_eq.
  now destruct Hcond.
Qed.

Lemma registered_resume (s : State) (id : nat) (path : Path) (op : Op)
    (told : Task) (tnew : option Task) (acts : list Action) :
  registered s ->
  tasks s !! id = Some told -> task_op told = op ->
  (forall t, tnew = Some t -> task_op t = op) ->
  match path with
  | Queued => le_num 1 (op_retries op) = true /\ (forall l, tnew <> Some (Direct op l))
  | Fast => exists l, told = Direct op l
  end ->
  registered (set_task s id tnew (did path op acts)).
Proof.
  intros Hreg Hold Hop Hnew Hpath. pose proof Hreg as (G1 & G2 & Z1 & Z2 & D).
  assert (Hlt : (op_id op < next_id s)%nat) by (rewrite <- Hop; eauto).
  clear Hop.
  assert (Hnp : forall op', Pushed op' ∉ did path op acts).
  { intros op' Hin. apply elem_of_did in Hin as (a & Heq & _). discriminate. }
  eapply (registered_extend s _ (did path op acts));
    [exact Hreg | reflexivity | simpl; lia | | | | | |]; simpl.
  - apply Forall_forall. intros e He. apply elem_of_did in He as (a & -> & _). exact Hlt.
  - intros op' a Hin. apply elem_of_did in Hin as (a' & Heq & _). simplify_eq.
    now destruct Hpath.
  - intros op' a Hin Hp. apply elem_of_did in Hin as (a' & Heq & _). simplify_eq.
    destruct Hpath as [l Htold]. subst told.
    apply elem_of_app in Hp as [Hp|Hp]; [exact (D _ _ _ Hold Hp) | exact (Hnp _ Hp)].
  - intros op' Hin. now apply Hnp in Hin.
  - intros id' t Ht. destruct (decide (id' = id)) as [->|Hne].
    + destruct tnew as [t'|]; [rewrite lookup_insert_eq in Ht | now rewrite lookup_delete_eq in Ht].
      simplify_eq. now rewrite (Hnew t eq_refl).
    + destruct tnew; [rewrite lookup_insert_ne in Ht | rewrite lookup_delete_ne in Ht];
        eauto.
  - intros id' op' l' Ht Hp.
    apply elem_of_app in Hp as [Hp|Hp]; [|exact (Hnp _ Hp)].
    destruct (decide (id' = id)) as [->|Hne].
    + destruct tnew as [t'|]; [rewrite lookup_insert_eq in Ht | now rewrite lookup_delete_eq in Ht].
      simplify_eq. pose proof (Hnew _ eq_refl) as Hsame. simpl in Hsame. subst op'.
      destruct path.
      * destruct Hpath as [_ Hnd]. now destruct (Hnd l').
      * destruct Hpath as [l Htold]. subst told. exact (D _ _ _ Hold Hp).
    + destruct tnew; [rewrite lookup_insert_ne in Ht | rewrite lookup_delete_ne in Ht];
        try done; exact (D _ _ _ Ht Hp).
Qed.

Lemma registered_finish (s : State) (id : nat) (op : Op) :
  registered s -> tasks s !! id = Some (Processing op None) ->
  registered (finish s id op).
Proof.
  intros Hreg Hold. pose proof Hreg as (G1 & G2 & Z1 & Z2 & D).
  assert (Hdel : forall id' t, delete id (tasks s) !! id' = Some t ->
                               tasks s !! id' = Some t).
  { intros id' t. destruct (decide (id' = id)) as [->|Hne].
    - now rewrite lookup_delete_eq.
    - now rewrite lookup_delete_ne. }
  eapply (registered_extend s _ [Finished op]);
    [exact Hreg | reflexivity | simpl; lia | | | | | |]; simpl.
  - constructor; [|constructor]. exact (G2 _ _ Hold).
  - intros op' a Hin. set_solver.
  - intros op' a Hin. set_solver.
  - intros op' Hin. set_solver.
  - intros id' t Ht. apply Hdel in Ht. eauto.
  - intros id' op' l' Ht Hp. apply Hdel in Ht.
    apply elem_of_app in Hp as [Hp|Hp]; [exact (D _ _ _ Ht Hp) | set_solver].
Qed.

Lemma sound_step (s s' : State) (i : Input) :
  sound s -> step s i = Some s' -> sound s'.
Proof.
  intros [Hex Hreg] Hstep. split; [exact (exclusive_step _ _ _ Hex Hstep)|].
  destruct i as [query params config init| |id res p|id|id|]; simpl in Hstep.
  - simplify_eq. now apply registered_executeQuery.
  - destruct (timers s) eqn:Ht; [discriminate|]. simplify_eq.
    apply registered_processPendingTransactions; [apply Hex | exact Hreg].
  - destruct (tasks s !! id) as [[op [l|]|op l]|] eqn:Htask; try discriminate;
      destruct (phase l) eqn:Hph; try discriminate.
    + destruct (thunk_query_done p (dbChannel s) op l res) as [acts l'] eqn:Hdone.
      simplify_eq.
      apply (registered_resume s id Queued op (Processing op (Some l))
               (Some (Processing op l')) acts Hreg Htask eq_refl);
        [by intros ? [= <-]|].
      split; [|discriminate].
      destruct (exclusive_loop_ok s id op l Hex Htask) as (? & ? & _).
      eapply le_num_mono; eauto.
    + destruct (fast_query_done op l res) as [acts l'] eqn:Hdone.
      simplify_eq.
      apply (registered_resume s id Fast op (Direct op l) (Direct op <$> l') acts
               Hreg Htask eq_refl); [|by eexists].
      intros t Ht. destruct l'; simpl in Ht; simplify_eq. reflexivity.
  - destruct (tasks s !! id) as [[op [l|]|op l]|] eqn:Htask; try discriminate;
      destruct (phase l) eqn:Hph; try discriminate.
    + destruct (thunk_backoff_done op l) as [acts l'] eqn:Hdone.
      simplify_eq.
      apply (registered_resume s id Queued op (Processing op (Some l))
               (Some (Processing op l')) acts Hreg Htask eq_refl);
        [by intros ? [= <-]|].
      split; [|discriminate].
      destruct (exclusive_loop_ok s id op l Hex Htask) as (? & ? & _).
      eapply le_num_mono; eauto.
    + destruct (fast_backoff_done op l) as [acts l'] eqn:Hdone.
      simplify_eq.
      apply (registered_resume s id Fast op (Direct op l) (Direct op <$> l') acts
               Hreg Htask eq_refl); [|by eexists].
      intros t Ht. destruct l'; simpl in Ht; simplify_eq. reflexivity.
  - destruct (tasks s !! id) as [[op [l|]|op l]|] eqn:Htask; try discriminate.
    simplify_eq. now apply registered_finish.
  - simplify_eq. exact Hreg.
Qed.

Lemma sound_run (channel : bool) (inputs : list Input) (s : State) :
  run (initial channel) inputs = Some s -> sound s.
Proof.
  apply (run_invariant sound sound_step). split; [apply exclusive_initial|].
  repeat split; simpl.
  - constructor.
  - intros id t. now rewrite lookup_empty.
  - intros op a Hin. by apply elem_of_nil in Hin.
  - intros op a Hin. by apply elem_of_nil in Hin.
  - intros id op l. now rewrite lookup_empty.
Qed.

Lemma actions_of_cons (op : Op) (e : Event) (tr : list Event) :
  actions_of op (e :: tr) =
  match e with
  | Did _ op' a => if decide (op' = op) then [a] else []
  | _ => []
  end ++ actions_of op tr.
Proof.
  destruct e as [| |path op' a| | |]; try reflexivity.
  unfold actions_of. simpl. now destruct (decide (op' = op)).
Qed.

Lemma actions_of_nil (op : Op) (tr : list Event) :
  (forall path a, Did path op a ∉ tr) -> actions_of op tr = [].
Proof.
  induction tr as [|e tr IH]; intros Hno; [reflexivity|].
  rewrite actions_of_cons, IH by (intros path a Hin; apply (Hno path a); now right).
  destruct e as [| |path op' a| | |]; try reflexivity.
  destruct (decide (op' = op)) as [->|]; [|reflexivity].
  exfalso. apply (Hno path a). left.
Qed.

(** A call on the queue that allows no attempt never acts: no query, no
    wait, no broadcast, and neither resolve nor reject. *)
Lemma zero_retries_never_acts (channel : bool) (inputs : list Input) (s : State)
    (op : Op) :
  run (initial channel) inputs = Some s ->
  le_num 1 (op_retries op) = false -> Pushed op ∈ trace s ->
  actions_of op (trace s) = [].
Proof.
  intros Hrun Hr Hp. destruct (sound_run _ _ _ Hrun) as [_ (_ & _ & Z1 & Z2 & _)].
  apply actions_of_nil. intros [] a Hin.
  - apply Z1 in Hin. congruence.
  - now apply Z2 in Hin.
Qed.

(** ** One failure does not stall the queue *)

Lemma settle_fold_existsb (acts : list Action) :
  forall b b', settle_fold b acts = Some b' -> b' = b || existsb is_settling acts.
Proof.
  induction acts as [|a acts IH]; intros b b' H; simpl in *.
  - simplify_eq. now rewrite orb_false_r.
  - destruct (b && is_settling a); [discriminate|].
    rewrite (IH _ _ H). now rewrite orb_assoc.
Qed.

(** The closure that settles the promise returns in the same resumption. *)
Lemma settling_resumption_returns (s s' : State) (id : nat) (op : Op) (l : Loop)
    (res : Settled Results) (p : Platform) :
  exclusive s ->
  tasks s !! id = Some (Processing op (Some l)) ->
  step s (IQuery id res p) = Some s' ->
  exists acts l',
    trace s' = trace s ++ did Queued op acts /\
    tasks s' !! id = Some (Processing op l') /\
    (existsb is_settling acts = true -> l' = None).
Proof.
  intros Hex Htask Hstep. simpl in Hstep. rewrite Htask in Hstep.
  destruct (phase l) eqn:Hph; [|discriminate].
  destruct (thunk_query_done p (dbChannel s) op l res) as [acts l'] eqn:Hdone.
  simplify_eq. exists acts, l'. simpl. split; [reflexivity|].
  split; [apply lookup_insert_eq|]. intros Hsettle.
  pose proof (exclusive_loop_ok s id op l Hex Htask) as Hok.
  destruct (thunk_query_done_result _ _ _ _ _ _ _ Hok Hph Hdone) as (b' & Hfold & Hcond).
  apply settle_fold_existsb in Hfold. simpl in Hfold. rewrite Hsettle in Hfold.
  destruct l' as [l'|]; [|reflexivity]. destruct Hcond as [_ ->]. discriminate.
Qed.

(** ** The action of a statement *)

Lemma getQueryAction_modifying (q : string) :
  isModifyingQuery q = true ->
  getQueryAction q ∈ mutating_prefixes /\
  startsWith (trim (toLowerCase q)) (getQueryAction q) = true.
Proof.
  unfold isModifyingQuery, getQueryAction, mutating_prefixes. cbv zeta.
  repeat match goal with
  | |- context [startsWith ?s ?k] =>
      lazymatch k with
      | getQueryAction _ => fail
      | _ => destruct (startsWith s k) eqn:?; [split; [set_solver | assumption]|]
      end
  end. discriminate.
Qed.

Lemma getQueryAction_other (query : string) :
  getQueryAction query = "other"%string <-> isModifyingQuery query = false.
Proof.
  unfold isModifyingQuery, getQueryAction. cbv zeta.
  repeat match goal with
  | |- context [startsWith ?s ?k] => destruct (startsWith s k); [split; discriminate|]
  end. split; reflexivity.
Qed.

(** The keywords are told apart by their first two characters. *)
Lemma startsWith_keyword_unique (s kw kw' : string) :
  kw ∈ mutating_prefixes -> kw' ∈ mutating_prefixes ->
  startsWith s kw = true -> startsWith s kw' = true -> kw = kw'.
Proof.
  unfold mutating_prefixes. intros Hkw Hkw' H H'.
  apply startsWith_app in H as [rest ->].
  repeat (apply elem_of_cons in Hkw as [->|Hkw]); [..|by apply elem_of_nil in Hkw];
    repeat (apply elem_of_cons in Hkw' as [->|Hkw']); try (by apply elem_of_nil in Hkw');
    try reflexivity; vm_compute in H'; discriminate.
Qed.

(** ** The retries, up to the first answer *)

Lemma drive_rounds (path : Path) (p : Platform) (channel : bool)
    (db : Z -> Settled Results) (op : Op) (err : Z -> Error) (n : nat) :
  forall (fuel : nat) (k : Z) (pre : list Action) (le : option Error),
    (forall j, k <= j < k + Z.of_nat n -> db j = inr (err j)) ->
    1 <= k -> le_num (k + Z.of_nat n) (op_retries op) = true ->
    exists le',
      drive (2 * n + fuel) path p channel db op
        (pre ++ [AQuery k],
         Some {| attempt := k; phase := AwaitQuery; lastError := le |}) =
      drive fuel path p channel db op
        (pre ++ concat (map (failed_round (op_retries op) err) (seqZ k (Z.of_nat n))) ++
                [AQuery (k + Z.of_nat n)],
         Some {| attempt := k + Z.of_nat n; phase := AwaitQuery; lastError := le' |}).
Proof.
  induction n as [|n IH]; intros fuel k pre le Hdb Hk Hn.
  - exists le. simpl. now rewrite Z.add_0_r.
  - assert (Hle : le_num (k + 1) (op_retries op) = true)
      by (apply (le_num_mono _ (k + Z.of_nat (S n))); [lia | exact Hn]).
    assert (Hlt : lt_num k (op_retries op) = true) by (now apply le_num_succ_lt).
    assert (Hres1 : resume path p channel db op
                      {| attempt := k; phase := AwaitQuery; lastError := le |} =
                    ([AWarn k (op_retries op) (err k); ASleep (backoff k)],
                     Some {| attempt := k; phase := AwaitBackoff;
                             lastError := Some (err k) |})).
    { unfold resume, thunk_query_done, fast_query_done, thunk_catch. simpl.
      rewrite (Hdb k) by lia. rewrite Hlt. now destruct path. }
    assert (Hres2 : resume path p channel db op
                      {| attempt := k; phase := AwaitBackoff;
                         lastError := Some (err k) |} =
                    ([AQuery (k + 1)],
                     Some {| attempt := k + 1; phase := AwaitQuery;
                             lastError := Some (err k) |})).
    { unfold resume, thunk_backoff_done, fast_backoff_done, thunk_head, fast_head.
      simpl. rewrite Hle. now destruct path. }
    destruct (IH fuel (k + 1) (pre ++ failed_round (op_retries op) err k)
                (Some (err k))) as [le' Heq];
      [intros; apply Hdb; lia | lia
      | apply (le_num_mono _ (k + Z.of_nat (S n))); [lia | exact Hn] |].
    exists le'.
    replace (2 * S n + fuel)%nat with (S (S (2 * n + fuel))) by lia.
    cbn [drive]. rewrite Hres1. cbn [drive]. rewrite Hres2.
    replace ((pre ++ [AQuery k]) ++ [AWarn k (op_retries op) (err k); ASleep (backoff k)])
      with (pre ++ failed_round (op_retries op) err k)
      by (unfold failed_round, backoff; now rewrite <- app_assoc).
    rewrite Heq.
    replace (Z.of_nat (S n)) with (Z.succ (Z.of_nat n)) by lia.
    rewrite (seqZ_cons k) by lia. simpl.
    replace (Z.pred (Z.succ (Z.of_nat n))) with (Z.of_nat n) by lia.
    replace (Z.succ k) with (k + 1) by lia.
    replace (k + 1 + Z.of_nat n) with (k + Z.succ (Z.of_nat n)) by lia.
    now rewrite <- !app_assoc.
Qed.

Lemma run_call_answered (path : Path) (p : Platform) (channel : bool)
    (db : Z -> Settled Results) (op : Op) (err : Z -> Error) (k : Z)
    (result : Results) (fuel : nat) :
  1 <= k -> le_num k (op_retries op) = true ->
  (forall j, 1 <= j < k -> db j = inr (err j)) ->
  db k = inl result ->
  (2 * Z.to_nat k <= fuel)%nat ->
  run_call fuel path p channel db op =
  Some (answered_at (op_retries op) k err
          (match path with Queued => announce p channel op | Fast => [] end ++
           [AResolve result])).
Proof.
  intros Hk Hkr Hfail Hok Hfuel. unfold run_call, answered_at.
  assert (Hhead : head_of path op 1 None =
                  ([] ++ [AQuery 1],
                   Some {| attempt := 1; phase := AwaitQuery; lastError := None |})).
  { assert (Hle : le_num 1 (op_retries op) = true)
      by (apply (le_num_mono _ k); [lia | exact Hkr]).
    destruct path; unfold head_of, thunk_head, fast_head; now rewrite Hle. }
  rewrite Hhead.
  destruct (drive_rounds path p channel db op err (Z.to_nat (k - 1))
              (fuel - 2 * Z.to_nat (k - 1)) 1 [] None) as [le' Heq];
    [intros; apply Hfail; lia | lia
    | apply (le_num_mono _ k); [lia | exact Hkr] |].
  replace (2 * Z.to_nat (k - 1) + (fuel - 2 * Z.to_nat (k - 1)))%nat with fuel in Heq by lia.
  rewrite Heq. clear Heq.
  replace (Z.of_nat (Z.to_nat (k - 1))) with (k - 1) by lia.
  replace (1 + (k - 1)) with k by lia.
  destruct (fuel - 2 * Z.to_nat (k - 1))%nat as [|fuel'] eqn:Hf; [lia|].
  cbn [drive].
  assert (Hres : resume path p channel db op
                   {| attempt := k; phase := AwaitQuery; lastError := le' |} =
                 (match path with Queued => announce p channel op | Fast => [] end ++
                  [AResolve result], None)).
  { unfold resume, thunk_query_done, fast_query_done, announce. simpl. rewrite Hok.
    destruct path; [|reflexivity].
    destruct (isModifyingQuery (op_query op)); [|reflexivity].
    pose proof (broadcastDatabaseChange_never_raises p channel (op_query op)
                  (op_broadcastTable op)) as Hnr.
    destruct (broadcastDatabaseChange p channel (op_query op) (op_broadcastTable op))
      as [effs [[]|e]]; [reflexivity | discriminate]. }
  rewrite Hres, drive_done. simpl. now rewrite <- !app_assoc.
Qed.

Lemma attempts_app (a b : list Action) : attempts (a ++ b) = attempts a ++ attempts b.
Proof. apply omap_app. Qed.
Lemma waits_app (a b : list Action) : waits (a ++ b) = waits a ++ waits b.
Proof. apply omap_app. Qed.
Lemma settlements_app (a b : list Action) :
  settlements (a ++ b) = settlements a ++ settlements b.
Proof. apply filter_app. Qed.

Lemma announce_read (p : Platform) (channel : bool) (op : Op) :
  attempts (announce p channel op) = [] /\ waits (announce p channel op) = [] /\
  settlements (announce p channel op) = [].
Proof. unfold announce. now destruct (isModifyingQuery (op_query op)). Qed.

(** ** Calls the module has let go of *)

Lemma silent_did (path : Path) (op op' : Op) (acts : list Action) :
  op' <> op -> silent op (did path op' acts).
Proof.
  intros Hne. apply Forall_forall. intros e He.
  apply elem_of_did in He as (a & -> & _). exact Hne.
Qed.

Lemma dormant_processPendingTransactions (s : State) (op : Op) :
  dormant s op ->
  dormant (processPendingTransactions s) op /\
  exists evs, trace (processPendingTransactions s) = trace s ++ evs /\ silent op evs.
Proof.
  intros (Hid & Hpend & Htask). unfold processPendingTransactions.
  destruct (pendingTransactions s) as [|hd rest] eqn:Hq.
  - split; [repeat split; rewrite ?Hq; auto|]. exists []. rewrite app_nil_r. split; [done|constructor].
  - destruct (isTransactionInProgress s).
    + split; [repeat split; rewrite ?Hq; auto|]. exists []. rewrite app_nil_r.
      split; [done|constructor].
    + destruct (thunk_head hd 1 None) as [acts l].
      assert (Hne : hd <> op) by (intros ->; apply Hpend; left).
      split.
      * repeat split; simpl; [assumption | intros Hin; apply Hpend; now right |].
        intros id t. rewrite lookup_insert_Some. intros [[<- <-]|[_ H]]; [exact Hne|eauto].
      * eexists. split; [reflexivity|]. constructor; [exact Hne|]. now apply silent_did.
Qed.

Lemma dormant_step (s s' : State) (i : Input) (op : Op) :
  dormant s op -> step s i = Some s' ->
  dormant s' op /\ exists evs, trace s' = trace s ++ evs /\ silent op evs.
Proof.
  intros Hd Hstep. pose proof Hd as (Hid & Hpend & Htask).
  destruct i as [query params config init| |id res p|id|id|]; simpl in Hstep.
  - simplify_eq. unfold executeQuery.
    set (op' := new_op s query params config).
    assert (Hne : op' <> op) by (intros <-; simpl in Hid; lia).
    destruct init as [e|].
    + split.
      * repeat split; simpl; [lia | exact Hpend |].
        intros id t. rewrite lookup_delete_Some. intros [_ H]. eauto.
      * eexists. split; [reflexivity|]. repeat constructor; exact Hne.
    + destruct (takes_fast_path query config).
      * destruct (fast_head op' 1 None) as [acts l]. split.
        -- repeat split; simpl; [lia | exact Hpend |].
           intros id t. destruct l as [l|]; simpl.
           ++ rewrite lookup_insert_Some. intros [[_ <-]|[_ H]]; [exact Hne|eauto].
           ++ rewrite lookup_delete_Some. intros [_ H]. eauto.
        -- eexists. split; [reflexivity|]. constructor; [exact Hne|]. now apply silent_did.
      * match goal with |- context [processPendingTransactions ?s0] =>
          destruct (dormant_processPendingTransactions s0 op) as [Hd' (evs & Htr & Hsil)]
        end.
        { repeat split; simpl; [lia | | exact Htask].
          rewrite elem_of_app, list_elem_of_singleton. intros [H|H]; [now apply Hpend | now apply Hne]. }
        split; [exact Hd'|]. exists (Pushed op' :: evs). rewrite Htr. simpl.
        rewrite <- app_assoc. split; [reflexivity|]. constructor; [exact Hne | exact Hsil].
  - destruct (timers s) eqn:Ht; [discriminate|]. simplify_eq.
    match goal with |- context [processPendingTransactions ?s0] =>
      destruct (dormant_processPendingTransactions s0 op) as [Hd' (evs & Htr & Hsil)]
    end; [exact Hd|]. split; [exact Hd'|]. exists evs. now rewrite Htr.
  - destruct (tasks s !! id) as [[op' [l|]|op' l]|] eqn:Hlk; try discriminate;
      destruct (phase l) eqn:Hph; try discriminate.
    + destruct (thunk_query_done p (dbChannel s) op' l res) as [acts l'] eqn:Hdone.
      simplify_eq. pose proof (Htask _ _ Hlk) as Hne. simpl in Hne. split.
      * repeat split; simpl; [assumption..|].
        intros id' t. rewrite lookup_insert_Some. intros [[_ <-]|[_ H]]; [exact Hne|eauto].
      * eexists. split; [reflexivity|]. now apply silent_did.
    + destruct (fast_query_done op' l res) as [acts l'] eqn:Hdone.
      simplify_eq. pose proof (Htask _ _ Hlk) as Hne. simpl in Hne. split.
      * repeat split; simpl; [assumption..|].
        intros id' t. destruct l' as [l'|]; simpl.
        -- rewrite lookup_insert_Some. intros [[_ <-]|[_ H]]; [exact Hne|eauto].
        -- rewrite lookup_delete_Some. intros [_ H]. eauto.
      * eexists. split; [reflexivity|]. now apply silent_did.
  - destruct (tasks s !! id) as [[op' [l|]|op' l]|] eqn:Hlk; try discriminate;
      destruct (phase l) eqn:Hph; try discriminate.
    + destruct (thunk_backoff_done op' l) as [acts l'] eqn:Hdone.
      simplify_eq. pose proof (Htask _ _ Hlk) as Hne. simpl in Hne. split.
      * repeat split; simpl; [assumption..|].
        intros id' t. rewrite lookup_insert_Some. intros [[_ <-]|[_ H]]; [exact Hne|eauto].
      * eexists. split; [reflexivity|]. now apply silent_did.
    + destruct (fast_backoff_done op' l) as [acts l'] eqn:Hdone.
      simplify_eq. pose proof (Htask _ _ Hlk) as Hne. simpl in Hne. split.
      * repeat split; simpl; [assumption..|].
        intros id' t. destruct l' as [l'|]; simpl.
        -- rewrite lookup_insert_Some. intros [[_ <-]|[_ H]]; [exact Hne|eauto].
        -- rewrite lookup_delete_Some. intros [_ H]. eauto.
      * eexists. split; [reflexivity|]. now apply silent_did.
  - destruct (tasks s !! id) as [[op' [l|]|op' l]|] eqn:Hlk; try discriminate.
    simplify_eq. pose proof (Htask _ _ Hlk) as Hne. simpl in Hne. split.
    + repeat split; simpl; [assumption..|].
      intros id' t. rewrite lookup_delete_Some. intros [_ H]. eauto.
    + eexists. split; [reflexivity|]. repeat constructor. exact Hne.
  - simplify_eq. split.
    + repeat split; simpl; [assumption | apply not_elem_of_nil | exact Htask].
    + exists []. simpl. rewrite app_nil_r. split; [done|constructor].
Qed.

Lemma dormant_run (op : Op) (inputs : list Input) :
  forall s s', dormant s op -> run s inputs = Some s' ->
    dormant s' op /\ exists evs, trace s' = trace s ++ evs /\ silent op evs.
Proof.
  induction inputs as [|i inputs IH]; intros s s' Hd Hrun; simpl in Hrun.
  - simplify_eq. split; [exact Hd|]. exists []. rewrite app_nil_r. split; [done|constructor].
  - destruct (step s i) as [s1|] eqn:Hstep; [|discriminate].
    destruct (dormant_step _ _ _ _ Hd Hstep) as [Hd1 (evs1 & Htr1 & Hs1)].
    destruct (IH _ _ Hd1 Hrun) as [Hd' (evs2 & Htr2 & Hs2)].
    split; [exact Hd'|]. exists (evs1 ++ evs2). rewrite Htr2, Htr1, app_assoc.
    split; [reflexivity|]. now apply Forall_app.
Qed.

Lemma actions_of_app (op : Op) (t1 t2 : list Event) :
  actions_of op (t1 ++ t2) = actions_of op t1 ++ actions_of op t2.
Proof. apply omap_app. Qed.

Lemma actions_of_silent (op : Op) (evs : list Event) :
  silent op evs -> actions_of op evs = [].
Proof.
  intros Hs. apply actions_of_nil. intros path a Hin.
  unfold silent in Hs. rewrite Forall_forall in Hs. now apply (Hs _ Hin).
Qed.

Lemma silent_not_in (op : Op) (evs : list Event) (e : Event) :
  silent op evs -> event_op e = op -> e ∉ evs.
Proof.
  intros Hs Heq Hin. unfold silent in Hs. rewrite Forall_forall in Hs.
  now apply (Hs _ Hin).
Qed.

(** The operations that started and those that wait are all different. *)
Lemma fifo_NoDup (s : State) :
  fifo s -> NoDup (started (trace s) ++ pendingTransactions s).
Proof.
  intros (Hsub & _ & Hnd).
  apply (NoDup_fmap_1 op_id). eapply sublist_NoDup; [exact Hnd|].
  now apply fmap_sublist.
Qed.

Lemma elem_of_pushed (op : Op) (tr : list Event) : op ∈ pushed tr <-> Pushed op ∈ tr.
Proof.
  unfold pushed. rewrite list_elem_of_omap. split.
  - intros (e & He & Heq). destruct e; simplify_eq. exact He.
  - intros H. exists (Pushed op). auto.
Qed.

Lemma elem_of_started (op : Op) (tr : list Event) : op ∈ started tr <-> Started op ∈ tr.
Proof.
  unfold started. rewrite list_elem_of_omap. split.
  - intros (e & He & Heq). destruct e; simplify_eq. exact He.
  - intros H. exists (Started op). auto.
Qed.

(** An operation that waits on the queue was pushed, has not been started,
    has done nothing, and no coroutine runs it. *)
Lemma waiting_is_untouched (channel : bool) (inputs : list Input) (s : State) (op : Op) :
  run (initial channel) inputs = Some s ->
  op ∈ pendingTransactions s ->
  Pushed op ∈ trace s /\ (Started op ∉ trace s) /\
  actions_of op (trace s) = [] /\
  (op_id op < next_id s)%nat /\
  forall id t, tasks s !! id = Some t -> task_op t <> op.
Proof.
  intros Hrun Hin.
  pose proof (fifo_run _ _ _ Hrun) as Hfifo.
  destruct (sound_run _ _ _ Hrun) as [Hex Hreg].
  assert (Hp : Pushed op ∈ trace s).
  { apply elem_of_pushed. destruct Hfifo as (Hsub & _).
    eapply elem_of_sublist; [|exact Hsub]. apply elem_of_app. now right. }
  assert (Hs : Started op ∉ trace s).
  { intros Hst. apply elem_of_started in Hst.
    pose proof (fifo_NoDup _ Hfifo) as Hnd. apply NoDup_app in Hnd as (_ & Hdis & _).
    exact (Hdis _ Hst Hin). }
  destruct Hex as [(o & Hser & Hfl) Hbound].
  destruct Hreg as (_ & _ & _ & Hfast & Hdirect).
  repeat split; try assumption.
  - apply actions_of_nil. intros [] a Hd.
    + apply list_elem_of_split in Hd as (t1 & t2 & Heq).
      destruct (serial_acts_alone _ _ _ _ _ _ Hser Heq) as [Hst _].
      apply Hs. rewrite Heq. apply elem_of_app. now left.
    + exact (Hfast _ _ Hd Hp).
  - rewrite Forall_forall in Hbound. now apply Hbound.
  - intros id [op' l|op' l] Hlk; simpl; intros ->.
    + destruct o as [[op0 b]|].
      * destruct Hfl as (_ & _ & Huniq & l0 & Hl0 & _).
        pose proof (Huniq _ _ _ Hlk) as ->. rewrite Hl0 in Hlk. simplify_eq.
        apply Hs. exact (serial_open_started _ _ _ Hser).
      * destruct Hfl as [_ Hnone]. exact (Hnone _ _ _ Hlk).
    + exact (Hdirect _ _ _ Hlk Hp).
Qed.

Lemma keyed_processPendingTransactions (s : State) :
  keyed s -> keyed (processPendingTransactions s).
Proof.
  intros Hk. unfold processPendingTransactions.
  destruct (pendingTransactions s) as [|hd rest]; [exact Hk|].
  destruct (isTransactionInProgress s); [exact Hk|].
  destruct (thunk_head hd 1 None) as [acts l]. intros id t. simpl.
  rewrite lookup_insert_Some. intros [[<- <-]|[_ H]]; [reflexivity | now apply Hk].
Qed.

Lemma keyed_set_task (s : State) (id : nat) (t : option Task) (evs : list Event) :
  keyed s -> (forall t', t = Some t' -> op_id (task_op t') = id) ->
  keyed (set_task s id t evs).
Proof.
  intros Hk Ht id' t'. simpl. destruct t as [t|].
  - rewrite lookup_insert_Some. intros [[<- <-]|[_ H]]; [now apply Ht | now apply Hk].
  - rewrite lookup_delete_Some. intros [_ H]. now apply Hk.
Qed.

Lemma keyed_step (s s' : State) (i : Input) :
  keyed s -> step s i = Some s' -> keyed s'.
Proof.
  intros Hk Hstep.
  destruct i as [query params config init| |id res p|id|id|]; simpl in Hstep.
  - simplify_eq. unfold executeQuery. destruct init as [e|].
    + apply keyed_set_task; [exact Hk | discriminate].
    + destruct (takes_fast_path query config).
      * destruct (fast_head _ 1 None) as [acts l].
        apply keyed_set_task; [exact Hk|]. intros t' Ht'. destruct l; simpl in Ht'; simplify_eq. reflexivity.
      * apply keyed_processPendingTransactions. exact Hk.
  - destruct (timers s) eqn:Ht; [discriminate|]. simplify_eq.
    apply keyed_processPendingTransactions. exact Hk.
  - destruct (tasks s !! id) as [[op' [l|]|op' l]|] eqn:Hlk; try discriminate;
      destruct (phase l) eqn:Hph; try discriminate.
    + destruct (thunk_query_done p (dbChannel s) op' l res) as [acts l'].
      simplify_eq. apply keyed_set_task; [exact Hk|]. intros t' [= <-]. exact (Hk _ _ Hlk).
    + destruct (fast_query_done op' l res) as [acts l'].
      simplify_eq. apply keyed_set_task; [exact Hk|]. intros t' Ht'.
      destruct l'; simpl in Ht'; simplify_eq. exact (Hk _ _ Hlk).
  - destruct (tasks s !! id) as [[op' [l|]|op' l]|] eqn:Hlk; try discriminate;
      destruct (phase l) eqn:Hph; try discriminate.
    + destruct (thunk_backoff_done op' l) as [acts l'].
      simplify_eq. apply keyed_set_task; [exact Hk|]. intros t' [= <-]. exact (Hk _ _ Hlk).
    + destruct (fast_backoff_done op' l) as [acts l'].
      simplify_eq. apply keyed_set_task; [exact Hk|]. intros t' Ht'.
      destruct l'; simpl in Ht'; simplify_eq. exact (Hk _ _ Hlk).
  - destruct (tasks s !! id) as [[op' [l|]|op' l]|] eqn:Hlk; try discriminate.
    simplify_eq. intros id' t'. simpl. rewrite lookup_delete_Some. intros [_ H]. now apply Hk.
  - simplify_eq. exact Hk.
Qed.

Lemma keyed_run (channel : bool) (inputs : list Input) (s : State) :
  run (initial channel) inputs = Some s -> keyed s.
Proof.
  apply (run_invariant keyed keyed_step). intros id t. simpl. now rewrite lookup_empty.
Qed.

(** No coroutine is kept under the number of the next call. *)
Lemma no_task_ahead (channel : bool) (inputs : list Input) (s : State) :
  run (initial channel) inputs = Some s -> tasks s !! next_id s = None.
Proof.
  intros Hrun. destruct (tasks s !! next_id s) as [t|] eqn:Hlk; [|reflexivity].
  destruct (sound_run _ _ _ Hrun) as [_ (_ & Hid & _)].
  pose proof (Hid _ _ Hlk) as Hlt. rewrite (keyed_run _ _ _ Hrun _ _ Hlk) in Hlt. lia.
Qed.

(** ** A promise is settled once, and last *)

Lemma reachable_step (s s' : State) (i : Input) :
  reachable s -> step s i = Some s' -> reachable s'.
Proof.
  intros (c & inputs & Hrun) Hstep. exists c, (inputs ++ [i]).
  rewrite run_app, Hrun. simpl. now rewrite Hstep.
Qed.

Lemma settles_last_app (a b : list Action) :
  existsb is_settling a = false -> settles_last (a ++ b) = settles_last b.
Proof.
  induction a as [|x a IH]; simpl; [done|].
  destruct (is_settling x); [discriminate|]. exact IH.
Qed.

Lemma settles_last_settlements (acts : list Action) :
  settles_last acts = true -> (length (settlements acts) <= 1)%nat.
Proof.
  unfold settlements. induction acts as [|a acts IH]; simpl; [lia|]. intros H.
  destruct (is_settling a) eqn:Ha.
  - rewrite filter_cons_True by exact Ha. destruct acts; [simpl; lia | discriminate].
  - rewrite filter_cons_False by (rewrite Ha; discriminate). now apply IH.
Qed.

Lemma settles_last_split (acts pre post : list Action) (a : Action) :
  settles_last acts = true -> acts = pre ++ a :: post -> is_settling a = true ->
  post = [].
Proof.
  revert acts. induction pre as [|x pre IH]; intros acts H -> Ha; simpl in H.
  - rewrite Ha in H. now destruct post.
  - destruct (is_settling x).
    + now destruct pre.
    + now apply (IH _ H).
Qed.

Lemma thunk_head_closing (op : Op) (k : Z) (le : option Error) :
  closing (thunk_head op k le).
Proof. unfold thunk_head, closing. destruct (le_num k (op_retries op)); simpl; auto. Qed.

Lemma thunk_catch_closing (op : Op) (l : Loop) (error : Error) :
  closing (thunk_catch op l error).
Proof.
  unfold thunk_catch, thunk_head, closing.
  destruct (lt_num (attempt l) (op_retries op)) eqn:Hlt; simpl; [auto|].
  rewrite (lt_num_false_succ _ _ Hlt).
  simpl. split; [done|]. intros [? [=]].
Qed.

Lemma thunk_query_done_closing (p : Platform) (channel : bool) (op : Op) (l : Loop)
    (res : Settled Results) :
  closing (thunk_query_done p channel op l res).
Proof.
  unfold thunk_query_done. destruct res as [result|error]; [|apply thunk_catch_closing].
  destruct (isModifyingQuery (op_query op)).
  - destruct (broadcastDatabaseChange p channel (op_query op) (op_broadcastTable op))
      as [effs [[]|error]].
    + split; [done|]. intros [? [=]].
    + pose proof (thunk_catch_closing op l error) as [H1 H2].
      destruct (thunk_catch op l error) as [acts l']. split; simpl in *; auto.
  - split; [done|]. intros [? [=]].
Qed.

Lemma fast_head_closing (op : Op) (k : Z) (le : option Error) :
  closing (fast_head op k le).
Proof.
  unfold fast_head, closing. destruct (le_num k (op_retries op)); simpl; auto.
  split; [done|]. intros [? [=]].
Qed.

Lemma fast_query_done_closing (op : Op) (l : Loop) (res : Settled Results) :
  closing (fast_query_done op l res).
Proof.
  unfold fast_query_done, fast_head, closing. destruct res as [result|error]; simpl.
  - split; [done|]. intros [? [=]].
  - destruct (lt_num (attempt l) (op_retries op)) eqn:Hlt; simpl; [auto|].
    rewrite (lt_num_false_succ _ _ Hlt).
    simpl. split; [done|]. intros [? [=]].
Qed.

Lemma actions_of_did (op op' : Op) (path : Path) (acts : list Action) :
  actions_of op (did path op' acts) = if decide (op' = op) then acts else [].
Proof.
  induction acts as [|a acts IH]; [now destruct (decide (op' = op))|].
  change (did path op' (a :: acts)) with (Did path op' a :: did path op' acts).
  rewrite actions_of_cons, IH. now destruct (decide (op' = op)).
Qed.

(** A turn in which nobody acts. *)
Lemma once_quiet (s s' : State) (evs : list Event) :
  once s -> trace s' = trace s ++ evs ->
  (forall op, actions_of op evs = []) ->
  (forall id t, tasks s' !! id = Some t -> tasks s !! id = Some t) ->
  once s'.
Proof.
  intros [H1 H2] Htr Hq Ht. split.
  - intros op. now rewrite Htr, actions_of_app, Hq, app_nil_r.
  - intros id t Hlk. destruct (H2 _ _ (Ht _ _ Hlk)) as [H|H]; [now left|right].
    unfold settled in *. now rewrite Htr, actions_of_app, Hq, app_nil_r.
Qed.

(** A turn in which the call [opx] acts. *)
Lemma once_act (s s' : State) (opx : Op) (acts : list Action) (evs : list Event) :
  keyed s -> once s ->
  trace s' = trace s ++ evs ->
  (forall op, actions_of op evs = if decide (opx = op) then acts else []) ->
  settled opx (trace s) = false ->
  settles_last acts = true ->
  (forall id t, tasks s' !! id = Some t ->
     (id <> op_id opx /\ tasks s !! id = Some t) \/
     (task_op t = opx /\
      (t = Processing opx None \/ existsb is_settling acts = false))) ->
  once s'.
Proof.
  intros Hk [H1 H2] Htr Hev Hun Hlast Ht. split.
  - intros op. rewrite Htr, actions_of_app, Hev. destruct (decide (opx = op)) as [<-|Hne].
    + now rewrite settles_last_app.
    + rewrite app_nil_r. apply H1.
  - intros id t Hlk. destruct (Ht _ _ Hlk) as [[Hid Hold]|[Hop Hcase]].
    + destruct (H2 _ _ Hold) as [H|H]; [now left|right].
      rewrite Htr, settled_app, H. unfold settled at 1. rewrite Hev.
      destruct (decide (opx = task_op t)) as [Heq|Hne]; [|reflexivity].
      exfalso. apply Hid. rewrite Heq. symmetry. exact (Hk _ _ Hold).
    + destruct Hcase as [->|Hno]; [now left|right].
      rewrite Hop, Htr, settled_app, Hun. unfold settled. rewrite Hev, decide_True by done.
      exact Hno.
Qed.

Lemma once_processPendingTransactions (s : State) :
  keyed s -> once s ->
  (forall op, op ∈ pendingTransactions s -> actions_of op (trace s) = []) ->
  once (processPendingTransactions s).
Proof.
  intros Hk Honce Hwait. unfold processPendingTransactions.
  destruct (pendingTransactions s) as [|hd rest] eqn:Hq; [exact Honce|].
  destruct (isTransactionInProgress s); [exact Honce|].
  pose proof (thunk_head_closing hd 1 None) as [Hc1 Hc2].
  destruct (thunk_head hd 1 None) as [acts l]. simpl in Hc1, Hc2.
  apply (once_act s _ hd acts (Started hd :: did Queued hd acts) Hk Honce);
    [reflexivity|..].
  - intros op. now rewrite actions_of_cons, actions_of_did.
  - unfold settled. rewrite Hwait; [reflexivity | left].
  - exact Hc1.
  - intros id t. simpl. rewrite lookup_insert_Some. intros [[<- <-]|[Hne H]]; [right|now left].
    split; [reflexivity|]. destruct l as [l|]; [right; apply Hc2; eauto | now left].
Qed.

Lemma once_step (s s' : State) (i : Input) :
  reachable s -> once s -> step s i = Some s' -> once s'.
Proof.
  intros (channel & inputs & Hrun) Honce Hstep.
  pose proof (keyed_run _ _ _ Hrun) as Hk.
  destruct (sound_run _ _ _ Hrun) as [Hex Hreg].
  destruct i as [query params config init| |id res p|id|id|]; simpl in Hstep.
  - simplify_eq. unfold executeQuery.
    set (op' := new_op s query params config).
    assert (Hfresh : actions_of op' (trace s) = []).
    { apply actions_of_nil. intros path a Hin.
      refine (registered_fresh s op' _ Hreg _ Hin eq_refl). simpl. lia. }
    assert (Hun : settled op' (trace s) = false) by (unfold settled; now rewrite Hfresh).
    destruct init as [e|].
    + apply (once_act s _ op' [AReject ("Failed to initialize database: " ++ e)%string]
               [InitFailed op' e;
                Did Fast op' (AReject ("Failed to initialize database: " ++ e)%string)]
               Hk Honce); [reflexivity| |exact Hun|reflexivity|].
      * intros op. rewrite !actions_of_cons. simpl. now destruct (decide (op' = op)).
      * intros id t. simpl. rewrite lookup_delete_Some. intros [Hne H]. left. split; auto.
    + destruct (takes_fast_path query config).
      * pose proof (fast_head_closing op' 1 None) as [Hc1 Hc2].
        destruct (fast_head op' 1 None) as [acts l]. simpl in Hc1, Hc2.
        apply (once_act s _ op' acts (Bypassed op' :: did Fast op' acts) Hk Honce);
          [reflexivity| |exact Hun|exact Hc1|].
        -- intros op. now rewrite actions_of_cons, actions_of_did.
        -- intros id t. simpl. destruct l as [l|]; simpl.
           ++ rewrite lookup_insert_Some. intros [[<- <-]|[Hne H]]; [right|left; split; auto].
              split; [reflexivity|]. right. apply Hc2. eauto.
           ++ rewrite lookup_delete_Some. intros [Hne H]. left. split; auto.
      * apply once_processPendingTransactions.
        -- exact Hk.
        -- apply (once_quiet s _ [Pushed op'] Honce); [reflexivity|reflexivity|auto].
        -- intros op. simpl. rewrite elem_of_app, list_elem_of_singleton, actions_of_app.
           simpl. rewrite app_nil_r. intros [Hin| ->]; [|exact Hfresh].
           now destruct (waiting_is_untouched _ _ _ _ Hrun Hin) as (_ & _ & H & _).
  - destruct (timers s) eqn:Ht; [discriminate|]. simplify_eq.
    apply once_processPendingTransactions; [exact Hk | exact Honce |].
    intros op Hin. simpl in *.
    now destruct (waiting_is_untouched _ _ _ _ Hrun Hin) as (_ & _ & H & _).
  - destruct (tasks s !! id) as [[op' [l|]|op' l]|] eqn:Hlk; try discriminate;
      destruct (phase l) eqn:Hph; try discriminate.
    + pose proof (thunk_query_done_closing p (dbChannel s) op' l res) as [Hc1 Hc2].
      destruct (thunk_query_done p (dbChannel s) op' l res) as [acts l'].
      simpl in Hc1, Hc2. simplify_eq.
      apply (once_act s _ op' acts (did Queued op' acts) Hk Honce);
        [reflexivity | intros; apply actions_of_did | | exact Hc1 |].
      * destruct Honce as [_ H2]. destruct (H2 _ _ Hlk) as [H|H]; [discriminate|exact H].
      * pose proof (Hk _ _ Hlk) as Hid. simpl in Hid. subst id.
        intros id t. simpl. rewrite lookup_insert_Some.
        intros [[<- <-]|[Hne H]]; [right|left; split; auto].
        split; [reflexivity|]. destruct l' as [l'|]; [right; apply Hc2; eauto | now left].
    + pose proof (fast_query_done_closing op' l res) as [Hc1 Hc2].
      destruct (fast_query_done op' l res) as [acts l'].
      simpl in Hc1, Hc2. simplify_eq.
      apply (once_act s _ op' acts (did Fast op' acts) Hk Honce);
        [reflexivity | intros; apply actions_of_did | | exact Hc1 |].
      * destruct Honce as [_ H2]. destruct (H2 _ _ Hlk) as [H|H]; [discriminate|exact H].
      * pose proof (Hk _ _ Hlk) as Hid. simpl in Hid. subst id.
        intros id t. simpl. destruct l' as [l'|]; simpl.
        -- rewrite lookup_insert_Some. intros [[<- <-]|[Hne H]]; [right|left; split; auto].
           split; [reflexivity|]. right. apply Hc2. eauto.
        -- rewrite lookup_delete_Some. intros [Hne H]. left. split; auto.
  - destruct (tasks s !! id) as [[op' [l|]|op' l]|] eqn:Hlk; try discriminate;
      destruct (phase l) eqn:Hph; try discriminate.
    + pose proof (thunk_head_closing op' (attempt l + 1) (lastError l)) as [Hc1 Hc2].
      unfold thunk_backoff_done in Hstep.
      destruct (thunk_head op' (attempt l + 1) (lastError l)) as [acts l'].
      simpl in Hc1, Hc2. simplify_eq.
      apply (once_act s _ op' acts (did Queued op' acts) Hk Honce);
        [reflexivity | intros; apply actions_of_did | | exact Hc1 |].
      * destruct Honce as [_ H2]. destruct (H2 _ _ Hlk) as [H|H]; [discriminate|exact H].
      * pose proof (Hk _ _ Hlk) as Hid. simpl in Hid. subst id.
        intros id t. simpl. rewrite lookup_insert_Some.
        intros [[<- <-]|[Hne H]]; [right|left; split; auto].
        split; [reflexivity|]. destruct l' as [l'|]; [right; apply Hc2; eauto | now left].
    + pose proof (fast_head_closing op' (attempt l + 1) (lastError l)) as [Hc1 Hc2].
      unfold fast_backoff_done in Hstep.
      destruct (fast_head op' (attempt l + 1) (lastError l)) as [acts l'].
      simpl in Hc1, Hc2. simplify_eq.
      apply (once_act s _ op' acts (did Fast op' acts) Hk Honce);
        [reflexivity | intros; apply actions_of_did | | exact Hc1 |].
      * destruct Honce as [_ H2]. destruct (H2 _ _ Hlk) as [H|H]; [discriminate|exact H].
      * pose proof (Hk _ _ Hlk) as Hid. simpl in Hid. subst id.
        intros id t. simpl. destruct l' as [l'|]; simpl.
        -- rewrite lookup_insert_Some. intros [[<- <-]|[Hne H]]; [right|left; split; auto].
           split; [reflexivity|]. right. apply Hc2. eauto.
        -- rewrite lookup_delete_Some. intros [Hne H]. left. split; auto.
  - destruct (tasks s !! id) as [[op' [l|]|op' l]|] eqn:Hlk; try discriminate.
    simplify_eq. apply (once_quiet s _ [Finished op'] Honce); [reflexivity|reflexivity|].
    intros id' t. simpl. rewrite lookup_delete_Some. now intros [_ H].
  - simplify_eq. exact Honce.
Qed.

Lemma once_run (channel : bool) (inputs : list Input) (s : State) :
  run (initial channel) inputs = Some s -> once s.
Proof.
  intros Hrun.
  assert (H : reachable s /\ once s); [|apply H].
  revert Hrun.
  apply (run_invariant (fun s => reachable s /\ once s)).
  - intros s0 s1 i [Hr Ho] Hstep. split; [exact (reachable_step _ _ _ Hr Hstep)|].
    exact (once_step _ _ _ Hr Ho Hstep).
  - split; [exists channel, []; reflexivity|]. split; [reflexivity|].
    intros id t. simpl. now rewrite lookup_empty.
Qed.

(** ** Who tells the other tabs *)

Lemma tells_then_resolves_tail (e : Event) (tr : list Event) :
  tells_then_resolves (e :: tr) = true -> tells_then_resolves tr = true.
Proof.
  destruct e as [| |path op a| | |]; try (simpl; auto; fail).
  destruct a; try (simpl; auto; fail).
  cbn [tells_then_resolves]. destruct path; [|discriminate].
  destruct tr as [|[| |[] op' [] | | |] tr']; try discriminate.
  now intros (_ & H)%andb_true_iff.
Qed.

Lemma tells_then_resolves_app (t1 t2 : list Event) :
  tells_then_resolves t1 = true -> tells_then_resolves t2 = true ->
  tells_then_resolves (t1 ++ t2) = true.
Proof.
  induction t1 as [|e t1 IH]; intros H1 H2; [exact H2|].
  pose proof (IH (tells_then_resolves_tail _ _ H1) H2) as Hrest.
  destruct e as [| |path op a| | |]; try exact Hrest.
  destruct a; try exact Hrest.
  cbn [tells_then_resolves] in H1. destruct path; [|discriminate].
  destruct t1 as [|[| |[] op' [] | | |] t1']; try discriminate.
  apply andb_true_iff in H1 as [H1 _].
  change ((Did Queued op (ABroadcast effs) :: Did Queued op' (AResolve result) :: t1') ++ t2)
    with (Did Queued op (ABroadcast effs) :: Did Queued op' (AResolve result) :: (t1' ++ t2)).
  cbn [tells_then_resolves]. rewrite H1. exact Hrest.
Qed.

Lemma tells_then_resolves_split (tr t1 t2 : list Event) (path : Path) (op : Op)
    (effs : list Effect) :
  tells_then_resolves tr = true ->
  tr = t1 ++ Did path op (ABroadcast effs) :: t2 ->
  path = Queued /\ isModifyingQuery (op_query op) = true /\
  exists result t3, t2 = Did Queued op (AResolve result) :: t3.
Proof.
  revert tr. induction t1 as [|e t1 IH]; intros tr H ->.
  - cbn [app tells_then_resolves] in H. destruct path; [|discriminate].
    destruct t2 as [|[| |[] op' [] | | |] t2']; try discriminate.
    apply andb_true_iff in H as [[Heq Hm]%andb_true_iff _].
    apply bool_decide_eq_true in Heq as ->. eauto.
  - apply (IH _ (tells_then_resolves_tail _ _ H) eq_refl).
Qed.

Lemma quiet_chunk (path : Path) (op : Op) (acts : list Action) :
  existsb is_telling acts = false ->
  tells_then_resolves (did path op acts) = true /\
  Forall told_by_broadcaster (did path op acts).
Proof.
  induction acts as [|a acts IH]; [split; [done|constructor]|].
  simpl. intros [Ha Hrest]%orb_false_iff. destruct (IH Hrest) as [H1 H2].
  split; [|constructor; [|exact H2]]; destruct a; try discriminate; done.
Qed.

Lemma thunk_head_quiet (op : Op) (k : Z) (le : option Error) :
  existsb is_telling (fst (thunk_head op k le)) = false.
Proof. unfold thunk_head. now destruct (le_num k (op_retries op)). Qed.

Lemma fast_head_quiet (op : Op) (k : Z) (le : option Error) :
  existsb is_telling (fst (fast_head op k le)) = false.
Proof. unfold fast_head. now destruct (le_num k (op_retries op)). Qed.

Lemma thunk_catch_quiet (op : Op) (l : Loop) (error : Error) :
  existsb is_telling (fst (thunk_catch op l error)) = false.
Proof.
  unfold thunk_catch. destruct (lt_num (attempt l) (op_retries op)); [done|].
  pose proof (thunk_head_quiet op (attempt l + 1) (Some error)) as H.
  now destruct (thunk_head op (attempt l + 1) (Some error)).
Qed.

Lemma fast_query_done_quiet (op : Op) (l : Loop) (res : Settled Results) :
  existsb is_telling (fst (fast_query_done op l res)) = false.
Proof.
  unfold fast_query_done. destruct res as [result|error]; [done|].
  destruct (lt_num (attempt l) (op_retries op)); [done|].
  pose proof (fast_head_quiet op (attempt l + 1) (Some error)) as H.
  now destruct (fast_head op (attempt l + 1) (Some error)).
Qed.

Lemma thunk_query_done_chunk (p : Platform) (channel : bool) (op : Op) (l : Loop)
    (res : Settled Results) :
  let acts := fst (thunk_query_done p channel op l res) in
  tells_then_resolves (did Queued op acts) = true /\
  Forall told_by_broadcaster (did Queued op acts).
Proof.
  unfold thunk_query_done. destruct res as [result|error];
    [|apply quiet_chunk, thunk_catch_quiet].
  destruct (isModifyingQuery (op_query op)) eqn:Hm; [|now apply quiet_chunk].
  pose proof (broadcastDatabaseChange_never_raises p channel (op_query op)
                (op_broadcastTable op)) as Hnr.
  destruct (broadcastDatabaseChange p channel (op_query op) (op_broadcastTable op))
    as [effs [[]|e]] eqn:Hb; [|discriminate].
  cbv zeta. cbn [fst did map tells_then_resolves].
  rewrite bool_decide_eq_true_2 by done. rewrite Hm. split; [done|].
  repeat constructor. exists p, channel. now rewrite Hb.
Qed.

Lemma tells_extend (s s' : State) (evs : list Event) :
  tells s -> trace s' = trace s ++ evs ->
  tells_then_resolves evs = true /\ Forall told_by_broadcaster evs ->
  tells s'.
Proof.
  intros [H1 H2] Htr [H3 H4]. split; rewrite Htr.
  - now apply tells_then_resolves_app.
  - now apply Forall_app.
Qed.

Lemma tells_cons (e : Event) (evs : list Event) :
  (forall path op a, e <> Did path op a) ->
  tells_then_resolves evs = true /\ Forall told_by_broadcaster evs ->
  tells_then_resolves (e :: evs) = true /\ Forall told_by_broadcaster (e :: evs).
Proof.
  intros He [H1 H2]. split; [|constructor; [|exact H2]];
    destruct e as [| |path op a| | |]; try done; now destruct (He path op a).
Qed.

Lemma tells_processPendingTransactions (s : State) :
  tells s -> tells (processPendingTransactions s).
Proof.
  intros Ht. unfold processPendingTransactions.
  destruct (pendingTransactions s) as [|hd rest]; [exact Ht|].
  destruct (isTransactionInProgress s); [exact Ht|].
  pose proof (thunk_head_quiet hd 1 None) as Hq.
  destruct (thunk_head hd 1 None) as [acts l].
  apply (tells_extend s _ (Started hd :: did Queued hd acts) Ht); [reflexivity|].
  apply tells_cons; [discriminate|]. now apply quiet_chunk.
Qed.

Lemma tells_step (s s' : State) (i : Input) :
  tells s -> step s i = Some s' -> tells s'.
Proof.
  intros Ht Hstep.
  destruct i as [query params config init| |id res p|id|id|]; simpl in Hstep.
  - simplify_eq. unfold executeQuery. destruct init as [e|].
    + eapply tells_extend; [exact Ht | reflexivity |]. split; [done|].
      repeat constructor.
    + destruct (takes_fast_path query config).
      * pose proof (fast_head_quiet (new_op s query params config) 1 None) as Hq.
        destruct (fast_head _ 1 None) as [acts l].
        eapply tells_extend; [exact Ht | reflexivity |].
        apply tells_cons; [discriminate|]. now apply quiet_chunk.
      * apply tells_processPendingTransactions.
        eapply tells_extend; [exact Ht | reflexivity |]. split; [done|]. repeat constructor.
  - destruct (timers s) eqn:Htm; [discriminate|]. simplify_eq.
    apply tells_processPendingTransactions. exact Ht.
  - destruct (tasks s !! id) as [[op' [l|]|op' l]|] eqn:Hlk; try discriminate;
      destruct (phase l) eqn:Hph; try discriminate.
    + pose proof (thunk_query_done_chunk p (dbChannel s) op' l res) as Hc.
      destruct (thunk_query_done p (dbChannel s) op' l res) as [acts l'].
      simplify_eq. eapply tells_extend; [exact Ht | reflexivity | exact Hc].
    + pose proof (fast_query_done_quiet op' l res) as Hq.
      destruct (fast_query_done op' l res) as [acts l'].
      simplify_eq. eapply tells_extend; [exact Ht | reflexivity |]. now apply quiet_chunk.
  - destruct (tasks s !! id) as [[op' [l|]|op' l]|] eqn:Hlk; try discriminate;
      destruct (phase l) eqn:Hph; try discriminate.
    + pose proof (thunk_head_quiet op' (attempt l + 1) (lastError l)) as Hq.
      unfold thunk_backoff_done in Hstep.
      destruct (thunk_head op' (attempt l + 1) (lastError l)) as [acts l'].
      simplify_eq. eapply tells_extend; [exact Ht | reflexivity |]. now apply quiet_chunk.
    + pose proof (fast_head_quiet op' (attempt l + 1) (lastError l)) as Hq.
      unfold fast_backoff_done in Hstep.
      destruct (fast_head op' (attempt l + 1) (lastError l)) as [acts l'].
      simplify_eq. eapply tells_extend; [exact Ht | reflexivity |]. now apply quiet_chunk.
  - destruct (tasks s !! id) as [[op' [l|]|op' l]|] eqn:Hlk; try discriminate.
    simplify_eq. eapply tells_extend; [exact Ht | reflexivity |]. split; [done|].
    repeat constructor.
  - simplify_eq. exact Ht.
Qed.

Lemma tells_run (channel : bool) (inputs : list Input) (s : State) :
  run (initial channel) inputs = Some s -> tells s.
Proof. apply (run_invariant tells tells_step). split; [done|constructor]. Qed.

Lemma broadcast_effects (p : Platform) (channel : bool) (query : string)
    (affectedTable : option string) (f : Effect) :
  f ∈ fst (broadcastDatabaseChange p channel query affectedTable) ->
  match f with
  | ChannelPost info => channel = true /\ info = notice p query affectedTable (now p)
  | StorageSet key info =>
      key = "db_change_notification"%string /\
      info = notice p query affectedTable (now_marker p)
  | WindowDispatch name info =>
      name = "database-changed"%string /\ info = notice p query affectedTable (now p)
  | ConsoleLog msg => msg = "Broadcasting update via channel:"%string
  | ConsoleError msg e => msg = "Error broadcasting change:"%string
  | ConsoleLogCount _ _ => False
  end.
Proof.
  unfold broadcastDatabaseChange, postMessage, setItem, dispatchEvent, notice.
  destruct channel, (postMessage_throws p), (setItem_throws p), (dispatchEvent_throws p);
    simpl; intros Hin;
    repeat (apply elem_of_cons in Hin as [->|Hin]; [auto|]);
    by apply elem_of_nil in Hin.
Qed.

(** With transports that work, the three deliveries are made. *)
Lemma broadcast_all (p : Platform) (channel : bool) (query : string)
    (affectedTable : option string) :
  transports_work p ->
  fst (broadcastDatabaseChange p channel query affectedTable) =
  (if channel
   then [ConsoleLog "Broadcasting update via channel:";
         ChannelPost (notice p query affectedTable (now p))]
   else []) ++
  [StorageSet "db_change_notification" (notice p query affectedTable (now_marker p));
   WindowDispatch "database-changed" (notice p query affectedTable (now p))].
Proof.
  intros (H1 & H2 & H3).
  unfold broadcastDatabaseChange, postMessage, setItem, dispatchEvent, notice.
  rewrite H1, H2, H3. now destruct channel.
Qed.

(** ** The connection at hand *)

(** What a step does to the connection at hand, and what it hands out. *)
Lemma session_step_handles (s s' : Session.State) (i : Session.Input) :
  Session.step s i = Some s' ->
  (Session.next_handle s <= Session.next_handle s')%nat /\
  (Session.dbInstance s' = Session.dbInstance s \/
   Session.dbInstance s' = None \/
   (Session.dbInstance s' = Some (Session.next_handle s) /\
    Session.next_handle s' = S (Session.next_handle s))) /\
  exists evs, Session.log s' = Session.log s ++ evs /\
    forall call h, Session.Return call (Some h) ∈ evs -> Session.dbInstance s = Some h.
Proof.
  unfold Session.step, Session.initializeDatabase, Session.fail, Session.suspend.
  intros H.
  destruct i; simpl in *;
    repeat (match type of H with
            | context [match ?x with _ => _ end] => destruct x eqn:?
            end; simpl in *);
    simplify_eq; simpl;
    (split; [lia|]); (split; [auto|]);
    try (exists []; split; [symmetry; apply app_nil_r | intros ? ? Hin; by apply elem_of_nil in Hin]);
    (eexists; split; [reflexivity|]); intros call0 h0 Hin;
    repeat (apply elem_of_cons in Hin as [Hin|Hin]; simplify_eq);
    try (by apply elem_of_nil in Hin); try congruence.
Qed.

Lemma handles_made_step (s s' : Session.State) (i : Session.Input) :
  handles_made s -> Session.step s i = Some s' -> handles_made s'.
Proof.
  intros [H1 H2] Hstep.
  destruct (session_step_handles _ _ _ Hstep) as (Hle & Hdb & evs & Hlog & Hret).
  split.
  - intros h Hh. destruct Hdb as [Heq|[Heq|[Heq Hn]]].
    + rewrite Heq in Hh. apply H1 in Hh. lia.
    + congruence.
    + rewrite Heq in Hh. simplify_eq. lia.
  - intros call h. rewrite Hlog, elem_of_app. intros [Hin|Hin].
    + apply H2 in Hin. lia.
    + apply Hret, H1 in Hin. lia.
Qed.

Lemma session_run_invariant (P : Session.State -> Prop) :
  (forall s s' i, P s -> Session.step s i = Some s' -> P s') ->
  forall inputs s s', P s -> Session.run s inputs = Some s' -> P s'.
Proof.
  intros Hstep. induction inputs as [|i inputs IH]; intros s s' HP Hrun; simpl in Hrun.
  - now simplify_eq.
  - destruct (Session.step s i) as [s1|] eqn:Hs; [|discriminate]. eauto.
Qed.

Lemma handles_made_run (inputs : list Session.Input) (s : Session.State) :
  Session.run Session.fresh inputs = Some s -> handles_made s.
Proof.
  apply (session_run_invariant handles_made handles_made_step).
  split; simpl; [discriminate|]. intros call h Hin. by apply elem_of_nil in Hin.
Qed.

Lemma made_after_step (n : nat) (s s' : Session.State) (i : Session.Input) :
  made_after n s -> Session.step s i = Some s' -> made_after n s'.
Proof.
  intros [H1 H2] Hstep.
  destruct (session_step_handles _ _ _ Hstep) as (Hle & Hdb & _).
  split; [lia|]. intros h Hh. destruct Hdb as [Heq|[Heq|[Heq Hn]]].
  - rewrite Heq in Hh. now apply H2.
  - congruence.
  - rewrite Heq in Hh. simplify_eq. lia.
Qed.

Lemma outcome_elem (call : nat) (evs : list Session.Event) (h : option Session.Handle) :
  Session.outcome call evs = Some (inl h) -> Session.Return call h ∈ evs.
Proof.
  induction evs as [|e evs IH]; simpl; [discriminate|].
  destruct e as [| |c h0|c e0]; try (intros Ho; right; now apply IH);
    case_decide as Hc; intros Ho; simplify_eq; try (left; fail); right; now apply IH.
Qed.

(** ** Listeners added and removed *)

Lemma removeEventListener_added (regs : list Registration) (r : Registration) :
  r ∉ regs -> removeEventListener (addEventListener regs r) r = regs.
Proof.
  intros Hnot. unfold addEventListener, removeEventListener.
  rewrite decide_False by exact Hnot. rewrite filter_app.
  rewrite filter_cons_False by (intros H; now apply H). simpl. rewrite app_nil_r.
  induction regs as [|x regs IH]; [reflexivity|].
  rewrite filter_cons_True by (intros ->; apply Hnot; left).
  f_equal. apply IH. intros H. apply Hnot. now right.
Qed.

Lemma elem_of_addEventListener (regs : list Registration) (r x : Registration) :
  x ∈ addEventListener regs r <-> x ∈ regs \/ x = r.
Proof.
  unfold addEventListener. destruct (decide (r ∈ regs)) as [Hin|Hnot].
  - split; [auto|]. intros [H| ->]; assumption.
  - rewrite elem_of_app, list_elem_of_singleton. reflexivity.
Qed.

Lemma elem_of_removeEventListener (regs : list Registration) (r x : Registration) :
  x ∈ removeEventListener regs r <-> x ∈ regs /\ x <> r.
Proof. unfold removeEventListener. rewrite list_elem_of_filter. tauto. Qed.

Lemma removeEventListener_comm (regs : list Registration) (r1 r2 : Registration) :
  removeEventListener (removeEventListener regs r1) r2 =
  removeEventListener (removeEventListener regs r2) r1.
Proof.
  unfold removeEventListener. induction regs as [|x regs IH]; [reflexivity|].
  destruct (decide (x = r1)) as [H1|H1], (decide (x = r2)) as [H2|H2];
    repeat (first [rewrite filter_cons_True by (try intros ?; congruence)
                  |rewrite filter_cons_False by (intros H; apply H; congruence)]);
    congruence.
Qed.

Lemma removeEventListener_add_other (regs : list Registration) (r1 r2 : Registration) :
  r1 <> r2 ->
  removeEventListener (addEventListener regs r1) r2 =
  addEventListener (removeEventListener regs r2) r1.
Proof.
  intros Hne. unfold addEventListener.
  destruct (decide (r1 ∈ regs)) as [Hin|Hnot].
  - rewrite decide_True; [reflexivity|].
    apply elem_of_removeEventListener. auto.
  - rewrite decide_False by (rewrite elem_of_removeEventListener; tauto).
    unfold removeEventListener. rewrite filter_app.
    now rewrite (filter_cons_True _ r1) by exact Hne.
Qed.

Lemma removeEventListener_absent (regs : list Registration) (r : Registration) :
  r ∉ regs -> removeEventListener regs r = regs.
Proof.
  unfold removeEventListener. induction regs as [|x regs IH]; intros Hnot; [reflexivity|].
  rewrite filter_cons_True by (intros ->; apply Hnot; left).
  f_equal. apply IH. intros H. apply Hnot. now right.
Qed.

Lemma removeEventListener_idem (regs : list Registration) (r : Registration) :
  removeEventListener (removeEventListener regs r) r = removeEventListener regs r.
Proof.
  apply removeEventListener_absent. rewrite elem_of_removeEventListener. tauto.
Qed.

Lemma run_cleanup_comm (ch : option nat) (regs : list Registration) (c1 c2 : Cleanup) :
  run_cleanup ch (run_cleanup ch regs c1) c2 = run_cleanup ch (run_cleanup ch regs c2) c1.
Proof.
  destruct c1, c2, ch; simpl; auto using removeEventListener_comm.
Qed.

Lemma run_cleanup_idem (ch : option nat) (regs : list Registration) (c : Cleanup) :
  run_cleanup ch (run_cleanup ch regs c) c = run_cleanup ch regs c.
Proof. destruct c, ch; simpl; auto using removeEventListener_idem. Qed.

Lemma unsubscribe_run_cleanup (ch : option nat) (cs : list Cleanup) (c : Cleanup) :
  forall regs,
    unsubscribe ch cs (run_cleanup ch regs c) = run_cleanup ch (unsubscribe ch cs regs) c.
Proof.
  unfold unsubscribe. induction cs as [|c' cs IH]; intros regs; [reflexivity|].
  simpl. now rewrite run_cleanup_comm, IH.
Qed.

Lemma unsubscribe_cons (ch : option nat) (c : Cleanup) (cs : list Cleanup)
    (regs : list Registration) :
  unsubscribe ch (c :: cs) regs = run_cleanup ch (unsubscribe ch cs regs) c.
Proof. exact (unsubscribe_run_cleanup ch cs c regs). Qed.

Lemma unsubscribe_idem (ch : option nat) (cs : list Cleanup) :
  forall regs, unsubscribe ch cs (unsubscribe ch cs regs) = unsubscribe ch cs regs.
Proof.
  induction cs as [|c cs IH]; intros regs; [reflexivity|].
  now rewrite !unsubscribe_cons, unsubscribe_run_cleanup, IH, run_cleanup_idem.
Qed.

Lemma elem_of_run_cleanup (ch : option nat) (regs : list Registration) (c : Cleanup)
    (x : Registration) :
  x ∈ run_cleanup ch regs c ->  x ∈ regs.
Proof.
  destruct c, ch; simpl; rewrite ?elem_of_removeEventListener; tauto.
Qed.

Lemma fresh_registration (w : Subscriptions) (t : Target) (type : string) (l : Listener) :
  subscriptions_ok w -> listener_sub l = Some (next_sub w) -> (t, type, l) ∉ regs w.
Proof. intros Hok Hl Hin. pose proof (Hok _ _ _ _ Hin Hl). lia. Qed.

(** ** The table a notice names *)

Lemma lower_char_lowered (c : ascii) : lowered (lower_char c) = true.
Proof.
  assert (H : forallb (fun c => lowered (lower_char c)) all_ascii = true)
    by (vm_compute; reflexivity).
  rewrite forallb_forall in H. apply H, in_all_ascii.
Qed.

Lemma toLowerCase_lowered (s : string) : string_forall lowered (toLowerCase s) = true.
Proof.
  induction s as [|c s IH]; simpl; [reflexivity|]. now rewrite lower_char_lowered, IH.
Qed.

Lemma lowered_toLowerCase (s : string) :
  string_forall lowered s = true -> toLowerCase s = s.
Proof.
  induction s as [|c s IH]; simpl; [reflexivity|]. intros H.
  apply andb_true_iff in H as [Hc Hs]. apply Ascii.eqb_eq in Hc. now rewrite Hc, IH.
Qed.

Lemma string_forall_skip_while (P cls : ascii -> bool) (s : string) :
  string_forall P s = true -> string_forall P (skip_while cls s) = true.
Proof.
  induction s as [|c s IH]; simpl; [done|]. intros H.
  destruct (cls c); [apply andb_true_iff in H as [_ H]; auto | exact H].
Qed.

Lemma string_forall_take_while (P cls : ascii -> bool) (s : string) :
  string_forall P s = true -> string_forall P (take_while cls s) = true.
Proof.
  induction s as [|c s IH]; simpl; [done|]. intros H.
  apply andb_true_iff in H as [Hc H]. destruct (cls c); [|reflexivity].
  simpl. now rewrite Hc, IH.
Qed.

Lemma string_forall_drop_chars (P : ascii -> bool) (n : nat) :
  forall s, string_forall P s = true -> string_forall P (drop_chars n s) = true.
Proof.
  induction n as [|n IH]; intros [|c s]; simpl; try done.
  intros H. apply andb_true_iff in H as [_ H]. auto.
Qed.

Lemma string_forall_name_after (P : ascii -> bool) (kw s name : string) :
  string_forall P s = true -> name_after kw s = Some name ->
  string_forall P name = true.
Proof.
  unfold name_after. intros Hs. destruct (String.prefix kw s); [|discriminate].
  pose proof (string_forall_drop_chars P (String.length kw) s Hs) as Hd.
  destruct (drop_chars (String.length kw) s) as [|c r]; [discriminate|].
  simpl in Hd. apply andb_true_iff in Hd as [_ Hr].
  destruct (is_space c); [|discriminate].
  pose proof (string_forall_take_while P is_name_char _
                (string_forall_skip_while P is_space r Hr)) as Ht.
  destruct (take_while is_name_char (skip_while is_space r)); [discriminate|].
  now intros [= <-].
Qed.

Lemma string_forall_first_entity (P : ascii -> bool) (s name : string) :
  string_forall P s = true -> first_entity s = Some name ->
  string_forall P name = true.
Proof.
  induction s as [|c s IH]; intros Hs; simpl.
  - unfold entity_at, name_after. simpl. discriminate.
  - destruct (entity_at (String c s)) as [n|] eqn:He.
    + intros [= <-]. unfold entity_at in He.
      destruct (name_after "from" (String c s)) eqn:H1;
        [simplify_eq; eapply string_forall_name_after; eauto|].
      destruct (name_after "into" (String c s)) eqn:H2;
        [simplify_eq; eapply string_forall_name_after; eauto|].
      eapply string_forall_name_after; eauto.
    + simpl in Hs. apply andb_true_iff in Hs as [_ Hs]. now apply IH.
Qed.

(** The table [getAffectedTable] finds is in lower case, and is not the
    empty string. *)
Lemma getAffectedTable_lowered (query table : string) :
  getAffectedTable query = Some table ->
  toLowerCase table = table /\ table <> EmptyString.
Proof.
  unfold getAffectedTable. cbv zeta.
  rewrite (regex_exec_first_entity _ (toLowerCase_no_capitals query)).
  intros H. split.
  - apply lowered_toLowerCase.
    exact (string_forall_first_entity _ _ _ (toLowerCase_lowered query) H).
  - clear -H. induction (toLowerCase query) as [|c s IH]; simpl in H.
    + unfold entity_at, name_after in H. simpl in H. discriminate.
    + destruct (entity_at (String c s)) as [n|] eqn:He; [|now apply IH].
      simplify_eq. unfold entity_at in He.
      destruct (name_after "from" (String c s)) eqn:H1;
        [simplify_eq; eapply name_after_nonempty; eauto|].
      destruct (name_after "into" (String c s)) eqn:H2;
        [simplify_eq; eapply name_after_nonempty; eauto|].
      eapply name_after_nonempty; eauto.
Qed.

(** The table named in a notice is never the empty string. *)
Lemma notice_table (p : Platform) (query : string) (hint : option string) (ts : Z) :
  ci_affectedTable (notice p query hint ts) <> Some EmptyString.
Proof.
  unfold notice, js_or. simpl. destruct hint as [[|c t]|]; try discriminate;
    destruct (getAffectedTable query) as [t0|] eqn:Hg; try discriminate;
    intros [= ->]; now destruct (getAffectedTable_lowered _ _ Hg).
Qed.

(** ** The classification of statements *)

Lemma trimStart_split (s : string) :
  exists ws, s = (ws ++ trimStart s)%string /\ string_forall is_space ws = true.
Proof.
  induction s as [|c s (ws & Hs & Hws)]; simpl; [now exists EmptyString|].
  destruct (is_space c) eqn:Hc; [|now exists EmptyString].
  exists (String c ws).
  split; [rewrite append_String; f_equal; exact Hs | simpl; now rewrite Hc, Hws].
Qed.

Lemma trimStart_spaces (ws t : string) :
  string_forall is_space ws = true -> trimStart (ws ++ t) = trimStart t.
Proof.
  induction ws as [|c ws IH]; simpl; [done|].
  intros H. apply andb_true_iff in H as [Hc Hws]. rewrite Hc. now apply IH.
Qed.

Lemma lower_letter_no_space (c : ascii) : is_lower_letter c = true -> is_space c = false.
Proof.
  assert (H : forallb (fun c => implb (is_lower_letter c) (negb (is_space c))) all_ascii
              = true) by (vm_compute; reflexivity).
  rewrite forallb_forall in H. specialize (H c (in_all_ascii c)).
  intros Hl. rewrite Hl in H. simpl in H. now apply negb_true_iff.
Qed.

(** Trimming at the end does not touch a prefix without white space. *)
Lemma prefix_trimEnd (kw t : string) :
  string_forall is_lower_letter kw = true ->
  String.prefix kw (trimEnd t) = String.prefix kw t.
Proof.
  revert t. induction kw as [|k kw IH]; intros t Hkw;
    [now destruct (trimEnd t), t|].
  simpl in Hkw. apply andb_true_iff in Hkw as [Hk Hkw].
  destruct t as [|c t]; [reflexivity|]. simpl.
  specialize (IH t Hkw).
  destruct (trimEnd t) as [|c' t'] eqn:Ht.
  - destruct (is_space c) eqn:Hc.
    + simpl. destruct (ascii_dec k c) as [->|]; [|reflexivity].
      rewrite (lower_letter_no_space _ Hk) in Hc. discriminate.
    + simpl. destruct (ascii_dec k c); [exact IH | reflexivity].
  - simpl. destruct (ascii_dec k c); [exact IH | reflexivity].
Qed.

Lemma toLowerCase_app (a b : string) :
  toLowerCase (a ++ b) = (toLowerCase a ++ toLowerCase b)%string.
Proof. induction a as [|c a IH]; simpl; [reflexivity | now rewrite IH]. Qed.

Lemma toLowerCase_split (q a b : string) :
  toLowerCase q = (a ++ b)%string ->
  exists qa qb, q = (qa ++ qb)%string /\ toLowerCase qa = a /\ toLowerCase qb = b.
Proof.
  revert q. induction a as [|c a IH]; intros q H; simpl in H.
  - now exists EmptyString, q.
  - destruct q as [|d q]; [discriminate|]. simpl in H. injection H as Hc Hq.
    destruct (IH _ Hq) as (qa & qb & -> & Ha & Hb).
    exists (String d qa), qb. simpl. now rewrite Hc, Ha.
Qed.

Lemma string_forall_toLowerCase_space (s : string) :
  string_forall is_space (toLowerCase s) = string_forall is_space s.
Proof.
  induction s as [|c s IH]; simpl; [reflexivity|]. now rewrite is_space_lower_char, IH.
Qed.

(** The characters that [toLowerCase] turns into a given small letter. *)
Lemma lower_char_letter (c k : ascii) :
  is_lower_letter k = true ->
  (lower_char c = k <-> Ascii.eqb c k || (code c + 32 =? code k) = true).
Proof.
  assert (H : forallb (fun k => forallb (fun c =>
                implb (is_lower_letter k)
                  (Bool.eqb (Ascii.eqb (lower_char c) k)
                            (Ascii.eqb c k || (code c + 32 =? code k))))
                all_ascii) all_ascii = true) by (vm_compute; reflexivity).
  rewrite forallb_forall in H. specialize (H k (in_all_ascii k)).
  rewrite forallb_forall in H. specialize (H c (in_all_ascii c)).
  intros Hk. rewrite Hk in H. simpl in H. apply Bool.eqb_prop in H.
  rewrite <- H. symmetry. apply Ascii.eqb_eq.
Qed.

Lemma same_word_toLowerCase (w kw : string) :
  string_forall is_lower_letter kw = true ->
  (toLowerCase w = kw <-> same_word w kw = true).
Proof.
  revert kw. induction w as [|c w IH]; intros [|k kw] Hkw; simpl; try (split; done).
  simpl in Hkw. apply andb_true_iff in Hkw as [Hk Hkw].
  rewrite andb_true_iff, <- (lower_char_letter c k Hk), <- (IH kw Hkw).
  split; [intros [= -> ->]; done | intros [-> ->]; done].
Qed.

(** A statement begins with a keyword, once lowercased and trimmed, when
    it is white space, then the keyword in any case, then anything. *)
Lemma startsWith_keyword (q kw : string) :
  kw <> EmptyString ->
  string_forall is_lower_letter kw = true ->
  (startsWith (trim (toLowerCase q)) kw = true <->
   exists ws w rest,
     q = (ws ++ w ++ rest)%string /\
     string_forall is_space ws = true /\ same_word w kw = true).
Proof.
  intros Hne Hkw. unfold startsWith, trim. rewrite (prefix_trimEnd _ _ Hkw). split.
  - intros H. apply prefix_app in H as [r Hr].
    destruct (trimStart_split (toLowerCase q)) as (ls & Hq & Hls).
    rewrite Hr in Hq.
    apply toLowerCase_split in Hq as (ws & q' & -> & Hws & Hq').
    apply toLowerCase_split in Hq' as (w & rest & -> & Hw & _).
    exists ws, w, rest. split; [reflexivity|]. split.
    + now rewrite <- string_forall_toLowerCase_space, Hws.
    + now apply same_word_toLowerCase.
  - intros (ws & w & rest & -> & Hws & Hw).
    apply (same_word_toLowerCase _ _ Hkw) in Hw.
    rewrite !toLowerCase_app, Hw.
    rewrite trimStart_spaces by (now rewrite string_forall_toLowerCase_space).
    destruct kw as [|k kw]; [done|]. simpl in Hkw.
    apply andb_true_iff in Hkw as [Hk _].
    rewrite append_String. simpl. rewrite (lower_letter_no_space _ Hk).
    apply prefix_app. now exists (toLowerCase rest).
Qed.

(** ** The bootstrap, as the shell sees it *)

Lemma initializePatientTable_never_raises (exec : string -> option (Settled Results)) :
  forall e, snd (initializePatientTable exec) <> Raises e.
Proof.
  unfold initializePatientTable, atry, abind, await, aperform, aret. intros e.
  destruct (exec create_table_sql) as [[r1|e1]|]; simpl; try discriminate.
  destruct (exec table_check_sql) as [[r2|e2]|]; simpl; try discriminate.
  destruct (exec create_index_sql) as [[r3|e3]|]; simpl; discriminate.
Qed.

Lemma initializePatientTable_rejected (exec : string -> option (Settled Results))
    (e : Error) :
  exec create_table_sql = Some (inr e) ->
  snd (initializePatientTable exec) = Returns false.
Proof.
  unfold initializePatientTable, atry, abind, await, aperform, aret.
  now intros ->.
Qed.

(** ** The fields of the form *)

Lemma trimEnd_empty (s : string) :
  trimEnd s = EmptyString <-> string_forall is_space s = true.
Proof.
  induction s as [|c s IH]; simpl; [tauto|].
  destruct (trimEnd s) eqn:Ht.
  - destruct (is_space c); simpl; [tauto|]. split; [discriminate|].
    intros H. discriminate.
  - split; [discriminate|]. intros H. apply andb_true_iff in H as [_ H].
    apply IH in H. discriminate.
Qed.

Lemma string_forall_trimStart (P : ascii -> bool) (s : string) :
  string_forall P s = true -> string_forall P (trimStart s) = true.
Proof.
  induction s as [|c s IH]; simpl; [done|]. intros H.
  apply andb_true_iff in H as [Hc Hs]. destruct (is_space c); [auto|].
  simpl. now rewrite Hc, Hs.
Qed.

Lemma string_forall_trimStart_space (s : string) :
  string_forall is_space (trimStart s) = true -> string_forall is_space s = true.
Proof.
  induction s as [|c s IH]; simpl; [done|].
  destruct (is_space c) eqn:Hc; [auto|]. simpl. now rewrite Hc.
Qed.

(** A string trims to nothing exactly when it is made of white space. *)
Lemma trim_empty (s : string) :
  trim s = EmptyString <-> string_forall is_space s = true.
Proof.
  unfold trim. rewrite trimEnd_empty. split.
  - apply string_forall_trimStart_space.
  - apply string_forall_trimStart.
Qed.

Lemma trimStart_app (a j : string) :
  trimStart a <> EmptyString -> trimStart (a ++ j) = (trimStart a ++ j)%string.
Proof.
  induction a as [|c a IH]; [simpl; congruence|].
  rewrite append_String. simpl. destruct (is_space c); [exact IH|].
  intros _. now rewrite append_String.
Qed.

Lemma digit_value_nonneg (c : ascii) (d : Z) : Form.digit_value c = Some d -> 0 <= d.
Proof.
  unfold Form.digit_value. cbv zeta.
  repeat case_match; intros; simplify_eq; lia.
Qed.

Lemma leading_digits_grows (radix : Z) (s : string) :
  1 <= radix ->
  forall a, 0 <= a ->
    exists v, Form.leading_digits radix s (Some a) = Some v /\ a <= v.
Proof.
  intros Hr. induction s as [|c s IH]; intros a Ha; simpl; [eauto with lia|].
  destruct (Form.digit_value c) as [d|] eqn:Hd; [|eauto with lia].
  destruct (d <? radix); [|eauto with lia].
  pose proof (digit_value_nonneg _ _ Hd).
  destruct (IH (radix * a + d)) as (v & Hv & Hle); [nia|].
  exists v. split; [exact Hv | nia].
Qed.

Lemma leading_digits_app (radix : Z) (s j : string) :
  1 <= radix ->
  forall acc v,
    match acc with Some a => 0 <= a | None => True end ->
    Form.leading_digits radix s acc = Some v ->
    exists v', Form.leading_digits radix (s ++ j) acc = Some v' /\ v <= v'.
Proof.
  intros Hr. induction s as [|c s IH]; intros acc v Hacc Hv; simpl in Hv.
  - subst acc. simpl. apply leading_digits_grows; assumption.
  - rewrite append_String. simpl.
    destruct (Form.digit_value c) as [d|] eqn:Hd; [|rewrite Hv; eauto with lia].
    destruct (d <? radix); [|rewrite Hv; eauto with lia].
    apply IH; [|exact Hv].
    pose proof (digit_value_nonneg _ _ Hd). destruct acc as [a|]; simpl; nia.
Qed.

Lemma leading_digits_nonneg (radix : Z) (s : string) :
  1 <= radix ->
  forall acc v,
    match acc with Some a => 0 <= a | None => True end ->
    Form.leading_digits radix s acc = Some v -> 0 <= v.
Proof.
  intros Hr. induction s as [|c s IH]; intros acc v Hacc Hv; simpl in Hv.
  - now subst acc.
  - destruct (Form.digit_value c) as [d|] eqn:Hd; [|now subst acc].
    destruct (d <? radix); [|now subst acc].
    eapply IH; [|exact Hv].
    pose proof (digit_value_nonneg _ _ Hd). destruct acc as [a|]; simpl in *; nia.
Qed.

Lemma age_accepted_append (a junk : string) :
  age_accepted a -> age_accepted (a ++ junk).
Proof.
  unfold age_accepted, Form.parseInt. intros (n & Hn & Hpos).
  destruct (trimStart a) as [|c0 r0] eqn:Ha; [discriminate|].
  rewrite trimStart_app by (rewrite Ha; discriminate). rewrite Ha.
  rewrite append_String.
  unfold Form.strip_sign in *.
  destruct (Ascii.eqb c0 "-") eqn:Hminus.
  { exfalso. destruct (Form.strip_prefix r0) as [radix s2] eqn:Hp.
    destruct (Form.leading_digits radix s2 None) as [v|] eqn:Hv; [|discriminate].
    simpl in Hn. simplify_eq.
    assert (1 <= radix).
    { unfold Form.strip_prefix in Hp. repeat case_match; simplify_eq; lia. }
    pose proof (leading_digits_nonneg radix s2 ltac:(assumption) None v I Hv). lia. }
  assert (Hcore : forall s,
    (exists v, (let '(radix, s2) := Form.strip_prefix s in
                Form.leading_digits radix s2 None) = Some v /\ 0 < v) ->
    exists v', (let '(radix, s2) := Form.strip_prefix (s ++ junk) in
                Form.leading_digits radix s2 None) = Some v' /\ 0 < v').
  { intros s (v & Hv & Hvpos).
    destruct s as [|d0 [|d1 s']].
    - simpl in Hv. discriminate.
    - simpl in Hv.
      destruct (Form.digit_value d0) as [d|] eqn:Hd; [|discriminate].
      destruct (d <? 10) eqn:Hlt; [|discriminate]. simpl in Hv. simplify_eq.
      assert (Hnot0 : Ascii.eqb d0 "0" = false).
      { destruct (Ascii.eqb d0 "0") eqn:H0; [|reflexivity].
        apply Ascii.eqb_eq in H0. subst d0. vm_compute in Hd. simplify_eq. lia. }
      rewrite append_String. simpl (_ ++ _)%string.
      unfold Form.strip_prefix. destruct junk as [|j0 junk'].
      + simpl. rewrite Hd, Hlt. simpl. eauto.
      + rewrite Hnot0. simpl. rewrite Hd, Hlt.
        destruct (leading_digits_grows 10 (String j0 junk') ltac:(lia) (10 * 0 + d)
                    ltac:(lia)) as (v' & Hv' & Hle).
        simpl in Hv'. simpl. rewrite Hv'. exists v'. split; [reflexivity | lia].
    - rewrite !append_String. unfold Form.strip_prefix in *.
      destruct (Ascii.eqb d0 "0" && (Ascii.eqb d1 "x" || Ascii.eqb d1 "X")).
      + destruct (leading_digits_app 16 s' junk ltac:(lia) None v I Hv) as (v' & Hv' & Hle).
        exists v'. split; [exact Hv' | lia].
      + rewrite <- !append_String.
        destruct (leading_digits_app 10 (String d0 (String d1 s')) junk ltac:(lia)
                    None v I Hv) as (v' & Hv' & Hle).
        exists v'. split; [exact Hv' | lia]. }
  destruct (Ascii.eqb c0 "+") eqn:Hplus.
  - destruct (Hcore r0) as (v' & Hv' & Hpos').
    { destruct (Form.strip_prefix r0) as [radix s2].
      destruct (Form.leading_digits radix s2 None) as [v|]; [|discriminate].
      simpl in Hn. simplify_eq. exists v. split; [reflexivity | lia]. }
    destruct (Form.strip_prefix (r0 ++ junk)) as [radix s2].
    rewrite Hv'. simpl. exists (1 * v'). split; [reflexivity | lia].
  - destruct (Hcore (String c0 r0)) as (v' & Hv' & Hpos').
    { destruct (Form.strip_prefix (String c0 r0)) as [radix s2].
      destruct (Form.leading_digits radix s2 None) as [v|]; [|discriminate].
      simpl in Hn. simplify_eq. exists v. split; [reflexivity | lia]. }
    rewrite append_String in Hv'.
    destruct (Form.strip_prefix (String c0 (r0 ++ junk))) as [radix s2].
    rewrite Hv'. simpl. exists (1 * v'). split; [reflexivity | lia].
Qed.

Lemma age_accepted_check (a : string) :
  bool_decide (a = EmptyString) ||
  match Form.parseInt a with
  | None => true
  | Some n => n <=? 0
  end = false <-> age_accepted a.
Proof.
  unfold age_accepted. split.
  - intros H. apply orb_false_iff in H as [_ H].
    destruct (Form.parseInt a) as [n|]; [|discriminate].
    exists n. split; [reflexivity|]. apply Z.leb_gt in H. lia.
  - intros (n & Hn & Hpos). rewrite Hn.
    replace (n <=? 0) with false by (symmetry; apply Z.leb_gt; lia).
    rewrite orb_false_r. apply bool_decide_eq_false. intros ->.
    vm_compute in Hn. discriminate.
Qed.

Lemma validateForm_nil (fd : Form.PatientFormData) :
  Form.validateForm fd = [] <->
  trim (Form.fullName fd) <> EmptyString /\
  age_accepted (Form.age fd) /\
  Form.gender fd <> EmptyString.
Proof.
  unfold Form.validateForm. rewrite <- age_accepted_check.
  destruct (bool_decide (Form.age fd = EmptyString) || _) eqn:Hage;
    repeat case_bool_decide; simpl; split;
    try discriminate; try tauto; try (intros (? & ? & ?); congruence).
Qed.

(** ** The columns of the table *)

Lemma elem_of_unique (l : list string) (x : string) :
  x ∈ PatientTable.unique l <-> x ∈ l.
Proof.
  induction l as [|y l IH]; simpl; [reflexivity|].
  rewrite !elem_of_cons, list_elem_of_filter, IH.
  destruct (decide (x = y)); tauto.
Qed.

Lemma NoDup_unique (l : list string) : NoDup (PatientTable.unique l).
Proof.
  induction l as [|y l IH]; simpl; constructor.
  - rewrite list_elem_of_filter. tauto.
  - now apply NoDup_filter.
Qed.

Lemma filter_filter_ne (x : string) (l1 l : list string) :
  filter (fun y => y <> x) (filter (fun y => y ∉ l1) l) =
  filter (fun y => y ∉ x :: l1) l.
Proof.
  induction l as [|z l IH]; [reflexivity|].
  destruct (decide (z ∈ l1)) as [Hin|Hnot].
  - rewrite (filter_cons_False (fun y => y ∉ l1)) by tauto.
    rewrite (filter_cons_False (fun y => y ∉ x :: l1))
      by (rewrite elem_of_cons; tauto).
    exact IH.
  - rewrite (filter_cons_True (fun y => y ∉ l1)) by exact Hnot.
    destruct (decide (z = x)) as [->|Hne].
    + rewrite filter_cons_False by tauto.
      rewrite (filter_cons_False (fun y => y ∉ x :: l1))
        by (rewrite elem_of_cons; tauto).
      exact IH.
    + rewrite filter_cons_True by exact Hne.
      rewrite (filter_cons_True (fun y => y ∉ x :: l1))
        by (rewrite elem_of_cons; tauto).
      now rewrite IH.
Qed.

Lemma unique_app (l1 l2 : list string) :
  PatientTable.unique (l1 ++ l2) =
  PatientTable.unique l1 ++ filter (fun y => y ∉ l1) (PatientTable.unique l2).
Proof.
  induction l1 as [|x l1 IH]; simpl.
  - symmetry. induction (PatientTable.unique l2) as [|z l IHl]; [reflexivity|].
    rewrite filter_cons_True by apply not_elem_of_nil. now rewrite IHl.
  - now rewrite IH, filter_app, filter_filter_ne.
Qed.

Lemma filter_absent (x : string) (l : list string) :
  x ∉ l -> filter (fun y => y <> x) l = l.
Proof.
  induction l as [|y l IH]; intros Hx; [reflexivity|].
  rewrite filter_cons_True by (intros ->; apply Hx; left).
  f_equal. apply IH. intros H. apply Hx. now right.
Qed.

Lemma unique_NoDup (l : list string) : NoDup l -> PatientTable.unique l = l.
Proof.
  induction 1 as [|x l Hx Hnd IH]; simpl; [reflexivity|].
  now rewrite IH, filter_absent.
Qed.

Lemma filter_all_in (l1 l : list string) :
  (forall y, y ∈ l -> y ∈ l1) -> filter (fun y => y ∉ l1) l = [].
Proof.
  induction l as [|z l IH]; intros Hall; [reflexivity|].
  rewrite filter_cons_False by (intros H; apply H, Hall; left).
  apply IH. intros y Hy. apply Hall. now right.
Qed.

(** Rows that all have the columns [ks] give the columns [ks]. *)
Lemma unique_same_keys (ks : list string) (d : list PatientTable.Row) :
  NoDup ks -> d <> [] -> Forall (fun row => PatientTable.keys row = ks) d ->
  PatientTable.unique (flat_map PatientTable.keys d) = ks.
Proof.
  intros Hnd Hne Hall. destruct d as [|row d]; [done|]. clear Hne.
  apply Forall_cons in Hall as [Hrow Hall]. simpl. rewrite Hrow, unique_app.
  rewrite (unique_NoDup _ Hnd), filter_all_in; [apply app_nil_r|].
  intros y. rewrite elem_of_unique. intros Hy.
  apply list_elem_of_In, in_flat_map in Hy as (r & Hr & Hy).
  apply list_elem_of_In in Hr, Hy. rewrite Forall_forall in Hall.
  now rewrite <- (Hall _ Hr).
Qed.

Lemma header_no_underscore (key : string) :
  string_forall (fun c => negb (Ascii.eqb c "_")) (PatientTable.header key) = true.
Proof.
  induction key as [|c r IH]; simpl; [reflexivity|]. rewrite IH, andb_true_r.
  now destruct (Ascii.eqb c "_") eqn:Hc; [|rewrite Hc].
Qed.

(* ================================================================== *)
(** * Part IV: the claims                                              *)
(* ================================================================== *)

(** ** C1: mutual exclusion and order *)

(** C1, where the code departs from it: the second operation is started
    although the promise of the first is not settled, and never will be.
    With [retries = 0] the closure of the first returns without an
    attempt; with [retries = 1.5] it returns after one failed attempt and
    one wait.  Neither resolves nor rejects. *)
Lemma next_starts_before_previous_settles :
  (exists s,
     run (initial true) unsettled_schedule = Some s /\
     trace s = [Pushed unsettled_first; Started unsettled_first;
                Pushed unsettled_second; Finished unsettled_first] ++
               Started unsettled_second :: [Did Queued unsettled_second (AQuery 1)] /\
     settled unsettled_first (trace s) = false) /\
  (exists s,
     run (initial true) fractional_schedule = Some s /\
     trace s = [Pushed fractional_first; Started fractional_first;
                Did Queued fractional_first (AQuery 1);
                Pushed unsettled_second;
                Did Queued fractional_first
                  (AWarn 1 (Ratio 3 2) "connection lost"%string);
                Did Queued fractional_first (ASleep 100);
                Finished fractional_first] ++
               Started unsettled_second :: [Did Queued unsettled_second (AQuery 1)] /\
     settled fractional_first (trace s) = false).
Proof. split; eexists; vm_compute; repeat split. Qed.

(** C1, what holds.  In every run: at most one activation of
    [processPendingTransactions] holds an operation; the operations are
    started in the order in which they were pushed, and all of them when
    nothing was dropped by a cleanup; when an operation is started, every
    operation started before it has finished, its closure having
    returned, which means that its promise is resolved or rejected when
    its [retries] is a count of attempts (an integer, at least 1, or
    Infinity); and whenever an operation of the queue acts against the
    connection it is the only one not finished. *)
Theorem queue_serialises (channel : bool) (inputs : list Input) (s : State) :
  run (initial channel) inputs = Some s ->
  (forall id id' op op' l l',
     tasks s !! id = Some (Processing op l) ->
     tasks s !! id' = Some (Processing op' l') ->
     id = id' /\ op = op') /\
  (started (trace s) ++ pendingTransactions s `sublist_of` pushed (trace s) /\
   NoDup (op_id <$> pushed (trace s))) /\
  (Forall (fun i => i <> ICleanup) inputs ->
   started (trace s) ++ pendingTransactions s = pushed (trace s)) /\
  (forall t1 b t2,
     trace s = t1 ++ Started b :: t2 ->
     forall a, Started a ∈ t1 ->
       Finished a ∈ t1 /\ (is_count (op_retries a) = true -> settled a t1 = true)) /\
  (forall t1 b act t2,
     trace s = t1 ++ Did Queued b act :: t2 ->
     Started b ∈ t1 /\ forall a, Started a ∈ t1 -> a <> b -> Finished a ∈ t1).
Proof.
  intros Hrun.
  destruct (exclusive_run _ _ _ Hrun) as [(o & Hser & Hfl) _].
  destruct (fifo_run _ _ _ Hrun) as (Hsub & _ & Hnd).
  repeat split; try assumption.
  - destruct o as [[op0 b]|];
      [|destruct Hfl as [_ Hnone]; now destruct (Hnone _ _ _ H)].
    destruct Hfl as (_ & _ & Huniq & _).
    now rewrite (Huniq _ _ _ H), (Huniq _ _ _ H0).
  - destruct o as [[op0 b]|];
      [|destruct Hfl as [_ Hnone]; now destruct (Hnone _ _ _ H)].
    destruct Hfl as (_ & _ & Huniq & _).
    pose proof (Huniq _ _ _ H) as ->. pose proof (Huniq _ _ _ H0) as ->. congruence.
  - intros Hno. now apply (fifo_exact_run inputs (initial channel) s Hno).
  - eapply serial_no_overlap; eauto.
  - eapply serial_no_overlap; eauto.
  - eapply serial_acts_alone; eauto.
  - eapply serial_acts_alone; eauto.
Qed.

Lemma queue_serialises_witness :
  started (trace two_calls_served_state) ++ pendingTransactions two_calls_served_state =
    pushed (trace two_calls_served_state) /\
  settled served_first
    (take 7 (trace two_calls_served_state)) = true.
Proof.
  pose proof (queue_serialises true two_calls_served two_calls_served_state eq_refl)
    as (_ & _ & Hall & Hbefore & _).
  split.
  - apply Hall. repeat (constructor; [discriminate|]). constructor.
  - destruct (Hbefore (take 7 (trace two_calls_served_state)) unsettled_second
                (drop 8 (trace two_calls_served_state)) eq_refl served_first)
      as [_ Hsettled]; [vm_compute; right; left | apply Hsettled; reflexivity].
Defined.

(** ** C2: the fan-out of the broadcaster *)

(** C2.  The broadcaster never raises, and without a channel the other
    two transports deliver; but a transport that throws takes the later
    ones with it.  With the shared storage full, the local event is not
    dispatched although dispatching would have worked, and with an open
    channel that refuses the message neither the marker is written nor
    the event dispatched. *)
Theorem broadcast_fan_out_not_independent :
  let full := broadcastDatabaseChange storage_full true "INSERT INTO patients VALUES (1)" None in
  let broken := broadcastDatabaseChange channel_broken true "INSERT INTO patients VALUES (1)" None in
  snd full = inl tt /\ posted (fst full) = true /\
  stored (fst full) = false /\ dispatched (fst full) = false /\
  snd broken = inl tt /\ posted (fst broken) = false /\
  stored (fst broken) = false /\ dispatched (fst broken) = false.
Proof. vm_compute. repeat split. Qed.

(** ** C3: initialisation *)

(** C3, where the code departs from it: two calls of [initializeDatabase]
    that overlap each run the whole setup.  From a Ready session, two
    health checks that find the connection lost make the calls 1 and 2;
    each fetches the two assets again and creates a connection of its
    own; call 1 returns the handle 1, call 2 the handle 2, which replaces
    it in the module, while [dbPromise] still holds the handle 0. *)
Lemma overlapping_calls_each_run_the_setup :
  overlapping_health_checks =
    [Session.ICleanup; Session.ICall Session.no_config None;
     Session.ICleanup; Session.ICall Session.no_config None;
     Session.IFetched 1 (inl (true, true));
     Session.IFetched 2 (inl (true, true));
     Session.ICompiled 1 (inl tt);
     Session.ICreated 1 (inl tt);
     Session.IVerified 1 (inl tt) None true;
     Session.ICompiled 2 (inl tt);
     Session.ICreated 2 (inl tt);
     Session.IVerified 2 (inl tt) None true] /\
  exists s,
    Session.run ready_session overlapping_health_checks = Some s /\
    Session.outcome 1 (Session.log s) = Some (inl (Some 1%nat)) /\
    Session.outcome 2 (Session.log s) = Some (inl (Some 2%nat)) /\
    Session.fetched (Session.log s) =
      ["/pglite.wasm"; "/pglite.data"; "/pglite.wasm"; "/pglite.data";
       "/pglite.wasm"; "/pglite.data"]%string /\
    Session.dbInstance s = Some 2%nat /\
    Session.dbPromise s = Some (inl (Some 0%nat)).
Proof. split; [reflexivity|]. eexists. vm_compute. repeat split. Qed.

(** C3, what holds.  A call of [initializeDatabase] made while a Ready
    connection exists returns the handle of that connection at once,
    without fetching and without touching the connection.  The call made
    when the module is loaded fetches each of the two assets once,
    whatever happens to it afterwards, unless [localStorage.getItem]
    throws, in which case it fetches nothing.  And [dbPromise], the
    promise of that call, keeps the outcome it has settled with, so that
    all who await it get the same handle. *)
Theorem initializeDatabase_idempotent_when_ready :
  (forall (s : Session.State) (h : Session.Handle)
          (config : Session.PartialConfig) (getItem_throws : option Error),
     Session.isInitialized s = true ->
     Session.dbInstance s = Some h ->
     let s' := Session.initializeDatabase s config getItem_throws in
     Session.log s' = Session.log s ++ [Session.Return (Session.next_call s) (Some h)] /\
     Session.fetched (Session.log s') = Session.fetched (Session.log s) /\
     Session.calls s' !! Session.next_call s = None /\
     Session.dbInstance s' = Some h /\
     Session.isInitialized s' = true /\
     Session.next_handle s' = Session.next_handle s) /\
  (forall (config : Session.PartialConfig) (getItem_throws : option Error)
          (inputs : list Session.Input) (s : Session.State),
     forallb (fun i => negb (is_call i)) inputs = true ->
     Session.run Session.fresh (Session.ICall config getItem_throws :: inputs) = Some s ->
     Session.fetched (Session.log s) =
       match getItem_throws with
       | None => [Session.wasmPath (Session.merge config);
                  Session.fsBundlePath (Session.merge config)]
       | Some _ => []
       end) /\
  (forall (inputs : list Session.Input) (s s' : Session.State) v,
     Session.dbPromise s = Some v ->
     Session.run s inputs = Some s' ->
     Session.dbPromise s' = Some v).
Proof.
  split; [|split].
  - intros s h config g Hinit Hdb. unfold Session.initializeDatabase. simpl.
    rewrite Hinit, Hdb. simpl. repeat split; try assumption.
    + now rewrite fetched_app, app_nil_r.
    + apply lookup_delete_eq.
  - intros config g inputs s Hno Hrun. simpl in Hrun.
    rewrite (session_run_no_call_fetched _ _ _ Hno Hrun). now destruct g.
  - intros inputs s s' v. apply dbPromise_stable.
Qed.

Lemma initializeDatabase_idempotent_when_ready_witness :
  Session.log (Session.initializeDatabase ready_session Session.no_config None) =
    Session.log ready_session ++ [Session.Return 1 (Some 0%nat)] /\
  Session.fetched (Session.log ready_session) = ["/pglite.wasm"; "/pglite.data"]%string /\
  Session.dbPromise
    (Session.initializeDatabase ready_session Session.no_config None) =
    Some (inl (Some 0%nat)).
Proof.
  split; [|split].
  - apply (proj1 initializeDatabase_idempotent_when_ready ready_session 0%nat);
      reflexivity.
  - apply (proj1 (proj2 initializeDatabase_idempotent_when_ready)
             Session.no_config None (tail ready_inputs)); reflexivity.
  - apply (proj2 (proj2 initializeDatabase_idempotent_when_ready)
             [Session.ICall Session.no_config None] ready_session); reflexivity.
Defined.

(** ** C4: the retry ceiling *)

(** C4, where the code departs from it.  On the queued path a call whose
    query fails every time is not rejected unless [retries] is a count of
    attempts.  With [retries = 0] its closure makes no attempt and returns
    at once; with [retries = 1.5] it makes one attempt, waits 100 ms and
    returns; in both cases without [reject], so that the promise of the
    caller is never settled.  On the fast path the same calls are
    rejected: with "Query failed after retries" after no attempt, and with
    the error of the one attempt after the wait. *)
Lemma retry_ceiling_queue_never_rejects :
  (forall fuel p channel db,
     run_call fuel Queued p channel db unsettled_first = Some []) /\
  (forall fuel p channel db,
     run_call fuel Fast p channel db unsettled_first =
     Some [AReject "Query failed after retries"%string]) /\
  (forall p channel,
     run_call 2 Queued p channel (fun _ => inr "connection lost"%string) fractional_first =
     Some [AQuery 1; AWarn 1 (Ratio 3 2) "connection lost"%string; ASleep 100]) /\
  (forall p channel,
     run_call 2 Fast p channel (fun _ => inr "connection lost"%string) fractional_first =
     Some [AQuery 1; AWarn 1 (Ratio 3 2) "connection lost"%string; ASleep 100;
           AReject "connection lost"%string]).
Proof.
  split; [|split; [|split]].
  - intros fuel p channel db. now destruct fuel.
  - intros fuel p channel db. now destruct fuel.
  - reflexivity.
  - reflexivity.
Qed.

(** C4, what holds.  When the query fails on every attempt, a call whose
    [retries] is the integer [r], at least 1, makes exactly [r] attempts,
    numbered 1 to [r], waits 100 * 2 ^ (attempt - 1) ms after each attempt
    but the last (100, 200, 400, ...), and settles once, after the last
    attempt, by rejecting with the error of that attempt.  This is what
    the call does on its own on either path, what it does in the event
    loop when its turn on the queue comes, and what it does in the event
    loop on the fast path. *)
Theorem retry_ceiling (p : Platform) (db : Z -> Settled Results) (op : Op)
    (err : Z -> Error) (r : Z) (fuel : nat) :
  op_retries op = integer r ->
  1 <= r ->
  (forall k, 1 <= k <= r -> db k = inr (err k)) ->
  (2 * Z.to_nat r <= fuel)%nat ->
  let acts := all_attempts_fail r err in
  (attempts acts = seqZ 1 r /\
   waits acts = (fun k => 100 * 2 ^ (k - 1)) <$> seqZ 1 (r - 1) /\
   settlements acts = [AReject (err r)] /\
   last acts = Some (AReject (err r))) /\
  (forall path channel, run_call fuel path p channel db op = Some acts) /\
  (forall (s : State) (rest : list Op) (t : nat),
     isTransactionInProgress s = false ->
     pendingTransactions s = op :: rest ->
     timers s = S t ->
     run s (ITimer :: drive_inputs fuel p (dbChannel s) db op
                        (snd (thunk_head op 1 None))) =
     Some {| dbChannel := dbChannel s;
             isTransactionInProgress := false;
             pendingTransactions := rest;
             tasks := delete (op_id op) (tasks s);
             timers := S t;
             next_id := next_id s;
             trace := trace s ++ Started op :: did Queued op acts ++ [Finished op] |}) /\
  (forall (s : State) (query : string) (params : list string)
          (config : option Config),
     takes_fast_path query config = true ->
     new_op s query params config = op ->
     run s (ICall query params config None ::
            direct_inputs fuel p (dbChannel s) db op (snd (fast_head op 1 None))) =
     Some {| dbChannel := dbChannel s;
             isTransactionInProgress := isTransactionInProgress s;
             pendingTransactions := pendingTransactions s;
             tasks := delete (next_id s) (tasks s);
             timers := timers s;
             next_id := S (next_id s);
             trace := trace s ++ Bypassed op :: did Fast op acts |}).
Proof.
  intros Hop Hr Hdb Hfuel acts.
  assert (Hrun : forall path channel, run_call fuel path p channel db op = Some acts)
    by (intros; now apply run_call_all_attempts_fail).
  split; [|split; [exact Hrun|split]].
  - destruct (failed_rounds_read r err (seqZ 1 (r - 1))) as (H1 & H2 & H3).
    subst acts. unfold all_attempts_fail, attempts, waits, settlements in *.
    rewrite !omap_app, filter_app, H1, H2, H3. simpl.
    rewrite app_nil_r. split; [|split; [reflexivity|split; [reflexivity|]]].
    + replace (seqZ 1 r) with (seqZ 1 ((r - 1) + 1)) by (f_equal; lia).
      rewrite seqZ_app by lia. f_equal. unfold seqZ. simpl. f_equal. lia.
    + rewrite last_app. reflexivity.
  - intros s rest t Hflag Hq Ht. apply turn_run_fuel; auto.
  - intros s query params config Hfast Hopq.
    pose proof (fast_call_run p db s query params config fuel acts Hfast) as Hfc.
    cbv zeta in Hfc. rewrite Hopq in Hfc. apply Hfc, Hrun.
Qed.

Lemma retry_ceiling_witness :
  run_call 6 Queued storage_full true (fun _ => inr "connection lost"%string)
    unsettled_second =
  Some [AQuery 1; AWarn 1 3 "connection lost"%string; ASleep 100;
        AQuery 2; AWarn 2 3 "connection lost"%string; ASleep 200;
        AQuery 3; AWarn 3 3 "connection lost"%string;
        AReject "connection lost"%string] /\
  run_call 6 Fast storage_full true (fun _ => inr "connection lost"%string)
    unsettled_second =
  run_call 6 Queued storage_full true (fun _ => inr "connection lost"%string)
    unsettled_second.
Proof.
  pose proof (retry_ceiling storage_full (fun _ => inr "connection lost"%string)
                unsettled_second (fun _ => "connection lost"%string) 3 6
                eq_refl ltac:(lia) ltac:(reflexivity) ltac:(simpl; lia))
    as (_ & Hrun & _).
  split; [apply (Hrun Queued true) | now rewrite !Hrun].
Defined.

(** ** C5: one failure does not stall the queue *)

(** C5, where the code departs from it.  Three operations wait; the
    second has [retries = 1.5] and its query fails whenever it is tried.
    The queue is drained: the third operation runs and is resolved.  But
    the second makes its one attempt, waits and is finished without
    having rejected: the promise of its caller is never settled. *)
Lemma failing_operation_is_never_rejected :
  exists s,
    run fractional_backlog_state
      (drain_inputs storage_full false second_fails
         (pendingTransactions fractional_backlog_state)) = Some s /\
    pendingTransactions fractional_backlog_state =
      [unsettled_second; fractional_second; backlog_third] /\
    pendingTransactions s = [] /\
    block storage_full false second_fails fractional_second =
      [Started fractional_second;
       Did Queued fractional_second (AQuery 1);
       Did Queued fractional_second (AWarn 1 (Ratio 3 2) "syntax error"%string);
       Did Queued fractional_second (ASleep 100);
       Finished fractional_second] /\
    settled fractional_second (trace s) = false /\
    Finished fractional_second ∈ trace s /\
    settled backlog_third (trace s) = true.
Proof.
  eexists. split; [vm_compute; reflexivity|].
  split; [reflexivity|]. split; [reflexivity|]. split; [reflexivity|].
  split; [reflexivity|]. split; [|reflexivity].
  repeat (first [left | right]).
Qed.

(** C5, what holds.  From a state in which operations wait and the next
    turn is scheduled, the turns that follow run every operation of the
    queue, in order, each doing what it does on its own, whatever the
    engine answers, as long as no [retries] is infinite: what an operation
    does depends on how its own query settles only.  An operation whose
    query fails every time and whose [retries] is an integer, at least 1,
    makes its attempts, rejects the promise of its own caller with the
    last error, and is finished like any other.  When the closure of an
    operation has returned, the finally block clears the flag and
    schedules the next turn, without starting the next operation itself;
    a closure returns in the very resumption in which it settles its
    promise; and in no run is there a state in which operations wait,
    none is in flight and no turn is scheduled. *)
Theorem queue_resilience :
  (forall (p : Platform) (db : Op -> Z -> Settled Results) (ops : list Op)
          (s : State) (t : nat),
     Forall (fun op => finite (op_retries op) = true) ops ->
     isTransactionInProgress s = false ->
     pendingTransactions s = ops ->
     timers s = S t ->
     tasks s = ∅ ->
     run s (drain_inputs p (dbChannel s) db ops) =
     Some {| dbChannel := dbChannel s;
             isTransactionInProgress := false;
             pendingTransactions := [];
             tasks := ∅;
             timers := S t;
             next_id := next_id s;
             trace := trace s ++ concat (map (block p (dbChannel s) db) ops) |}) /\
  (forall (p : Platform) (channel : bool) (db : Op -> Z -> Settled Results)
          (op : Op) (err : Z -> Error) (r : Z),
     op_retries op = integer r ->
     1 <= r ->
     (forall k, 1 <= k <= r -> db op k = inr (err k)) ->
     block p channel db op =
     Started op :: did Queued op (all_attempts_fail r err) ++ [Finished op]) /\
  (forall (s : State) (id : nat) (op : Op),
     tasks s !! id = Some (Processing op None) ->
     exists s',
       step s (IReturned id) = Some s' /\
       isTransactionInProgress s' = false /\
       timers s' = S (timers s) /\
       pendingTransactions s' = pendingTransactions s /\
       trace s' = trace s ++ [Finished op]) /\
  (forall (channel : bool) (inputs : list Input) (s s' : State) (id : nat)
          (op : Op) (l : Loop) (res : Settled Results) (p : Platform),
     run (initial channel) inputs = Some s ->
     tasks s !! id = Some (Processing op (Some l)) ->
     step s (IQuery id res p) = Some s' ->
     exists acts l',
       trace s' = trace s ++ did Queued op acts /\
       tasks s' !! id = Some (Processing op l') /\
       (existsb is_settling acts = true -> l' = None)) /\
  (forall (channel : bool) (inputs : list Input) (s : State),
     run (initial channel) inputs = Some s ->
     pendingTransactions s <> [] ->
     isTransactionInProgress s = true \/ (0 < timers s)%nat).
Proof.
  split; [|split; [|split; [|split]]].
  - intros p db ops s t Hfin. now apply drain_run.
  - intros p channel db op err r Hop Hr Hdb. unfold block, solo.
    rewrite (run_call_all_attempts_fail Queued p channel (db op) op err r (fuel_of op)
               Hop Hr Hdb);
      [reflexivity|].
    unfold fuel_of. rewrite Hop, floor_integer. lia.
  - intros s id op Htask. exists (finish s id op). simpl. now rewrite Htask.
  - intros channel inputs s s' id op l res p Hrun.
    apply settling_resumption_returns. exact (exclusive_run _ _ _ Hrun).
  - intros channel inputs s Hrun. exact (keeps_going_run _ _ _ Hrun).
Qed.

Lemma queue_resilience_witness :
  run backlog_state
    (drain_inputs storage_full (dbChannel backlog_state) second_fails
       (pendingTransactions backlog_state)) =
  Some {| dbChannel := dbChannel backlog_state;
          isTransactionInProgress := false;
          pendingTransactions := [];
          tasks := ∅;
          timers := 1;
          next_id := next_id backlog_state;
          trace := trace backlog_state ++
                   concat (map (block storage_full (dbChannel backlog_state) second_fails)
                             (pendingTransactions backlog_state)) |}.
Proof.
  apply (proj1 queue_resilience storage_full second_fails
           (pendingTransactions backlog_state) backlog_state 0%nat);
    try reflexivity.
  vm_compute. repeat constructor.
Defined.

(** ** C6: [skipQueue] and mutating statements *)

(** C6.  A call with a mutating statement never takes the fast path,
    whatever [skipQueue] says: it is pushed on the queue (and started at
    once only if it is at the head of the queue and nothing is in flight),
    and nothing is logged as bypassing the queue. *)
Theorem mutating_statement_is_queued (s : State) (query : string)
    (params : list string) (config : option Config) :
  isModifyingQuery query = true ->
  let op := new_op s query params config in
  let s' := executeQuery s query params config None in
  takes_fast_path query config = false /\
  Pushed op ∈ trace s' /\
  (exists starts, queue_moves s s' [op] starts) /\
  (forall op', Bypassed op' ∈ trace s' -> Bypassed op' ∈ trace s) /\
  (forall init op',
     Bypassed op' ∈ trace (executeQuery s query params config init) ->
     Bypassed op' ∈ trace s).
Proof.
  intros Hmod op s'.
  assert (Hfast : takes_fast_path query config = false).
  { unfold takes_fast_path. rewrite Hmod. now destruct config as [[[[]|] ? ?]|]. }
  assert (Hqueued : forall op', Bypassed op' ∈ trace s' -> Bypassed op' ∈ trace s).
  { subst s'. unfold executeQuery. rewrite Hfast. unfold processPendingTransactions.
    simpl. intros op'.
    destruct (pendingTransactions s ++ [new_op s query params config]) as [|hd tl];
      [simpl; set_solver|].
    destruct (isTransactionInProgress s); [simpl; set_solver|].
    destruct (thunk_head hd 1 None) as [acts l]. simpl. rewrite !elem_of_app.
    intros [[H|H]|H]; [exact H | set_solver |].
    apply elem_of_cons in H as [H|H]; [discriminate|].
    apply elem_of_did in H as (a & Heq & _). discriminate. }
  split; [exact Hfast|]. split; [|split; [|split; [exact Hqueued|]]].
  - subst s'. unfold executeQuery. rewrite Hfast. unfold processPendingTransactions.
    simpl.
    destruct (pendingTransactions s ++ [new_op s query params config]) as [|hd tl];
      [simpl; set_solver|].
    destruct (isTransactionInProgress s); [simpl; set_solver|].
    destruct (thunk_head hd 1 None) as [acts l]. simpl. set_solver.
  - subst s' op. unfold executeQuery. rewrite Hfast.
    match goal with |- context [processPendingTransactions ?s0] =>
      destruct (processPendingTransactions_moves s0)
        as (starts & Hp & Hs & Hq & Hn & _ & _)
    end.
    exists starts. unfold queue_moves.
    split; [|split; [|split; [|split; [|split]]]].
    + rewrite Hp. simpl. now rewrite pushed_app, app_nil_r.
    + rewrite Hs. simpl. now rewrite started_app, app_nil_r.
    + rewrite <- Hq. simpl. now rewrite app_nil_r.
    + etrans; [|exact Hn]. simpl. lia.
    + constructor; [|constructor]. split; [simpl; lia|].
      eapply Nat.lt_le_trans; [|exact Hn]. simpl. lia.
    + simpl. apply NoDup_singleton.
  - intros [e|] op'; [|exact (Hqueued op')].
    unfold executeQuery. simpl. set_solver.
Qed.

Lemma mutating_statement_is_queued_witness :
  takes_fast_path "INSERT INTO patients (full_name) VALUES ('a')" skip_queue_config = false /\
  takes_fast_path "SELECT * FROM patients" skip_queue_config = true.
Proof.
  split; [|reflexivity].
  apply (mutating_statement_is_queued (initial true)
           "INSERT INTO patients (full_name) VALUES ('a')" [] skip_queue_config).
  reflexivity.
Defined.

(** ** C7: the classification of statements *)

(** C7.  [isModifyingQuery q] is true exactly when [q] is made of white
    space (none, or any of TAB, LF, VT, FF, CR, SP, NBSP), then one of
    insert, update, delete, create, alter, drop, truncate in any mix of
    capitals and small letters, then anything: that is, when [q], trimmed
    and lowercased, begins with one of the seven keywords.  It is false
    on "  select 1" and true on "INSERT INTO t ...", and it is true on a
    statement that needs both the trimming and the lowercasing, and on
    the first statement of the bootstrap, which begins with a line
    break. *)
Theorem isModifyingQuery_classifies :
  (forall q : string,
     isModifyingQuery q = true <->
     exists ws w rest kw : string,
       q = (ws ++ w ++ rest)%string /\
       string_forall is_space ws = true /\
       kw ∈ mutating_prefixes /\
       same_word w kw = true) /\
  (forall q : string,
     isModifyingQuery q = true <->
     exists kw rest : string,
       kw ∈ mutating_prefixes /\ toLowerCase (trim q) = (kw ++ rest)%string) /\
  isModifyingQuery "  select 1" = false /\
  isModifyingQuery "INSERT INTO t ..." = true /\
  isModifyingQuery "   Update t SET a = 1  " = true /\
  isModifyingQuery create_table_sql = true /\
  isModifyingQuery table_check_sql = false.
Proof.
  assert (Hchain : forall q,
            isModifyingQuery q = true <->
            exists kw, kw ∈ mutating_prefixes /\
                       startsWith (trim (toLowerCase q)) kw = true).
  { intros q. unfold isModifyingQuery. cbv zeta.
    rewrite !orb_true_iff. unfold mutating_prefixes. split.
    - intros H. repeat (destruct H as [H|H]); eexists; (split; [|exact H]); set_solver.
    - intros (kw & Hin & H).
      repeat (apply elem_of_cons in Hin as [->|Hin]); [..|by apply elem_of_nil in Hin];
        tauto. }
  assert (Hletters : forall kw, kw ∈ mutating_prefixes ->
            kw <> EmptyString /\ string_forall is_lower_letter kw = true).
  { intros kw Hin. unfold mutating_prefixes in Hin.
    repeat (apply elem_of_cons in Hin as [->|Hin]); [..|by apply elem_of_nil in Hin];
      (split; [discriminate | reflexivity]). }
  split; [|split; [|repeat split; reflexivity]].
  - intros q. rewrite Hchain. split.
    + intros (kw & Hin & H). destruct (Hletters kw Hin) as [Hne Hkw].
      apply (startsWith_keyword q kw Hne Hkw) in H as (ws & w & rest & Hq & Hws & Hw).
      now exists ws, w, rest, kw.
    + intros (ws & w & rest & kw & Hq & Hws & Hin & Hw).
      exists kw. split; [exact Hin|]. destruct (Hletters kw Hin) as [Hne Hkw].
      apply (startsWith_keyword q kw Hne Hkw). now exists ws, w, rest.
  - intros q. rewrite Hchain, trim_toLowerCase. split.
    + intros (kw & Hin & H). apply startsWith_app in H as [rest H]. now exists kw, rest.
    + intros (kw & rest & Hin & H). exists kw. split; [exact Hin|].
      apply startsWith_app. now exists rest.
Qed.

(** ** C8: the affected-entity heuristic *)

(** C8.  [getAffectedTable] returns the name that follows the leftmost
    [from], [into] or [update] that is followed by white space and a name
    (first match wins), read off the lowercased statement, and nothing when
    no position of the statement has one; it finds "patients" in the two
    statements of the specification and nothing in a statement without any
    of the three patterns. *)
Theorem getAffectedTable_first_entity :
  (forall query : string,
     getAffectedTable query = first_entity (toLowerCase query)) /\
  getAffectedTable "SELECT * FROM patients WHERE id=1" = Some "patients"%string /\
  getAffectedTable "INSERT INTO patients (...) VALUES (...)" = Some "patients"%string /\
  getAffectedTable "SELECT 1" = None.
Proof.
  split; [|repeat split; reflexivity].
  intros query. unfold getAffectedTable. cbv zeta.
  apply regex_exec_first_entity, toLowerCase_no_capitals.
Qed.

(** ** C9: the patient-table bootstrap *)

(** C9.  [initializePatientTable] never raises.  When the three
    statements are fulfilled it returns true; when one of them is
    rejected (those before it being fulfilled) it logs the cause and
    returns false. *)
Theorem initializePatientTable_returns_boolean (exec : string -> option (Settled Results)) :
  (forall e, snd (initializePatientTable exec) <> Raises e) /\
  (forall r1 r2 r3,
     exec create_table_sql = Some (inl r1) ->
     exec table_check_sql = Some (inl r2) ->
     exec create_index_sql = Some (inl r3) ->
     snd (initializePatientTable exec) = Returns true) /\
  (forall e,
     exec create_table_sql = Some (inr e) \/
     (exists r1, exec create_table_sql = Some (inl r1) /\
                 exec table_check_sql = Some (inr e)) \/
     (exists r1 r2, exec create_table_sql = Some (inl r1) /\
                    exec table_check_sql = Some (inl r2) /\
                    exec create_index_sql = Some (inr e)) ->
     snd (initializePatientTable exec) = Returns false /\
     ConsoleError "Error initializing patients table:" e
       ∈ fst (initializePatientTable exec)).
Proof.
  unfold initializePatientTable, atry, abind, await, aperform, aret.
  split; [|split].
  - intros e.
    destruct (exec create_table_sql) as [[r1|e1]|]; simpl; try discriminate.
    destruct (exec table_check_sql) as [[r2|e2]|]; simpl; try discriminate.
    destruct (exec create_index_sql) as [[r3|e3]|]; simpl; discriminate.
  - intros r1 r2 r3 -> -> ->. reflexivity.
  - intros e [H1|[(r1 & H1 & H2)|(r1 & r2 & H1 & H2 & H3)]].
    + rewrite H1. simpl. split; [reflexivity | set_solver].
    + rewrite H1, H2. simpl. split; [reflexivity | set_solver].
    + rewrite H1, H2, H3. simpl. split; [reflexivity | set_solver].
Qed.

Lemma initializePatientTable_returns_boolean_witness :
  snd (initializePatientTable
         (fun q => if String.eqb q create_index_sql
                   then Some (inr "relation does not exist"%string)
                   else Some (inl []))) = Returns false /\
  snd (initializePatientTable (fun _ => Some (inl []))) = Returns true.
Proof.
  split.
  - apply (proj2 (proj2 (initializePatientTable_returns_boolean _))
             "relation does not exist"%string).
    right; right. exists [], []. repeat split; reflexivity.
  - apply (proj1 (proj2 (initializePatientTable_returns_boolean _)) [] [] []);
      reflexivity.
Defined.

(** ** C10: no attempt allowed *)

(** C10.  A call whose [retries] allows no attempt (it is below 1, as 0
    and the negative numbers are, or it is NaN) makes none.  On the fast
    path it is rejected at once with the error
    "Query failed after retries".  On the queued path its closure does
    nothing at all: it neither resolves nor rejects, so that the promise
    of the caller is not settled in any state of any run.  And the queue
    goes on: once the operation is started its closure has returned, the
    finally block runs, clears the flag and schedules a turn, and that
    turn starts the operation that waits next, which sends its first
    query if its own [retries] allows one. *)
Theorem zero_retries_behaviour (op : Op) :
  allows_none (op_retries op) = true ->
  (forall fuel p channel db,
     run_call fuel Fast p channel db op =
     Some [AReject "Query failed after retries"%string]) /\
  (forall fuel p channel db, run_call fuel Queued p channel db op = Some []) /\
  (forall (s : State) (query : string) (params : list string) (config : option Config),
     new_op s query params config = op ->
     takes_fast_path query config = true ->
     let s' := executeQuery s query params config None in
     trace s' = trace s ++ [Bypassed op;
                            Did Fast op (AReject "Query failed after retries"%string)] /\
     tasks s' = delete (op_id op) (tasks s)) /\
  (forall channel inputs s,
     run (initial channel) inputs = Some s ->
     Pushed op ∈ trace s ->
     actions_of op (trace s) = [] /\ settled op (trace s) = false) /\
  (forall channel inputs s,
     run (initial channel) inputs = Some s ->
     Started op ∈ trace s ->
     (Finished op ∉ trace s) ->
     exists s',
       step s (IReturned (op_id op)) = Some s' /\
       trace s' = trace s ++ [Finished op] /\
       settled op (trace s') = false /\
       isTransactionInProgress s' = false /\
       timers s' = S (timers s) /\
       pendingTransactions s' = pendingTransactions s /\
       forall next rest,
         pendingTransactions s = next :: rest ->
         exists s'',
           step s' ITimer = Some s'' /\
           pendingTransactions s'' = rest /\
           isTransactionInProgress s'' = true /\
           trace s'' = trace s' ++ Started next ::
                       (if le_num 1 (op_retries next)
                        then [Did Queued next (AQuery 1)] else [])).
Proof.
  intros Hnone. pose proof (allows_none_first _ Hnone) as Hle.
  split; [|split; [|split; [|split]]].
  - intros fuel p channel db. unfold run_call, head_of, fast_head. rewrite Hle.
    apply drive_done.
  - intros fuel p channel db. unfold run_call, head_of, thunk_head. rewrite Hle.
    apply drive_done.
  - intros s query params config Hop Hfast s'. subst s'. unfold executeQuery.
    rewrite Hfast, Hop. unfold fast_head. rewrite Hle. simpl. now split.
  - intros channel inputs s Hrun Hp.
    pose proof (zero_retries_never_acts _ _ _ _ Hrun Hle Hp) as Hacts.
    split; [exact Hacts|]. unfold settled. now rewrite Hacts.
  - intros channel inputs s Hrun Hst Hnf.
    assert (Hp : Pushed op ∈ trace s).
    { destruct (fifo_run _ _ _ Hrun) as (Hsub & _ & _).
      apply elem_of_pushed. eapply elem_of_sublist; [|exact Hsub].
      apply elem_of_app. left. now apply elem_of_started. }
    pose proof (zero_retries_never_acts _ _ _ _ Hrun Hle Hp) as Hacts.
    destruct (exclusive_run _ _ _ Hrun) as [(o & Hser & Hfl) _].
    destruct (serial_started _ _ Hser _ Hst) as [[Hfin _]|(b & -> & _)];
      [now destruct Hnf|].
    destruct Hfl as (_ & _ & _ & l & Hl & Hcond).
    destruct l as [l|].
    { destruct Hcond as [(Hone & Hok & _) _].
      rewrite (le_num_mono 1 (attempt l) _ Hone Hok) in Hle. discriminate. }
    exists (finish s (op_id op) op). simpl. rewrite Hl.
    split; [reflexivity|]. split; [reflexivity|].
    split; [unfold settled; now rewrite actions_of_app, Hacts|].
    split; [reflexivity|]. split; [reflexivity|]. split; [reflexivity|].
    intros next rest Hq. eexists. split; [reflexivity|].
    unfold processPendingTransactions. simpl. rewrite Hq.
    unfold thunk_head. destruct (le_num 1 (op_retries next)); simpl; auto.
Qed.

Lemma zero_retries_behaviour_witness :
  exists s' s'',
    step (default (initial true) (run (initial true) (take 2 unsettled_schedule)))
      (IReturned 0) = Some s' /\
    step s' ITimer = Some s'' /\
    settled unsettled_first (trace s') = false /\
    trace s'' = trace s' ++ [Started unsettled_second;
                             Did Queued unsettled_second (AQuery 1)].
Proof.
  destruct (proj2 (proj2 (proj2 (proj2 (zero_retries_behaviour unsettled_first eq_refl))))
              true (take 2 unsettled_schedule)
              (default (initial true) (run (initial true) (take 2 unsettled_schedule)))
              eq_refl)
    as (s' & Hstep & _ & Hsettled & _ & _ & _ & Hnext).
  - vm_compute. right. left.
  - vm_compute. intros H. repeat (apply elem_of_cons in H as [H|H]; [discriminate|]).
    by apply elem_of_nil in H.
  - destruct (Hnext unsettled_second [] eq_refl) as (s'' & Hturn & _ & _ & Htrace).
    exists s', s''. repeat split; assumption.
Defined.

(* ================================================================== *)
(** * Part V: further properties of the code                          *)
(* ================================================================== *)

(** ** X1: the action of a statement *)

(** X1.  [getQueryAction] names the keyword the statement begins with,
    once trimmed and lowercased: it gives a keyword exactly when the
    statement begins with that keyword, "other" exactly when
    [isModifyingQuery] says no, and one of the seven keywords exactly when
    [isModifyingQuery] says yes. *)
Theorem getQueryAction_names_the_keyword :
  (forall q kw, kw ∈ mutating_prefixes ->
     (getQueryAction q = kw <-> startsWith (trim (toLowerCase q)) kw = true)) /\
  (forall q, getQueryAction q = "other"%string <-> isModifyingQuery q = false) /\
  (forall q, getQueryAction q ∈ mutating_prefixes <-> isModifyingQuery q = true).
Proof.
  assert (Hother : "other"%string ∉ mutating_prefixes).
  { unfold mutating_prefixes. intros H.
    repeat (apply elem_of_cons in H as [H|H]; [discriminate|]). by apply elem_of_nil in H. }
  split; [|split].
  - intros q kw Hkw. split.
    + intros <-. destruct (isModifyingQuery q) eqn:Hm; [now apply getQueryAction_modifying|].
      apply getQueryAction_other in Hm. rewrite Hm in Hkw. contradiction.
    + intros Hst. assert (Hm : isModifyingQuery q = true).
      { unfold isModifyingQuery. cbv zeta. unfold mutating_prefixes in Hkw.
        repeat (apply elem_of_cons in Hkw as [->|Hkw]); [..|by apply elem_of_nil in Hkw];
          rewrite Hst; rewrite ?orb_true_r; reflexivity. }
      destruct (getQueryAction_modifying q Hm) as [Hin Hst'].
      exact (startsWith_keyword_unique _ _ _ Hin Hkw Hst' Hst).
  - apply getQueryAction_other.
  - intros q. split.
    + intros Hin. destruct (isModifyingQuery q) eqn:Hm; [reflexivity|].
      apply getQueryAction_other in Hm. rewrite Hm in Hin. contradiction.
    + intros Hm. now apply getQueryAction_modifying.
Qed.

(** ** X2 to X7: more on [executeQuery] and the queue *)

(** X2.  When the query fails on the attempts before [k] and is answered
    on attempt [k], within the ceiling ([k <= retries], whatever number
    [retries] is), the call makes the attempts 1 to
    [k] and no other, waits 100 * 2 ^ (j - 1) ms after each failed attempt
    [j], and settles once, last, by resolving with the answer.  On the
    queue it tells the other tabs before it resolves when its statement is
    a mutating one, and only then; on the fast path it tells nothing. *)
Theorem first_answer_ends_the_retries (p : Platform) (channel : bool)
    (db : Z -> Settled Results) (op : Op) (err : Z -> Error) (k : Z)
    (result : Results) (fuel : nat) :
  1 <= k -> le_num k (op_retries op) = true ->
  (forall j, 1 <= j < k -> db j = inr (err j)) ->
  db k = inl result ->
  (2 * Z.to_nat k <= fuel)%nat ->
  run_call fuel Fast p channel db op =
    Some (answered_at (op_retries op) k err [AResolve result]) /\
  run_call fuel Queued p channel db op =
    Some (answered_at (op_retries op) k err (announce p channel op ++ [AResolve result])) /\
  forall path acts,
    run_call fuel path p channel db op = Some acts ->
    attempts acts = seqZ 1 k /\
    waits acts = (fun j => 100 * 2 ^ (j - 1)) <$> seqZ 1 (k - 1) /\
    settlements acts = [AResolve result] /\
    last acts = Some (AResolve result).
Proof.
  intros Hk Hkr Hfail Hok Hfuel.
  pose proof (fun path => run_call_answered path p channel db op err k result fuel
                            Hk Hkr Hfail Hok Hfuel) as Hrun.
  split; [exact (Hrun Fast)|]. split; [exact (Hrun Queued)|].
  intros path acts Hacts. rewrite Hrun in Hacts. injection Hacts as <-.
  unfold answered_at.
  destruct (failed_rounds_read (op_retries op) err (seqZ 1 (k - 1))) as (H1 & H2 & H3).
  assert (Htail : forall tail, tail = announce p channel op \/ tail = [] ->
            attempts tail = [] /\ waits tail = [] /\ settlements tail = []).
  { intros tail [->| ->]; [apply announce_read | done]. }
  destruct (Htail (match path with Queued => announce p channel op | Fast => [] end))
    as (T1 & T2 & T3); [destruct path; auto|].
  rewrite attempts_app, waits_app, settlements_app, H1, H2, H3.
  change (AQuery k :: ?t) with ([AQuery k] ++ t).
  rewrite !attempts_app, !waits_app, !settlements_app, T1, T2, T3. simpl.
  rewrite app_nil_r. repeat split.
  - replace (seqZ 1 k) with (seqZ 1 ((k - 1) + 1)) by (f_equal; lia).
    rewrite seqZ_app by lia. f_equal. unfold seqZ. simpl. f_equal. lia.
  - rewrite last_app, app_comm_cons, last_app. reflexivity.
Qed.

Lemma first_answer_ends_the_retries_witness :
  run_call 4 Queued storage_full false
    (fun j => if j =? 1 then inr "busy"%string else inl ["row"%string]) unsettled_second =
  Some [AQuery 1; AWarn 1 3 "busy"%string; ASleep 100; AQuery 2;
        ABroadcast (fst (broadcastDatabaseChange storage_full false
                           "UPDATE patients SET age = 1" None));
        AResolve ["row"%string]].
Proof.
  apply (first_answer_ends_the_retries storage_full false
           (fun j => if j =? 1 then inr "busy"%string else inl ["row"%string])
           unsettled_second (fun _ => "busy"%string) 2 ["row"%string] 4).
  - lia.
  - reflexivity.
  - intros j Hj. assert (j = 1) as -> by lia. reflexivity.
  - reflexivity.
  - simpl; lia.
Defined.

(** X3.  In every run, a call settles the promise of its caller at most
    once, and does nothing after the settlement; a call whose loop is
    still suspended, at a query or at a backoff, has not settled. *)
Theorem promise_settles_once_and_last (channel : bool) (inputs : list Input)
    (s : State) (op : Op) :
  run (initial channel) inputs = Some s ->
  (length (settlements (actions_of op (trace s))) <= 1)%nat /\
  (forall pre a post,
     actions_of op (trace s) = pre ++ a :: post -> is_settling a = true -> post = []) /\
  (forall id l,
     tasks s !! id = Some (Processing op (Some l)) \/ tasks s !! id = Some (Direct op l) ->
     settled op (trace s) = false).
Proof.
  intros Hrun. destruct (once_run _ _ _ Hrun) as [H1 H2]. split; [|split].
  - apply settles_last_settlements, H1.
  - intros pre a post Heq Ha. exact (settles_last_split _ _ _ _ (H1 op) Heq Ha).
  - intros id l [Hlk|Hlk]; destruct (H2 _ _ Hlk) as [H|H]; try discriminate; exact H.
Qed.

Lemma promise_settles_once_and_last_witness :
  (length (settlements (actions_of the_call (trace one_call_state))) <= 1)%nat.
Proof.
  apply (promise_settles_once_and_last true one_call one_call_state the_call).
  reflexivity.
Defined.

(** X4.  In every run, whoever tells the other tabs is a call on the
    queue whose statement is a mutating one; what it does is what
    [broadcastDatabaseChange] does for its statement and its hint; the
    next thing that happens is that it resolves its promise; and each
    notice sent carries the type "data_updated", the statement, its
    keyword as the action, and a table that is not the empty string.  So
    a call on the fast path, a read and a failed statement are never
    broadcast. *)
Theorem only_queued_mutations_are_broadcast (channel : bool) (inputs : list Input)
    (s : State) (t1 t2 : list Event) (path : Path) (op : Op) (effs : list Effect) :
  run (initial channel) inputs = Some s ->
  trace s = t1 ++ Did path op (ABroadcast effs) :: t2 ->
  path = Queued /\
  isModifyingQuery (op_query op) = true /\
  (exists p ch,
     effs = fst (broadcastDatabaseChange p ch (op_query op) (op_broadcastTable op))) /\
  (exists result t3, t2 = Did Queued op (AResolve result) :: t3) /\
  (forall f info,
     f ∈ effs ->
     f = ChannelPost info \/ (exists key, f = StorageSet key info) \/
     (exists name, f = WindowDispatch name info) ->
     ci_type info = "data_updated"%string /\
     ci_query info = op_query op /\
     ci_action info = getQueryAction (op_query op) /\
     ci_action info ∈ mutating_prefixes /\
     ci_affectedTable info <> Some EmptyString).
Proof.
  intros Hrun Heq. destruct (tells_run _ _ _ Hrun) as [H1 H2].
  destruct (tells_then_resolves_split _ _ _ _ _ _ H1 Heq) as (-> & Hm & Hres).
  assert (Ho : exists p ch,
     effs = fst (broadcastDatabaseChange p ch (op_query op) (op_broadcastTable op))).
  { rewrite Forall_forall in H2.
    apply (H2 (Did Queued op (ABroadcast effs))). rewrite Heq.
    apply elem_of_app. right. left. }
  split; [reflexivity|]. split; [exact Hm|]. split; [exact Ho|]. split; [exact Hres|].
  intros f info Hin Hshape. destruct Ho as (p & ch & ->).
  apply broadcast_effects in Hin.
  pose proof (getQueryAction_modifying _ Hm) as [Hact _].
  destruct Hshape as [->|[[key ->]|[name ->]]]; destruct Hin as [_ ->]; simpl;
    repeat split; auto;
    exact (notice_table p (op_query op) (op_broadcastTable op) 0).
Qed.

Lemma only_queued_mutations_are_broadcast_witness :
  isModifyingQuery (op_query the_call) = true.
Proof.
  apply (only_queued_mutations_are_broadcast true one_call one_call_state
           (take 3 (trace one_call_state)) (drop 4 (trace one_call_state))
           Queued the_call
           (fst (broadcastDatabaseChange storage_full true (op_query the_call) None))).
  - reflexivity.
  - vm_compute. reflexivity.
Defined.

(** X6.  The operations that wait on the queue when [cleanupDatabase]
    empties it are lost: in no later state are they on the queue, none is
    ever started, none does anything, and the promises of their callers
    are never settled. *)
Theorem cleanupDatabase_abandons_the_queue (channel : bool) (before after : list Input)
    (s1 s2 : State) (op : Op) :
  run (initial channel) before = Some s1 ->
  op ∈ pendingTransactions s1 ->
  run s1 (ICleanup :: after) = Some s2 ->
  Pushed op ∈ trace s2 /\
  (op ∉ pendingTransactions s2) /\
  (Started op ∉ trace s2) /\
  actions_of op (trace s2) = [] /\
  settled op (trace s2) = false.
Proof.
  intros Hrun1 Hin Hrun2. simpl in Hrun2.
  destruct (waiting_is_untouched _ _ _ _ Hrun1 Hin) as (Hp & Hs & Hacts & Hid & Htask).
  assert (Hd : dormant (cleanupDatabase s1) op).
  { repeat split; simpl; [exact Hid | apply not_elem_of_nil | exact Htask]. }
  destruct (dormant_run _ _ _ _ Hd Hrun2) as [(_ & Hpend & _) (evs & Htr & Hsil)].
  simpl in Htr. rewrite Htr.
  assert (Hacts' : actions_of op (trace s1 ++ evs) = []).
  { now rewrite actions_of_app, Hacts, (actions_of_silent _ _ Hsil). }
  repeat split.
  - apply elem_of_app. now left.
  - exact Hpend.
  - rewrite elem_of_app. intros [H|H]; [exact (Hs H)|].
    exact (silent_not_in _ _ (Started op) Hsil eq_refl H).
  - exact Hacts'.
  - unfold settled. now rewrite Hacts'.
Qed.

Lemma cleanupDatabase_abandons_the_queue_witness :
  settled unsettled_second
    (trace (default two_calls_state
              (run two_calls_state [ICleanup; IQuery 0 (inl []) storage_full]))) = false.
Proof.
  apply (cleanupDatabase_abandons_the_queue false two_calls
           [IQuery 0 (inl []) storage_full] two_calls_state
           (default two_calls_state
              (run two_calls_state [ICleanup; IQuery 0 (inl []) storage_full]))
           unsettled_second).
  - reflexivity.
  - vm_compute. left.
  - reflexivity.
Defined.

(** X7.  A call of [executeQuery] for which the initialisation fails
    with [e] rejects with "Failed to initialize database: e" and does
    nothing else, then or later: it makes no attempt, is neither pushed on
    the queue nor counted as bypassing it, and leaves the queue, its flag,
    the coroutines and the timers as they were. *)
Theorem failed_initialisation_rejects_the_call (channel : bool)
    (before after : list Input) (s s' : State) (query : string)
    (params : list string) (config : option Config) (e : Error) :
  run (initial channel) before = Some s ->
  run s (ICall query params config (Some e) :: after) = Some s' ->
  let op := new_op s query params config in
  let s0 := executeQuery s query params config (Some e) in
  actions_of op (trace s') = [AReject ("Failed to initialize database: " ++ e)%string] /\
  (Pushed op ∉ trace s') /\ (Started op ∉ trace s') /\ (Bypassed op ∉ trace s') /\
  pendingTransactions s0 = pendingTransactions s /\
  isTransactionInProgress s0 = isTransactionInProgress s /\
  tasks s0 = tasks s /\ timers s0 = timers s.
Proof.
  intros Hrun1 Hrun2 op s0. simpl in Hrun2. fold s0 in Hrun2.
  destruct (sound_run _ _ _ Hrun1) as [Hex Hreg].
  assert (Hfresh : forall e0, e0 ∈ trace s -> event_op e0 <> op).
  { intros e0. apply registered_fresh; [exact Hreg | simpl; lia]. }
  assert (Hd : dormant s0 op).
  { repeat split; simpl; [lia | |].
    - intros Hin. destruct Hex as [_ Hb]. rewrite Forall_forall in Hb.
      apply Hb in Hin. simpl in Hin. lia.
    - intros id t. rewrite lookup_delete_Some. intros [_ Hlk] Heq.
      destruct Hreg as (_ & Hid & _). apply Hid in Hlk. rewrite Heq in Hlk. simpl in Hlk. lia. }
  destruct (dormant_run _ _ _ _ Hd Hrun2) as [_ (evs & Htr & Hsil)].
  assert (Hold : forall e0, event_op e0 = op -> e0 ∈ trace s' ->
            e0 = InitFailed op e \/
            e0 = Did Fast op (AReject ("Failed to initialize database: " ++ e)%string)).
  { intros e0 Heq. rewrite Htr. simpl. rewrite !elem_of_app.
    intros [[H|H]|H].
    - now destruct (Hfresh _ H).
    - apply elem_of_cons in H as [->|H]; [now left|].
      apply list_elem_of_singleton in H as ->. now right.
    - now destruct (silent_not_in _ _ e0 Hsil Heq). }
  repeat split.
  - rewrite Htr. simpl. rewrite !actions_of_app, (actions_of_silent _ _ Hsil), app_nil_r.
    rewrite (actions_of_nil op (trace s)); [|intros path a Hin; exact (Hfresh _ Hin eq_refl)].
    simpl. now rewrite decide_True.
  - intros H. now destruct (Hold (Pushed op) eq_refl H).
  - intros H. now destruct (Hold (Started op) eq_refl H).
  - intros H. now destruct (Hold (Bypassed op) eq_refl H).
  - simpl. apply delete_id. exact (no_task_ahead _ _ _ Hrun1).
Qed.

Lemma failed_initialisation_rejects_the_call_witness :
  actions_of (new_op (initial true) "SELECT 1" [] None)
    (trace (executeQuery (initial true) "SELECT 1" [] None (Some "no wasm"%string))) =
  [AReject "Failed to initialize database: no wasm"%string].
Proof.
  apply (failed_initialisation_rejects_the_call true [] [] (initial true)
           (executeQuery (initial true) "SELECT 1" [] None (Some "no wasm"%string))
           "SELECT 1" [] None "no wasm"%string); reflexivity.
Defined.

(** ** X8 to X11: the connection, its health check and its cleanup *)

(** X8.  [cleanupDatabase] resets the module whatever fails.  With no
    connection it runs to its end at once; with one it stops the health
    check, removes the storage handler and waits for [close()].  From
    there on, whether [close()] is fulfilled or rejected, whether closing
    the channel throws or not, and whatever the module has become
    meanwhile, it ends without raising with no connection, no channel,
    the module uninitialised and the queue empty, having logged each
    failure; and a second cleanup leaves the module reset, and logs the
    last message only. *)
Theorem cleanupDatabase_always_resets :
  (forall r throws,
     r_dbInstance r = None ->
     exists effs,
       cleanupDatabase_call r throws =
         inr (effs, inl {| r_dbInstance := None; r_dbChannel := false;
                           r_isInitialized := false; r_pendingTransactions := [];
                           r_healthCheck := false; r_storageHandler := false |}) /\
       ConsoleLog "Database resources cleaned up" ∈ effs) /\
  (forall r throws h,
     r_dbInstance r = Some h ->
     cleanupDatabase_call r throws =
       inl {| r_dbInstance := Some h; r_dbChannel := r_dbChannel r;
              r_isInitialized := r_isInitialized r;
              r_pendingTransactions := r_pendingTransactions r;
              r_healthCheck := false; r_storageHandler := false |}) /\
  (forall r closed throws,
     snd (cleanupDatabase_resume r closed throws) =
       inl {| r_dbInstance := None; r_dbChannel := false;
              r_isInitialized := false; r_pendingTransactions := [];
              r_healthCheck := r_healthCheck r;
              r_storageHandler := r_storageHandler r |} /\
     ConsoleLog "Database resources cleaned up"
       ∈ fst (cleanupDatabase_resume r closed throws)) /\
  (forall r throws e,
     ConsoleError "Error closing database:" e
       ∈ fst (cleanupDatabase_resume r (inr e) throws)) /\
  (forall r closed e,
     r_dbChannel r = true ->
     ConsoleError "Error closing broadcast channel:" e
       ∈ fst (cleanupDatabase_resume r closed (Some e))) /\
  (forall r closed throws throws' r',
     snd (cleanupDatabase_resume r closed throws) = inl r' ->
     forall r'', cleanupDatabase_call r' throws' = inr r'' ->
       snd r'' = inl {| r_dbInstance := None; r_dbChannel := false;
                        r_isInitialized := false; r_pendingTransactions := [];
                        r_healthCheck := false; r_storageHandler := false |} /\
       fst r'' = [ConsoleLog "Database resources cleaned up"]).
Proof.
  split; [|split; [|split; [|split; [|split]]]].
  - intros r throws Hdb. unfold cleanupDatabase_call, cleanup_tail. simpl. rewrite Hdb.
    destruct (r_dbChannel r), throws; simpl; eexists; (split; [reflexivity|]); set_solver.
  - intros r throws h Hdb. unfold cleanupDatabase_call. simpl. now rewrite Hdb.
  - intros r closed throws. unfold cleanupDatabase_resume, cleanup_tail.
    destruct closed as [[]|e0], (r_dbChannel r), throws as [e1|]; simpl;
      (split; [reflexivity | set_solver]).
  - intros r throws e. unfold cleanupDatabase_resume, cleanup_tail.
    destruct (r_dbChannel r), throws as [e1|]; simpl; set_solver.
  - intros r closed e Hch. unfold cleanupDatabase_resume, cleanup_tail. rewrite Hch.
    destruct closed as [[]|e0]; simpl; set_solver.
  - intros r closed throws throws' r' Hr r''.
    assert (r' = {| r_dbInstance := None; r_dbChannel := false;
                    r_isInitialized := false; r_pendingTransactions := [];
                    r_healthCheck := r_healthCheck r;
                    r_storageHandler := r_storageHandler r |}) as ->.
    { revert Hr. unfold cleanupDatabase_resume, cleanup_tail.
      destruct closed as [[]|e0], (r_dbChannel r), throws as [e1|]; simpl; congruence. }
    unfold cleanupDatabase_call, cleanup_tail. simpl. intros [= <-]. now split.
Qed.

(** X9.  [checkConnection] never rejects and logs nothing: it answers
    true exactly when there is a connection and the probe is fulfilled,
    and false without a connection, whatever the probe would do.  The
    health check does nothing unless the answer is false; when it is, it
    leaves the module uninitialised, without connection and channel, with
    a new call of [initializeDatabase] that has sent for the two assets
    again. *)
Theorem health_check_reinitialises (s : Session.State)
    (probe : option (Settled Results)) (config : Session.PartialConfig) :
  let alive := snd (checkConnection (Session.dbInstance s) probe) in
  (forall e, alive <> Raises e) /\
  fst (checkConnection (Session.dbInstance s) probe) = [] /\
  (alive = Returns true <->
   is_Some (Session.dbInstance s) /\ exists rows, probe = Some (inl rows)) /\
  (Session.dbInstance s = None -> alive = Returns false) /\
  (alive <> Returns false ->
   health_check_inputs (Session.dbInstance s) probe config = []) /\
  (alive = Returns false ->
   exists s',
     Session.run s (health_check_inputs (Session.dbInstance s) probe config) = Some s' /\
     Session.isInitialized s' = false /\
     Session.dbInstance s' = None /\
     Session.dbChannel s' = false /\
     Session.calls s' !! Session.next_call s =
       Some (Session.merge config, Session.AwaitFetch) /\
     Session.log s' =
       Session.log s ++
       [Session.Fetch (Session.next_call s) (Session.wasmPath (Session.merge config));
        Session.Fetch (Session.next_call s) (Session.fsBundlePath (Session.merge config))]).
Proof.
  cbv zeta. unfold health_check_inputs, checkConnection.
  destruct (Session.dbInstance s) as [h|] eqn:Hdb.
  - unfold atry, abind, await, aret.
    destruct probe as [[rows|e]|]; simpl; repeat split; try discriminate; eauto;
      try (intros [_ [rows0 [=]]]); try (intros [? [=]]); try congruence.
    + intros _. eexists. split; [reflexivity|]. simpl. repeat split.
      apply lookup_insert_eq.
  - simpl. repeat split; try discriminate; try (intros [[? [=]] _]); try congruence.
    intros _. eexists. split; [reflexivity|]. simpl. repeat split.
    apply lookup_insert_eq.
Qed.

(** X10.  [dbPromise] is left behind by a reinitialisation: once it is
    fulfilled with a handle, any connection the module holds after a
    later [cleanupDatabase] is another one, while [dbPromise], which
    [executeQuery] awaits, still gives the first. *)
Theorem dbPromise_is_left_behind (before after : list Session.Input)
    (s1 s2 : Session.State) (h h' : Session.Handle) :
  Session.run Session.fresh before = Some s1 ->
  Session.dbPromise s1 = Some (inl (Some h)) ->
  Session.run s1 (Session.ICleanup :: after) = Some s2 ->
  Session.dbInstance s2 = Some h' ->
  h' <> h /\ Session.dbPromise s2 = Some (inl (Some h)).
Proof.
  intros Hrun1 Hp Hrun2 Hh'.
  split; [|exact (dbPromise_stable _ _ _ _ Hp Hrun2)].
  destruct (handles_made_run _ _ Hrun1) as [_ Hret].
  pose proof (Hret 0%nat h (outcome_elem _ _ _ Hp)) as Hlt.
  simpl in Hrun2.
  assert (Hm : made_after (Session.next_handle s1) s2).
  { revert Hrun2. apply (session_run_invariant _ (made_after_step (Session.next_handle s1))).
    split; simpl; [lia | discriminate]. }
  destruct Hm as [_ Hm]. apply Hm in Hh'. lia.
Qed.

Lemma dbPromise_is_left_behind_witness :
  exists s2,
    Session.run ready_session (Session.ICleanup :: reinitialised_inputs) = Some s2 /\
    Session.isInitialized s2 = true /\
    Session.dbInstance s2 = Some 1%nat /\
    Session.dbPromise s2 = Some (inl (Some 0%nat)).
Proof.
  eexists. split; [reflexivity|]. split; [reflexivity|]. split; [reflexivity|].
  apply (dbPromise_is_left_behind ready_inputs reinitialised_inputs ready_session _
           0%nat 1%nat); reflexivity.
Defined.

(** X11.  [initializeDatabase] throws only after it has cleaned up: in
    the state in which a call throws, the module is uninitialised, has no
    connection and no channel, and the call is over. *)
Theorem initializeDatabase_throws_after_cleanup (s s' : Session.State)
    (i : Session.Input) (call : nat) (e : Error) :
  Session.step s i = Some s' ->
  Session.log s' = Session.log s ++ [Session.Throw call e] ->
  Session.isInitialized s' = false /\
  Session.dbInstance s' = None /\
  Session.dbChannel s' = false /\
  Session.calls s' !! call = None.
Proof.
  unfold Session.step, Session.initializeDatabase, Session.fail, Session.suspend.
  intros H Hlog.
  destruct i; simpl in *;
    repeat (match type of H with
            | context [match ?x with _ => _ end] => destruct x eqn:?
            end; simpl in *);
    simplify_eq; simpl in *;
    try (apply app_inv_head in Hlog; simplify_eq);
    try (rewrite <- (app_nil_r (Session.log s)) in Hlog at 1;
         apply app_inv_head in Hlog; discriminate);
    repeat split; try reflexivity; try apply lookup_delete_eq.
Qed.

Lemma initializeDatabase_throws_after_cleanup_witness :
  Session.isInitialized
    (Session.initializeDatabase Session.fresh Session.no_config
       (Some "SecurityError"%string)) = false.
Proof.
  apply (initializeDatabase_throws_after_cleanup Session.fresh
           (Session.initializeDatabase Session.fresh Session.no_config
              (Some "SecurityError"%string))
           (Session.ICall Session.no_config (Some "SecurityError"%string))
           0%nat "SecurityError"%string); reflexivity.
Defined.

(** ** X12 to X15: the listeners *)

(** X12.  The listeners hear what the broadcaster sends.  For a
    subscription made while the channel is open: a message posted on the
    channel is accepted by its channel listener; the marker is written
    under the key to which its storage listener and [handleStorageEvent]
    answer, the latter by firing the event its refresh listener is
    registered for; and the event dispatched on the window has the name
    its custom-event listener is registered for.  In each case the
    callback is called with the notice. *)
Theorem listeners_hear_the_broadcaster (p : Platform) (channel : bool) (query : string)
    (affectedTable : option string) (callback : Callback) (ch : nat)
    (w : Subscriptions) (f : Effect) :
  f ∈ fst (broadcastDatabaseChange p channel query affectedTable) ->
  let w' := fst (onDatabaseUpdate (Some ch) w) in
  let sub := next_sub w in
  match f with
  | ChannelPost info =>
      (Channel ch, "message"%string, ChannelListener sub) ∈ regs w' /\
      channelListener callback (Notice info) =
        ([LoggedData "Received broadcast channel message:" (Notice info);
          Called (Notice info)], callback (Notice info))
  | StorageSet key info =>
      (Window, "storage"%string, StorageListener sub) ∈ regs w' /\
      Called (Notice info) ∈ fst (storageListener callback (Some key) (Parses (Notice info))) /\
      Fired "force-data-refresh" ∈ handleStorageEvent (Some key) /\
      (Window, "force-data-refresh"%string, RefreshListener sub) ∈ regs w'
  | WindowDispatch name info =>
      (Window, name, CustomEventListener sub) ∈ regs w' /\
      customEventListener callback (Notice info) =
        ([LoggedData "Received custom event:" (Notice info); Called (Notice info)],
         callback (Notice info))
  | _ => True
  end.
Proof.
  intros Hin. apply broadcast_effects in Hin. cbv zeta.
  unfold onDatabaseUpdate. simpl fst. cbn [regs].
  destruct f as [| | |info|key info|name info]; try exact I.
  - destruct Hin as [_ ->]. split; [|reflexivity].
    rewrite !elem_of_addEventListener. auto.
  - destruct Hin as [-> ->]. rewrite !elem_of_addEventListener.
    split; [auto|]. split; [|split; [|auto]].
    + unfold storageListener. rewrite bool_decide_eq_true_2 by reflexivity. simpl.
      right. left.
    + unfold handleStorageEvent. rewrite bool_decide_eq_true_2 by reflexivity. right. left.
  - destruct Hin as [-> ->]. rewrite !elem_of_addEventListener. auto.
Qed.

Lemma listeners_hear_the_broadcaster_witness :
  customEventListener (fun _ => None)
    (Notice (notice storage_full "DELETE FROM patients" None 0)) =
  ([LoggedData "Received custom event:"
      (Notice (notice storage_full "DELETE FROM patients" None 0));
    Called (Notice (notice storage_full "DELETE FROM patients" None 0))], None).
Proof.
  apply (listeners_hear_the_broadcaster channel_broken false "DELETE FROM patients" None
           (fun _ => None) 0%nat no_subscriptions
           (WindowDispatch "database-changed"
              (notice storage_full "DELETE FROM patients" None 0))).
  vm_compute. right. left.
Defined.

(** X13.  Which listener lets an error of the callback through.  The
    storage listener never throws: an error of the callback is caught and
    logged as an error of parsing.  The channel listener and the
    custom-event listener call the callback exactly for what they accept,
    truthy data of type "data_updated" or "tab_online" for the one, any
    truthy detail for the other, and throw what it throws, as does the
    refresh listener; the storage listener calls it with whatever was
    parsed, null included. *)
Theorem listener_errors (callback : Callback) :
  (forall key newValue, snd (storageListener callback key newValue) = None) /\
  (forall data e,
     callback data = Some e ->
     LoggedError "Error parsing storage event data:" e
       ∈ fst (storageListener callback (Some "db_change_notification"%string) (Parses data))) /\
  (forall data,
     (Called data ∈ fst (channelListener callback data) <->
      truthy data = true /\
      (data_type data = Some "data_updated"%string \/
       data_type data = Some "tab_online"%string)) /\
     (Called data ∈ fst (channelListener callback data) ->
      snd (channelListener callback data) = callback data) /\
     (Called data ∈ fst (customEventListener callback data) <-> truthy data = true) /\
     (Called data ∈ fst (customEventListener callback data) ->
      snd (customEventListener callback data) = callback data) /\
     Called data
       ∈ fst (storageListener callback (Some "db_change_notification"%string) (Parses data))) /\
  (forall now, snd (refreshListener callback now) = callback (Refresh now)).
Proof.
  split; [|split; [|split]].
  - intros key newValue. unfold storageListener.
    destruct (bool_decide _); [|reflexivity]. now destruct newValue.
  - intros data e He. unfold storageListener.
    rewrite bool_decide_eq_true_2 by reflexivity. rewrite He. simpl. set_solver.
  - intros data. unfold channelListener, customEventListener, storageListener.
    rewrite (bool_decide_eq_true_2 (Some _ = Some _)) by reflexivity.
    assert (Hnil : forall r : Reaction, r ∈ @nil Reaction -> False)
      by (intros r Hr; by apply elem_of_nil in Hr).
    destruct (truthy data); simpl;
      repeat case_bool_decide; simpl; repeat split;
      try (intros Hc; exfalso; exact (Hnil _ Hc));
      try (intros [Ht Hor]; first [discriminate | destruct Hor; contradiction]);
      try (intros _; split; [reflexivity | auto]; fail);
      try (intros _; right; left; fail);
      try (right; left; fail); try reflexivity; try discriminate.
    all: try (left; assumption); try (right; assumption).
    all: try match goal with Hc : _ ∈ [] |- _ => by apply elem_of_nil in Hc end.
  - reflexivity.
Qed.

(** X14.  The function [onDatabaseUpdate] returns undoes the
    subscription: called while [dbChannel] is the channel of the
    subscription, it leaves the listeners of the browser as they were
    before.  When the channel has been closed or replaced meanwhile, the
    channel listener stays registered on the old channel.  A subscription
    made without a channel registers no channel listener. *)
Theorem unsubscribe_undoes_onDatabaseUpdate (w : Subscriptions) (ch ch' : option nat) :
  subscriptions_ok w ->
  let w' := fst (onDatabaseUpdate ch w) in
  let cleanup := snd (onDatabaseUpdate ch w) in
  subscriptions_ok w' /\
  unsubscribe ch cleanup (regs w') = regs w /\
  (forall c, ch = Some c -> ch' <> Some c ->
     unsubscribe ch' cleanup (regs w') =
     regs w ++ [(Channel c, "message"%string, ChannelListener (next_sub w))]) /\
  (ch = None ->
     unsubscribe ch' cleanup (regs w') = regs w /\
     forall t type, (t, type, ChannelListener (next_sub w)) ∉ regs w').
Proof.
  intros Hok. cbv zeta.
  set (sub := next_sub w).
  pose proof (fun t type l => fresh_registration w t type l Hok) as Hfresh.
  set (rs := (Window, "storage"%string, StorageListener sub)).
  set (rd := (Window, "database-changed"%string, CustomEventListener sub)).
  set (rf := (Window, "force-data-refresh"%string, RefreshListener sub)).
  assert (Hwin : forall regs0, rs ∉ regs0 -> rd ∉ regs0 -> rf ∉ regs0 ->
    removeEventListener
      (removeEventListener
         (removeEventListener
            (addEventListener (addEventListener (addEventListener regs0 rs) rd) rf) rs)
         rd) rf = regs0).
  { intros regs0 H1 H2 H3.
    rewrite (removeEventListener_add_other _ rf rs) by discriminate.
    rewrite (removeEventListener_add_other _ rd rs) by discriminate.
    rewrite (removeEventListener_added regs0 rs) by exact H1.
    rewrite (removeEventListener_add_other _ rf rd) by discriminate.
    rewrite (removeEventListener_added regs0 rd) by exact H2.
    now rewrite (removeEventListener_added regs0 rf). }
  split; [|split; [|split]].
  - intros t type l sub0. unfold onDatabaseUpdate. fold sub.
    destruct ch as [c|]; simpl; fold rs rd rf;
      rewrite !elem_of_addEventListener;
      [intros [[[[H|H]|H]|H]|H] Hl | intros [[[H|H]|H]|H] Hl];
      simplify_eq; simpl in *; simplify_eq; try lia; pose proof (Hok _ _ _ _ H Hl); lia.
  - unfold onDatabaseUpdate. fold sub. destruct ch as [c|]; simpl fst; simpl snd.
    + set (rc := (Channel c, "message"%string, ChannelListener sub)).
      cbn [regs]. fold rs rd rf. unfold unsubscribe. cbn [app fold_left run_cleanup].
      fold rc. fold rs rd rf.
      rewrite (removeEventListener_add_other _ rf rc) by discriminate.
      rewrite (removeEventListener_add_other _ rd rc) by discriminate.
      rewrite (removeEventListener_add_other _ rs rc) by discriminate.
      rewrite (removeEventListener_added (regs w) rc) by (apply Hfresh; reflexivity).
      apply (Hwin (regs w)); apply Hfresh; reflexivity.
    + cbn [regs]. unfold unsubscribe. cbn [app fold_left run_cleanup]. fold rs rd rf.
      apply (Hwin (regs w)); apply Hfresh; reflexivity.
  - intros c -> Hne. unfold onDatabaseUpdate. fold sub. simpl fst; simpl snd.
    set (rc := (Channel c, "message"%string, ChannelListener sub)).
    cbn [regs]. fold rs rd rf. unfold unsubscribe. cbn [app fold_left].
    assert (Hadd : addEventListener (regs w) rc = regs w ++ [rc]).
    { unfold addEventListener. rewrite decide_False; [reflexivity|].
      apply Hfresh. reflexivity. }
    assert (Hfirst : forall regs0,
      (forall c0, (Channel c0, "message"%string, ChannelListener sub) ∈ regs0 -> c0 = c) ->
      run_cleanup ch' regs0 (RemoveFromChannel (ChannelListener sub)) = regs0).
    { intros regs0 Hone. destruct ch' as [c'|]; [|reflexivity]. simpl.
      apply removeEventListener_absent. intros Hin. apply Hne. f_equal. now apply Hone. }
    rewrite Hfirst.
    + cbn [run_cleanup]. fold rs rd rf. rewrite Hadd. apply (Hwin (regs w ++ [rc])); rewrite elem_of_app, list_elem_of_singleton;
        (intros [H|H]; [revert H; apply Hfresh; reflexivity | discriminate]).
    + intros c0. rewrite !elem_of_addEventListener.
      intros [[[[H|H]|H]|H]|H]; simplify_eq; try reflexivity.
      exfalso. revert H. apply Hfresh. reflexivity.
  - intros ->. unfold onDatabaseUpdate. fold sub. simpl fst; simpl snd. cbn [regs].
    fold rs rd rf. split.
    + unfold unsubscribe. cbn [app fold_left run_cleanup]. fold rs rd rf.
      apply (Hwin (regs w)); apply Hfresh; reflexivity.
    + intros t type. rewrite !elem_of_addEventListener.
      intros [[[H|H]|H]|H]; simplify_eq.
      revert H. apply Hfresh. reflexivity.
Qed.

Lemma unsubscribe_undoes_onDatabaseUpdate_witness :
  unsubscribe (Some 0%nat) (snd (onDatabaseUpdate (Some 0%nat) no_subscriptions))
    (regs (fst (onDatabaseUpdate (Some 0%nat) no_subscriptions))) = [] /\
  unsubscribe None (snd (onDatabaseUpdate (Some 0%nat) no_subscriptions))
    (regs (fst (onDatabaseUpdate (Some 0%nat) no_subscriptions))) =
  [(Channel 0, "message"%string, ChannelListener 0)].
Proof.
  assert (Hok : subscriptions_ok no_subscriptions).
  { intros t type l sub Hin. by apply elem_of_nil in Hin. }
  pose proof (unsubscribe_undoes_onDatabaseUpdate no_subscriptions (Some 0%nat) None Hok)
    as (_ & H1 & H2 & _).
  split; [exact H1 | apply (H2 0%nat); [reflexivity | discriminate]].
Defined.

(** X15.  Unsubscribing twice is unsubscribing once, registers nothing,
    and removes no listener of another subscription, nor
    [handleStorageEvent]. *)
Theorem unsubscribe_is_idempotent_and_spares_the_others (w : Subscriptions)
    (ch ch' : option nat) (all : list Registration) :
  let cleanup := snd (onDatabaseUpdate ch w) in
  unsubscribe ch' cleanup (unsubscribe ch' cleanup all) = unsubscribe ch' cleanup all /\
  (forall r, r ∈ unsubscribe ch' cleanup all -> r ∈ all) /\
  (forall t type l,
     (t, type, l) ∈ all -> listener_sub l <> Some (next_sub w) ->
     (t, type, l) ∈ unsubscribe ch' cleanup all).
Proof.
  cbv zeta. split; [apply unsubscribe_idem|]. split.
  - intros r. unfold unsubscribe. generalize (snd (onDatabaseUpdate ch w)). intros cs.
    revert all. induction cs as [|c cs IH]; intros all; [done|]. simpl.
    intros H. apply IH in H. exact (elem_of_run_cleanup _ _ _ _ H).
  - intros t type l Hin Hsub. unfold onDatabaseUpdate, unsubscribe.
    destruct ch as [c|], ch' as [c'|]; simpl;
      rewrite !elem_of_removeEventListener; repeat split; try exact Hin;
      intros Heq; simplify_eq; now apply Hsub.
Qed.

(** ** X16 to X23: the components *)

(** X16.  [initialize] never takes its catch branch: it never raises,
    never counts an attempt and never schedules a retry.  When the
    bootstrap of the table comes to its end it marks the database as
    initialised and asks for a refresh, also when the bootstrap has
    failed and returned false; while the bootstrap is suspended it has
    changed nothing. *)
Theorem initialize_never_retries (exec : string -> option (Settled Results))
    (a : App.AppState) :
  let after := fst (snd (App.initialize exec a)) in
  let outcome := snd (snd (App.initialize exec a)) in
  (forall e, outcome <> Raises e) /\
  App.initAttempts after = App.initAttempts a /\
  App.retryTimers after = App.retryTimers a /\
  (forall b,
     snd (initializePatientTable exec) = Returns b ->
     outcome = Returns tt /\
     App.isDbInitialized after = true /\
     App.refreshTrigger after = S (App.refreshTrigger a)) /\
  (forall e,
     exec create_table_sql = Some (inr e) ->
     snd (initializePatientTable exec) = Returns false /\ App.isDbInitialized after = true) /\
  (snd (initializePatientTable exec) = Suspended -> after = a /\ outcome = Suspended).
Proof.
  cbv zeta.
  assert (Hb : forall b, snd (initializePatientTable exec) = Returns b ->
            snd (App.initialize exec a) =
            ({| App.refreshTrigger := S (App.refreshTrigger a); App.isDbInitialized := true;
                App.initAttempts := App.initAttempts a; App.retryTimers := App.retryTimers a |},
             Returns tt)).
  { intros b Hr. unfold App.initialize, abind, aperform. simpl.
    destruct (initializePatientTable exec) as [effs r]. simpl in Hr. now subst r. }
  assert (Hs : snd (initializePatientTable exec) = Suspended ->
            snd (App.initialize exec a) = (a, Suspended)).
  { intros Hr. unfold App.initialize, abind, aperform. simpl.
    destruct (initializePatientTable exec) as [effs r]. simpl in Hr. now subst r. }
  pose proof (initializePatientTable_never_raises exec) as Hnr.
  destruct (snd (initializePatientTable exec)) as [b|e|] eqn:Hr.
  - rewrite (Hb b eq_refl). simpl.
    split; [discriminate|]. split; [reflexivity|]. split; [reflexivity|].
    split; [intros b0 _; now repeat split|]. split; [|discriminate].
    intros e0 He. rewrite (initializePatientTable_rejected exec e0 He) in Hr.
    now simplify_eq.
  - now destruct (Hnr e).
  - rewrite (Hs eq_refl). simpl.
    split; [discriminate|]. split; [reflexivity|]. split; [reflexivity|].
    split; [discriminate|]. split; [|now intros _].
    intros e0 He. rewrite (initializePatientTable_rejected exec e0 He) in Hr.
    discriminate.
Qed.

(** X17.  [validateForm] reports nothing exactly when the name has a
    character that is not white space, the age parses to an integer above
    0, and a gender is chosen.  What it reports is under the keys
    fullName, age and gender, in this order: a name of white space only,
    an age that parses to 0 or less, and an age that does not parse are
    each reported. *)
Theorem validateForm_accepts (fd : Form.PatientFormData) :
  (Form.validateForm fd = [] <->
   string_forall is_space (Form.fullName fd) = false /\
   (exists n, Form.parseInt (Form.age fd) = Some n /\ 0 < n) /\
   Form.gender fd <> EmptyString) /\
  map fst (Form.validateForm fd) `sublist_of` ["fullName"; "age"; "gender"]%string /\
  (string_forall is_space (Form.fullName fd) = true ->
   ("fullName"%string, "Full Name is required"%string) ∈ Form.validateForm fd) /\
  (forall n, Form.parseInt (Form.age fd) = Some n -> n <= 0 ->
   ("age"%string, "Valid age is required"%string) ∈ Form.validateForm fd) /\
  (Form.parseInt (Form.age fd) = None ->
   ("age"%string, "Valid age is required"%string) ∈ Form.validateForm fd).
Proof.
  split; [|split; [|split; [|split]]].
  - rewrite validateForm_nil. fold (age_accepted (Form.age fd)).
    assert (H : trim (Form.fullName fd) <> EmptyString <->
                string_forall is_space (Form.fullName fd) = false).
    { rewrite trim_empty. now destruct (string_forall is_space (Form.fullName fd)). }
    tauto.
  - unfold Form.validateForm.
    destruct (bool_decide (Form.age fd = EmptyString) || _);
      repeat case_bool_decide; simpl;
      repeat first [apply sublist_nil_l | apply sublist_skip | apply sublist_cons].
  - intros Hsp. apply trim_empty in Hsp. unfold Form.validateForm.
    rewrite bool_decide_eq_true_2 by exact Hsp. left.
  - intros n Hn Hle. unfold Form.validateForm. rewrite Hn.
    replace (n <=? 0) with true by (symmetry; apply Z.leb_le; lia).
    rewrite orb_true_r, elem_of_app, elem_of_app. right. left. left.
  - intros Hn. unfold Form.validateForm. rewrite Hn.
    rewrite orb_true_r, elem_of_app, elem_of_app. right. left. left.
Qed.

(** X18.  The validation ignores what follows the age: a form that is
    accepted is still accepted with any text added at the end of its age
    field. *)
Theorem validation_ignores_what_follows_the_age (fd : Form.PatientFormData)
    (junk : string) :
  Form.validateForm fd = [] ->
  Form.validateForm (with_age fd (Form.age fd ++ junk)) = [].
Proof.
  rewrite !validateForm_nil. simpl. intros (H1 & H2 & H3).
  repeat split; try assumption. now apply age_accepted_append.
Qed.

Lemma validation_ignores_what_follows_the_age_witness :
  Form.validateForm (with_age sample_form "42 years") = [] /\
  Form.parseInt "42 years" = Some 42.
Proof.
  split; [|reflexivity].
  apply (validation_ignores_what_follows_the_age sample_form " years"). reflexivity.
Defined.

(** X19.  [handleSubmit] sends valid forms only.  It makes no call when
    the validation reports something, and then only sets the errors.
    Else it sends the INSERT statement with its twelve parameters, the
    name first and the age, an integer above 0, second, and marks the
    form as submitting.  The statement is a mutating one on the table
    patients, so it goes through the queue with three attempts.  When the
    promise has settled the form is no longer submitting; the parent is
    notified exactly on success, with the form cleared; on failure the
    data stay and one error, under submit, is set. *)
Theorem handleSubmit_sends_only_valid_forms (st : Form.FormState) :
  match snd (Form.handleSubmit st) with
  | None =>
      Form.validateForm (Form.formData st) <> [] /\
      fst (Form.handleSubmit st) =
        {| Form.formData := Form.formData st;
           Form.errors := Form.validateForm (Form.formData st);
           Form.isSubmitting := Form.isSubmitting st;
           Form.successMessage := Form.successMessage st |}
  | Some (sql, params) =>
      Form.validateForm (Form.formData st) = [] /\
      sql = Form.insert_sql /\
      length params = 12%nat /\
      (exists n, 0 < n /\ params !! 1%nat = Some (Form.PNumber (Some n))) /\
      params !! 0%nat = Some (Form.PText (Form.fullName (Form.formData st))) /\
      Form.isSubmitting (fst (Form.handleSubmit st)) = true /\
      Form.formData (fst (Form.handleSubmit st)) = Form.formData st
  end /\
  (isModifyingQuery Form.insert_sql = true /\
   takes_fast_path Form.insert_sql None = false /\
   retries_of None = 3 /\
   getQueryAction Form.insert_sql = "insert"%string /\
   getAffectedTable Form.insert_sql = Some "patients"%string) /\
  (forall res,
     let after := fst (Form.handleSubmit_settled st res) in
     let notified := snd (Form.handleSubmit_settled st res) in
     Form.isSubmitting after = false /\
     (notified = true <-> exists rows, res = inl rows) /\
     (notified = true ->
      Form.formData after = Form.initialFormData /\ Form.errors after = []) /\
     (notified = false ->
      Form.formData after = Form.formData st /\
      map fst (Form.errors after) = ["submit"%string])).
Proof.
  split; [|split].
  - unfold Form.handleSubmit. cbv zeta.
    destruct (Form.validateForm (Form.formData st)) as [|e es] eqn:Hv; simpl.
    + repeat split. apply validateForm_nil in Hv as (_ & (n & Hn & Hpos) & _).
      exists n. now rewrite Hn.
    + split; [discriminate | reflexivity].
  - vm_compute. repeat split.
  - intros [rows|e]; simpl; repeat split; try discriminate; eauto.
    intros [rows [=]].
Qed.

(** X20.  The columns of the table are the keys of the rows other than
    "id", each once; when all rows have the same keys they come in the
    order of those keys. *)
Theorem allKeys_are_the_columns (localData : list PatientTable.Row) :
  NoDup (PatientTable.allKeys localData) /\
  (forall key,
     key ∈ PatientTable.allKeys localData <->
     key <> "id"%string /\
     exists row, row ∈ localData /\ key ∈ PatientTable.keys row) /\
  (forall ks,
     NoDup ks -> localData <> [] ->
     Forall (fun row => PatientTable.keys row = ks) localData ->
     PatientTable.allKeys localData = filter (fun key => key <> "id"%string) ks).
Proof.
  unfold PatientTable.allKeys. split; [|split].
  - apply NoDup_filter, NoDup_unique.
  - intros key. rewrite list_elem_of_filter, elem_of_unique. split.
    + intros [Hne Hin]. split; [exact Hne|].
      apply list_elem_of_In, in_flat_map in Hin as (row & Hr & Hk).
      exists row. now rewrite !list_elem_of_In.
    + intros [Hne (row & Hr & Hk)]. split; [exact Hne|].
      apply list_elem_of_In, in_flat_map. exists row. now rewrite <- !list_elem_of_In.
  - intros ks Hnd Hne Hall. now rewrite (unique_same_keys ks).
Qed.

(** X21.  The table is rectangular.  Without rows the notice that no
    record was found is shown; else there is one header for each column
    and one line for each row, each line with one cell for each column,
    and no header has an underscore.  A cell shows the text of the row's
    own value, and "-" for an own value that is null; where the row has
    no such key it shows what the row inherits under that name, and "-"
    only if it inherits nothing or a null.  Rows that have no key but
    "id" give a table without columns. *)
Theorem table_is_rectangular (inherited : PatientTable.Inherited)
    (localData : list PatientTable.Row) :
  (PatientTable.render inherited localData = None <-> localData = []) /\
  (forall headers rows,
     PatientTable.render inherited localData = Some (headers, rows) ->
     length headers = length (PatientTable.allKeys localData) /\
     length rows = length localData /\
     Forall (fun cells => length cells = length headers) rows /\
     Forall (fun h => string_forall (fun c => negb (Ascii.eqb c "_")) h = true) headers) /\
  (forall row key text,
     PatientTable.own row key = Some (Some text) ->
     PatientTable.cell inherited row key = text) /\
  (forall row key,
     PatientTable.own row key = Some None ->
     PatientTable.cell inherited row key = "-"%string) /\
  (forall row key,
     PatientTable.own row key = None ->
     PatientTable.cell inherited row key =
       match inherited key with
       | Some (Some text) => text
       | _ => "-"%string
       end) /\
  (forall row key,
     PatientTable.own row key = None <-> (key ∉ PatientTable.keys row)) /\
  (localData <> [] ->
   (forall row key, row ∈ localData -> key ∈ PatientTable.keys row -> key = "id"%string) ->
   PatientTable.render inherited localData = Some ([], map (fun _ => []) localData)).
Proof.
  split; [|split; [|split; [|split; [|split; [|split]]]]].
  - destruct localData; simpl; split; congruence.
  - intros headers rows. destruct localData as [|row d] eqn:Hd; [discriminate|].
    rewrite <- Hd. unfold PatientTable.render. rewrite Hd at 1. intros [= <- <-].
    rewrite !length_map. repeat split.
    + apply Forall_forall. intros cells Hc. apply list_elem_of_fmap in Hc as (r & -> & _).
      now rewrite !length_map.
    + apply Forall_forall. intros h Hh. apply list_elem_of_fmap in Hh as (k & -> & _).
      apply header_no_underscore.
  - intros row key text H. unfold PatientTable.cell, PatientTable.get. now rewrite H.
  - intros row key H. unfold PatientTable.cell, PatientTable.get. now rewrite H.
  - intros row key H. unfold PatientTable.cell, PatientTable.get. now rewrite H.
  - intros row key. induction row as [|[k v] row IH]; simpl.
    + split; [intros _; apply not_elem_of_nil | reflexivity].
    + rewrite not_elem_of_cons. destruct (String.eqb k key) eqn:Hk.
      * apply String.eqb_eq in Hk. split; [discriminate | intros [Hne _]; congruence].
      * apply String.eqb_neq in Hk. rewrite IH. split; [auto | tauto].
  - intros Hne Hid.
    assert (Hnone : PatientTable.allKeys localData = []).
    { unfold PatientTable.allKeys.
      assert (Hall : forall y, y ∈ PatientTable.unique (flat_map PatientTable.keys localData) ->
                               y = "id"%string).
      { intros y. rewrite elem_of_unique. intros Hy.
        apply list_elem_of_In, in_flat_map in Hy as (row & Hr & Hk).
        apply list_elem_of_In in Hr, Hk. eauto. }
      induction (PatientTable.unique (flat_map PatientTable.keys localData)) as [|z l IH];
        [reflexivity|].
      rewrite filter_cons_False by (intros H; apply H, Hall; left).
      apply IH. intros y Hy. apply Hall. now right. }
    unfold PatientTable.render. rewrite Hnone. now destruct localData.
Qed.

(** X22.  What [fetchPatients] asks of [executeQuery]: the fast path
    exactly for the statements that are not mutating, and two attempts.
    A mutating statement typed into the box is pushed on the queue.  A
    read that fails twice is tried twice, 100 ms apart, and the box shows
    the last error with no rows; a read that is answered at once is
    resolved at once. *)
Theorem fetchPatients_policy :
  (forall query,
     takes_fast_path query QueryExecutor.fetch_config = negb (isModifyingQuery query)) /\
  retries_of QueryExecutor.fetch_config = 2 /\
  (forall s query,
     isModifyingQuery query = true ->
     Pushed (new_op s query [] QueryExecutor.fetch_config)
       ∈ trace (executeQuery s query [] QueryExecutor.fetch_config None)) /\
  (forall s query p channel db e1 e2 fuel,
     isModifyingQuery query = false -> db 1 = inr e1 -> db 2 = inr e2 ->
     (4 <= fuel)%nat ->
     run_call fuel Fast p channel db (new_op s query [] QueryExecutor.fetch_config) =
       Some [AQuery 1; AWarn 1 2 e1; ASleep 100; AQuery 2; AWarn 2 2 e2; AReject e2] /\
     QueryExecutor.fetchPatients_settled (inr e2) =
       {| QueryExecutor.results := [];
          QueryExecutor.error := Some ("Error executing query: " ++ e2)%string;
          QueryExecutor.isLoading := false |}) /\
  (forall s query p channel db rows fuel,
     isModifyingQuery query = false -> db 1 = inl rows -> (2 <= fuel)%nat ->
     run_call fuel Fast p channel db (new_op s query [] QueryExecutor.fetch_config) =
       Some [AQuery 1; AResolve rows]).
Proof.
  split; [reflexivity|]. split; [reflexivity|]. split; [|split].
  - intros s query Hm. unfold executeQuery.
    replace (takes_fast_path query QueryExecutor.fetch_config) with false
      by (simpl; now rewrite Hm).
    unfold processPendingTransactions. simpl.
    destruct (pendingTransactions s ++ _) as [|hd tl]; [simpl; set_solver|].
    destruct (isTransactionInProgress s); [simpl; set_solver|].
    destruct (thunk_head hd 1 None) as [acts l]. simpl. set_solver.
  - intros s query p channel db e1 e2 fuel Hm H1 H2 Hfuel. split; [|reflexivity].
    rewrite (run_call_all_attempts_fail Fast p channel db _
               (fun k => if k =? 1 then e1 else e2) 2 fuel).
    + reflexivity.
    + reflexivity.
    + lia.
    + intros k Hk. assert (k = 1 \/ k = 2) as [-> | ->] by lia; assumption.
    + simpl. lia.
  - intros s query p channel db rows fuel Hm H1 Hfuel.
    rewrite (run_call_answered Fast p channel db _ (fun _ => EmptyString) 1 rows).
    + reflexivity.
    + lia.
    + reflexivity.
    + intros j Hj. lia.
    + exact H1.
    + simpl. lia.
Qed.

(** X23.  The listener of the query box asks for fresh data on a notice
    exactly when the notice names no table or names patients, in any
    case of the letters of the hint; with no hint, exactly when the
    table [getAffectedTable] found is patients, or none was found.  It
    always does on a forced refresh and never on the ping of a tab.  With
    transports that work, the notice of a change made in the window
    itself reaches it through the custom event, without error, and is
    judged like any other. *)
Theorem query_box_refreshes_on_patients (p : Platform) (query : string)
    (hint : option string) (timestamp : Z) :
  let heard := QueryExecutor.on_update (Notice (notice p query hint timestamp)) in
  heard =
    inl (match js_or hint (getAffectedTable query) with
         | None => true
         | Some table => bool_decide (toLowerCase table = "patients"%string)
         end) /\
  (hint = None ->
   forall table, getAffectedTable query = Some table ->
                 (heard = inl true <-> table = "patients"%string)) /\
  (hint = None -> getAffectedTable query = None -> heard = inl true) /\
  (forall ts, QueryExecutor.on_update (Refresh ts) = inl true) /\
  (forall ts tab, QueryExecutor.on_update (Ping ts tab) = inl false) /\
  (forall channel,
     transports_work p ->
     WindowDispatch "database-changed" (notice p query hint (now p))
       ∈ fst (broadcastDatabaseChange p channel query hint) /\
     customEventListener (callback_of QueryExecutor.on_update)
       (Notice (notice p query hint (now p))) =
     ([LoggedData "Received custom event:" (Notice (notice p query hint (now p)));
       Called (Notice (notice p query hint (now p)))], None) /\
     QueryExecutor.on_update (Notice (notice p query hint (now p))) = heard).
Proof.
  cbv zeta.
  assert (Hheard : forall ts,
    QueryExecutor.on_update (Notice (notice p query hint ts)) =
    inl (match js_or hint (getAffectedTable query) with
         | None => true
         | Some table => bool_decide (toLowerCase table = "patients"%string)
         end)).
  { intros ts. unfold QueryExecutor.on_update, notice. simpl.
    destruct (js_or hint (getAffectedTable query)) as [[|c t]|] eqn:Hj; try reflexivity.
    exfalso. unfold js_or in Hj.
    destruct hint as [[|]|]; try discriminate;
      destruct (getAffectedTable query) as [t0|] eqn:Hg; try discriminate;
      simplify_eq; now destruct (getAffectedTable_lowered _ _ Hg). }
  split; [apply Hheard|]. split; [|split; [|split; [|split]]].
  - intros -> table Hg. rewrite Hheard. simpl. rewrite Hg.
    destruct (getAffectedTable_lowered _ _ Hg) as [Hlow Hne].
    destruct table; [done|]. rewrite Hlow. split.
    + intros [= H]. now apply bool_decide_eq_true in H.
    + intros ->. reflexivity.
  - intros -> Hg. rewrite Hheard. simpl. now rewrite Hg.
  - reflexivity.
  - reflexivity.
  - intros channel Hp. split; [|split].
    + rewrite (broadcast_all _ _ _ _ Hp). rewrite elem_of_app. right. right. left.
    + unfold customEventListener, callback_of. simpl truthy. cbv iota.
      now rewrite (Hheard (now p)).
    + now rewrite !Hheard.
Qed.
